(** * Array2Tree: the flat-array / tree converter of @dqcai/tree

    A shallow embedding of [src/Array2Tree.ts] (class [Array2Tree]) and the
    properties its specification states about it.

    - Records are JavaScript objects: they live in a heap ([heap], a list of
      objects addressed by position) and are shared by reference, so the
      in-place annotation done by [array2Tree], [array2SortByTree] and
      [array2SortAndWeight] is visible through every array that holds the
      record.  An object is a finite map from field names to values.
    - Values are [undefined], [null], booleans, numbers, strings, references
      to objects and arrays.  Arrays are never updated in place by the
      converter (other than the accumulator, which is threaded explicitly),
      so an array value carries its elements; two array values are never
      [===] (they stand for distinct array objects).  Objects are plain data
      objects: only own fields are read.
    - Numbers are kept abstract behind the interface [Number], with two
      instances: [ieee] (binary64 floats, what the program runs on) and
      [exact] (rationals extended with the infinities and NaN, the arithmetic
      without rounding).  Everything that does not depend on rounding is
      proved for both at once.
    - Recursion is bounded by a [fuel] argument that counts nested calls;
      [OutOfFuel] stands for a recursion deeper than the fuel given.
    - [TypeError] is the exception JavaScript raises; [Unmodelled] marks an
      input outside the fragment covered here (string or object operands of
      [+] and [/], tree nodes that are not objects). *)

From Stdlib Require Import Floats ZArith QArith Qreduction Qfield Permutation.
From stdpp Require Import base option list gmap strings pretty.

Set Warnings "-register-all,-clear-no-such-hyp".
Open Scope nat_scope.

(** ** Numbers *)

Class Number (num : Type) := {
  n_zero : num;
  n_one : num;
  n_add : num → num → num;
  n_mul : num → num → num;
  n_div : num → num → num;
  n_of_nat : nat → num;
  n_eqb : num → num → bool;      (* [===] on two numbers *)
  n_is_nan : num → bool;
  n_is_finite : num → bool;
}.

(** IEEE 754 binary64, the JavaScript number type. *)
#[export] Instance ieee : Number float := {|
  n_zero := PrimFloat.zero;
  n_one := PrimFloat.one;
  n_add := PrimFloat.add;
  n_mul := PrimFloat.mul;
  n_div := PrimFloat.div;
  n_of_nat := λ n, PrimFloat.of_uint63 (Uint63.of_Z (Z.of_nat n));
  n_eqb := PrimFloat.eqb;
  n_is_nan := PrimFloat.is_nan;
  n_is_finite := PrimFloat.is_finite;
|}.

(** Exact arithmetic: rationals with the IEEE special values, no rounding and
    a single zero. *)
Inductive xnum : Type :=
| XFin (q : Q)
| XInf (negative : bool)
| XNaN.

Definition Qsign_neg (q : Q) : bool := Z.ltb (Qnum q) 0.

Definition xadd (a b : xnum) : xnum :=
  match a, b with
  | XNaN, _ | _, XNaN => XNaN
  | XFin p, XFin q => XFin (Qred (p + q))
  | XInf s, XFin _ | XFin _, XInf s => XInf s
  | XInf s, XInf t => if Bool.eqb s t then XInf s else XNaN
  end.

Definition xmul (a b : xnum) : xnum :=
  match a, b with
  | XNaN, _ | _, XNaN => XNaN
  | XFin p, XFin q => XFin (Qred (p * q))
  | XInf s, XFin q | XFin q, XInf s =>
      if Qeq_bool q 0 then XNaN else XInf (xorb s (Qsign_neg q))
  | XInf s, XInf t => XInf (xorb s t)
  end.

Definition xdiv (a b : xnum) : xnum :=
  match a, b with
  | XNaN, _ | _, XNaN => XNaN
  | XFin p, XFin q =>
      if Qeq_bool q 0
      then (if Qeq_bool p 0 then XNaN else XInf (Qsign_neg p))
      else XFin (Qred (p / q))
  | XFin _, XInf _ => XFin 0
  | XInf s, XFin q => XInf (xorb s (Qsign_neg q))
  | XInf _, XInf _ => XNaN
  end.

Definition xeqb (a b : xnum) : bool :=
  match a, b with
  | XFin p, XFin q => Qeq_bool p q
  | XInf s, XInf t => Bool.eqb s t
  | _, _ => false
  end.

#[export] Instance exact : Number xnum := {|
  n_zero := XFin 0;
  n_one := XFin 1;
  n_add := xadd;
  n_mul := xmul;
  n_div := xdiv;
  n_of_nat := λ n, XFin (inject_Z (Z.of_nat n));
  n_eqb := xeqb;
  n_is_nan := λ a, match a with XNaN => true | _ => false end;
  n_is_finite := λ a, match a with XFin _ => true | _ => false end;
|}.

(** ** Values, objects and the heap *)

Definition loc := nat.

Inductive value {num : Type} : Type :=
| VUndef
| VNull
| VBool (b : bool)
| VNum (x : num)
| VStr (s : string)
| VRef (l : loc)
| VArr (elems : list value).
Arguments value : clear implicits.


(** Outcome of a call. *)
Inductive result (A : Type) : Type :=
| Ok (a : A)
| TypeError
| OutOfFuel
| Unmodelled.
Arguments Ok {A} a.
Arguments TypeError {A}.
Arguments OutOfFuel {A}.
Arguments Unmodelled {A}.

Definition rbind {A B} (r : result A) (k : A → result B) : result B :=
  match r with
  | Ok a => k a
  | TypeError => TypeError
  | OutOfFuel => OutOfFuel
  | Unmodelled => Unmodelled
  end.

Notation "'let!' x := r 'in' k" := (rbind r (λ x, k))
  (at level 10, x pattern, r at level 100, k at level 200, right associativity).

(** JSON documents, as produced by [JSON.stringify] and read by [JSON.parse]. *)
Inductive json {num : Type} : Type :=
| JNull
| JBool (b : bool)
| JNum (x : num)
| JStr (s : string)
| JArr (items : list json)
| JObj (fields : list (string * json)).
Arguments json : clear implicits.

Section Converter.
Context {num : Type} {N : Number num}.

Abbreviation value := (value num).
Abbreviation json := (json num).
Abbreviation obj := (gmap string value).
Abbreviation heap := (list (gmap string value)).

(** *** Reading and writing fields *)

Definition obj_at (h : heap) (l : loc) : obj := default ∅ (h !! l).

(** [x[k]] *)
Definition get (h : heap) (l : loc) (k : string) : value :=
  default VUndef (obj_at h l !! k).

(** [x[k] = v] *)
Definition set (h : heap) (l : loc) (k : string) (v : value) : heap :=
  <[l := <[k := v]> (obj_at h l)]> h.

(** [delete x[k]] *)
Definition del (h : heap) (l : loc) (k : string) : heap :=
  <[l := delete k (obj_at h l)]> h.

(** [{ ...el }]: a fresh object with the own fields of [el]. *)
Definition spread (h : heap) (el : loc) : heap * loc :=
  (h ++ [obj_at h el], length h).

(** *** Operators *)

(** [if (v)], [v || w], [v ? a : b] *)
Definition truthy (v : value) : bool :=
  match v with
  | VUndef | VNull => false
  | VBool b => b
  | VNum x => negb (n_eqb x n_zero) && negb (n_is_nan x)
  | VStr s => negb (String.eqb s "")
  | VRef _ | VArr _ => true
  end.

(** [a === b] *)
Definition strict_eq (a b : value) : bool :=
  match a, b with
  | VUndef, VUndef | VNull, VNull => true
  | VBool x, VBool y => Bool.eqb x y
  | VNum x, VNum y => n_eqb x y
  | VStr x, VStr y => String.eqb x y
  | VRef x, VRef y => Nat.eqb x y
  | _, _ => false
  end.

(** [v == null] and [v == undefined]: true of [null] and [undefined] only. *)
Definition loose_eq_null (v : value) : bool :=
  match v with VUndef | VNull => true | _ => false end.

Definition loose_eq_undefined (v : value) : bool :=
  match v with VUndef | VNull => true | _ => false end.

(** Whether an array element prints as the empty string in
    [Array.prototype.join]. *)
Fixpoint prints_empty (v : value) : bool :=
  match v with
  | VUndef | VNull => true
  | VStr s => String.eqb s ""
  | VArr [] => true
  | VArr [e] => prints_empty e
  | _ => false
  end.

(** [v == '']: the empty string itself, the numbers [0] and [-0], [false],
    and arrays that print as the empty string. *)
Definition loose_eq_empty (v : value) : bool :=
  match v with
  | VStr s => String.eqb s ""
  | VNum x => n_eqb x n_zero
  | VBool b => negb b
  | VArr _ => prints_empty v
  | VUndef | VNull | VRef _ => false
  end.

(** The filter of [array2Tree] and [array2SortByTree]. *)
Definition match_tree (h : heap) (parentKey : string) (startWith : value)
    (x : loc) : bool :=
  strict_eq (get h x parentKey) startWith
  || (loose_eq_null startWith && loose_eq_undefined (get h x parentKey))
  || (loose_eq_undefined startWith && loose_eq_null (get h x parentKey))
  || (loose_eq_undefined startWith && loose_eq_empty (get h x parentKey)).

(** The filter of [array2SortAndWeight]. *)
Definition match_weight (h : heap) (parentKey : string) (startWith : value)
    (x : loc) : bool :=
  strict_eq (get h x parentKey) startWith
  || (loose_eq_null startWith && loose_eq_undefined (get h x parentKey))
  || (loose_eq_undefined startWith && loose_eq_null (get h x parentKey)).

(** [$is_leaf = 1] on the record a [find] returned, if any. *)
Definition mark_leaf (h : heap) (found : option loc) : heap :=
  match found with
  | Some l => set h l "$is_leaf" (VNum n_one)
  | None => h
  end.

(** *** array2Tree *)

(** [array2Tree(arrIn, idKey, parentKey, startWith, level)].  The result is
    the heap after the call and the returned value: the array [roots] or
    [undefined]. *)
Fixpoint array2Tree (fuel : nat) (h : heap) (arrIn : list loc)
    (idKey parentKey : string) (startWith : value) (level : num)
    : result (heap * value) :=
  match fuel with
  | 0 => OutOfFuel
  | S fuel' =>
      let myLevel := level in
      let roots := filter (λ x, match_tree h parentKey startWith x) arrIn in
      match roots with
      | _ :: _ =>
          let! h' :=
            (fix forEach (els : list loc) (h : heap) : result heap :=
               match els with
               | [] => Ok h
               | el :: rest =>
                   let h := set h el "$level" (VNum myLevel) in
                   let! (h, sub) :=
                     array2Tree fuel' h arrIn idKey parentKey (get h el idKey)
                       (n_add myLevel n_one) in
                   let children := if truthy sub then sub else VArr [] in
                   forEach rest (set h el "$children" children)
               end) roots h in
          Ok (h', VArr (VRef <$> roots))
      | [] =>
          let leafChildren :=
            List.find (λ x, strict_eq (get h x idKey) startWith) arrIn in
          Ok (mark_leaf h leafChildren, VUndef)
      end
  end.

(** *** array2SortByTree *)

(** [(parentIndex ? parentIndex + '.' : '') + index]; [None] is an absent
    [parentIndex]. *)
Definition tree_index (parentIndex : option string) (index : nat) : string :=
  (match parentIndex with
   | Some p => if String.eqb p "" then "" else p +:+ "."
   | None => ""
   end) +:+ pretty index.

(** The assignments of one [forEach] step of [array2SortByTree]. *)
Definition annotate (h : heap) (el : loc) (myLevel : num) (idx : nat)
    (parentIndex : option string) : heap :=
  let h := set h el "$level" (VNum myLevel) in
  let h := set h el "$index" (VNum (n_of_nat (idx + 1))) in
  set h el "$tree_index" (VStr (tree_index parentIndex (idx + 1))).

(** [array2SortByTree(arrIn, idKey, parentKey, startWith, level, arrOut,
    parentIndex)]: the heap after the call and the returned accumulator. *)
Fixpoint array2SortByTree (fuel : nat) (h : heap) (arrIn : list loc)
    (idKey parentKey : string) (startWith : value) (level : num)
    (arrOut : list loc) (parentIndex : option string)
    : result (heap * list loc) :=
  match fuel with
  | 0 => OutOfFuel
  | S fuel' =>
      let arrReturns := arrOut in
      let myLevel := level in
      if (length arrReturns <=? length arrIn)
         && negb (String.eqb idKey "") && negb (String.eqb parentKey "")
      then
        let parents := filter (λ x, match_tree h parentKey startWith x) arrIn in
        match parents with
        | _ :: _ =>
            (fix forEach (els : list loc) (idx : nat) (h : heap)
                 (arrReturns : list loc) : result (heap * list loc) :=
               match els with
               | [] => Ok (h, arrReturns)
               | el :: rest =>
                   let h := annotate h el myLevel idx parentIndex in
                   let arrReturns := arrReturns ++ [el] in
                   let! (h, arrReturns) :=
                     array2SortByTree fuel' h arrIn idKey parentKey
                       (get h el idKey) (n_add myLevel n_one) arrReturns
                       (Some (tree_index parentIndex (idx + 1))) in
                   forEach rest (S idx) h arrReturns
               end) parents 0 h arrReturns
        | [] =>
            let objCur :=
              List.find (λ o, strict_eq (get h o idKey) startWith) arrReturns in
            Ok (mark_leaf h objCur, arrReturns)
        end
      else Ok (h, arrReturns)
  end.

(** *** array2SortAndWeight *)

(** [v || 0] as an operand of [+] and [/]: a number in the numeric fragment
    (numbers, booleans and the falsy values). *)
Definition weight_of (v : value) : result num :=
  if truthy v then
    match v with
    | VNum x => Ok x
    | VBool _ => Ok n_one
    | _ => Unmodelled
    end
  else Ok n_zero.

(** [parents.reduce((sum, obj) => sum + (obj[weightKey] || 0), 0)] *)
Definition sum_weights (h : heap) (weightKey : string) (parents : list loc)
    : result num :=
  foldl (λ acc x,
           let! sum := acc in
           let! w := weight_of (get h x weightKey) in
           Ok (n_add sum w))
        (Ok n_zero) parents.

(** The assignments of one [forEach] step of [array2SortAndWeight]; also
    returns the [$root_weight_percent] written. *)
Definition annotate_weight (h : heap) (el : loc) (weightKey : string)
    (sumWeight rootWeight myLevel : num) (idx : nat)
    (parentIndex : option string) : result (heap * num) :=
  let h := set h el "$sum_weight" (VNum sumWeight) in
  let! w := weight_of (get h el weightKey) in
  let weight_percent := n_div w sumWeight in
  let h := set h el "$weight_percent" (VNum weight_percent) in
  let h := set h el "$parent_weight_percent" (VNum rootWeight) in
  let root_weight_percent := n_mul rootWeight weight_percent in
  let h := set h el "$root_weight_percent" (VNum root_weight_percent) in
  Ok (annotate h el myLevel idx parentIndex, root_weight_percent).

(** [array2SortAndWeight(arrIn, idKey, parentKey, weightKey, startWith, level,
    rootWeight, arrOut, parentIndex)] *)
Fixpoint array2SortAndWeight (fuel : nat) (h : heap) (arrIn : list loc)
    (idKey parentKey weightKey : string) (startWith : value) (level : num)
    (rootWeight : num) (arrOut : list loc) (parentIndex : option string)
    : result (heap * list loc) :=
  match fuel with
  | 0 => OutOfFuel
  | S fuel' =>
      let arrReturns := arrOut in
      let myLevel := level in
      if length arrReturns <=? length arrIn then
        let parents := filter (λ x, match_weight h parentKey startWith x) arrIn in
        match parents with
        | _ :: _ =>
            let! sumWeight := sum_weights h weightKey parents in
            (fix forEach (els : list loc) (idx : nat) (h : heap)
                 (arrReturns : list loc) : result (heap * list loc) :=
               match els with
               | [] => Ok (h, arrReturns)
               | el :: rest =>
                   let! (h, root_weight_percent) :=
                     annotate_weight h el weightKey sumWeight rootWeight
                       myLevel idx parentIndex in
                   let arrReturns := arrReturns ++ [el] in
                   let! (h, arrReturns) :=
                     array2SortAndWeight fuel' h arrIn idKey parentKey weightKey
                       (get h el idKey) (n_add myLevel n_one)
                       root_weight_percent arrReturns
                       (Some (tree_index parentIndex (idx + 1))) in
                   forEach rest (S idx) h arrReturns
               end) parents 0 h arrReturns
        | [] =>
            let objCur :=
              List.find (λ o, strict_eq (get h o idKey) startWith) arrReturns in
            Ok (mark_leaf h objCur, arrReturns)
        end
      else Ok (h, arrReturns)
  end.

(** *** tree2Array *)

(** [JSON.stringify(v)] as a document; [None] is the [undefined] it returns
    for [undefined].  [depth] bounds the nesting of objects: a chain of more
    objects than the heap holds revisits one of them, which is the circular
    structure [JSON.stringify] rejects. *)
Fixpoint stringify (depth : nat) (h : heap) : value → result (option json) :=
  fix go (v : value) : result (option json) :=
    match v with
    | VUndef => Ok None
    | VNull => Ok (Some JNull)
    | VBool b => Ok (Some (JBool b))
    | VNum x =>
        Ok (Some (if n_is_finite x
                  then JNum (if n_eqb x n_zero then n_zero else x)
                  else JNull))
    | VStr s => Ok (Some (JStr s))
    | VArr elems =>
        let! items :=
          (fix each (vs : list value) : result (list json) :=
             match vs with
             | [] => Ok []
             | v :: vs =>
                 let! j := go v in
                 let! js := each vs in
                 Ok (default JNull j :: js)
             end) elems in
        Ok (Some (JArr items))
    | VRef l =>
        match depth with
        | 0 => TypeError
        | S depth' =>
            let! fields :=
              (fix each (kvs : list (string * value))
                   : result (list (string * json)) :=
                 match kvs with
                 | [] => Ok []
                 | (k, v) :: kvs =>
                     let! j := stringify depth' h v in
                     let! js := each kvs in
                     Ok (match j with Some j => (k, j) :: js | None => js end)
                 end) (map_to_list (obj_at h l)) in
            Ok (Some (JObj fields))
        end
    end.

(** [JSON.parse(doc)]: builds the value in fresh objects. *)
Fixpoint parse (doc : json) (h : heap) : heap * value :=
  match doc with
  | JNull => (h, VNull)
  | JBool b => (h, VBool b)
  | JNum x => (h, VNum x)
  | JStr s => (h, VStr s)
  | JArr items =>
      let '(h, vs) :=
        (fix each (js : list json) (h : heap) : heap * list value :=
           match js with
           | [] => (h, [])
           | j :: js =>
               let '(h, v) := parse j h in
               let '(h, vs) := each js h in
               (h, v :: vs)
           end) items h in
      (h, VArr vs)
  | JObj fields =>
      let '(h, o) :=
        (fix each (kjs : list (string * json)) (h : heap) (o : obj)
             : heap * obj :=
           match kjs with
           | [] => (h, o)
           | (k, j) :: kjs =>
               let '(h, v) := parse j h in
               each kjs h (<[k := v]> o)
           end) fields h ∅ in
      (h ++ [o], VRef (length h))
  end.

(** [JSON.parse(JSON.stringify(v))] *)
Definition json_copy (h : heap) (v : value) : result (heap * value) :=
  let! doc := stringify (S (length h)) h v in
  match doc with
  | Some doc => Ok (parse doc h)
  | None => TypeError
  end.

(** [tree2Array(treeIn, keyNameOfSubs, parentValue, level)], with the counter
    [this.myId] threaded: the result is the heap, the counter and the
    returned array [roots]. *)
Fixpoint tree2Array (fuel : nat) (h : heap) (myId : num) (treeIn : value)
    (keyNameOfSubs : string) (parentValue : value) (level : num)
    : result (heap * num * list loc) :=
  match fuel with
  | 0 => OutOfFuel
  | S fuel' =>
      let myLevel := level in
      match treeIn with
      | VArr els =>
          (fix forEach (els : list value) (h : heap) (myId : num)
               (roots : list loc) : result (heap * num * list loc) :=
             match els with
             | [] => Ok (h, myId, roots)
             | VRef el :: rest =>
                 let '(h, node) := spread h el in
                 let myId := n_add myId n_one in
                 let h := set h node "$id" (VNum myId) in
                 let h := set h node "$parent_id" parentValue in
                 let roots := roots ++ [node] in
                 if truthy (get h el keyNameOfSubs) then
                   let! (h, subs) := json_copy h (get h el keyNameOfSubs) in
                   let h := del h node keyNameOfSubs in
                   let! (h, myId, subTree) :=
                     tree2Array fuel' h myId subs keyNameOfSubs (VNum myId)
                       (n_add myLevel n_one) in
                   forEach rest h myId (roots ++ subTree)
                 else forEach rest h myId roots
             | (VUndef | VNull) :: _ => TypeError
             | _ :: _ => Unmodelled
             end) els h myId []
      | _ => TypeError
      end
  end.

(** [resetIdCounter()] *)
Definition resetIdCounter (myId : num) : num := n_zero.

End Converter.

(** ** Specification vocabulary *)

Section Spec.
Context {num : Type} {N : Number num}.

Abbreviation value := (value num).
Abbreviation obj := (gmap string value).
Abbreviation heap := (list (gmap string value)).

(** The bodies of the [forEach] loops, as functions of the recursive call. *)
Definition tree_loop (rec : heap → value → result (heap * value))
    (idKey : string) (myLevel : num) :=
  fix forEach (els : list loc) (h : heap) : result heap :=
    match els with
    | [] => Ok h
    | el :: rest =>
        let h := set h el "$level" (VNum myLevel) in
        let! (h, sub) := rec h (get h el idKey) in
        let children := if truthy sub then sub else VArr [] in
        forEach rest (set h el "$children" children)
    end.

Definition sort_loop
    (rec : heap → value → list loc → option string → result (heap * list loc))
    (idKey : string) (myLevel : num) (parentIndex : option string) :=
  fix forEach (els : list loc) (idx : nat) (h : heap) (arrReturns : list loc)
      : result (heap * list loc) :=
    match els with
    | [] => Ok (h, arrReturns)
    | el :: rest =>
        let h := annotate h el myLevel idx parentIndex in
        let arrReturns := arrReturns ++ [el] in
        let! (h, arrReturns) :=
          rec h (get h el idKey) arrReturns
            (Some (tree_index parentIndex (idx + 1))) in
        forEach rest (S idx) h arrReturns
    end.

Definition weight_loop
    (rec : heap → value → num → list loc → option string
           → result (heap * list loc))
    (idKey weightKey : string) (sumWeight rootWeight myLevel : num)
    (parentIndex : option string) :=
  fix forEach (els : list loc) (idx : nat) (h : heap) (arrReturns : list loc)
      : result (heap * list loc) :=
    match els with
    | [] => Ok (h, arrReturns)
    | el :: rest =>
        let! (h, root_weight_percent) :=
          annotate_weight h el weightKey sumWeight rootWeight myLevel idx
            parentIndex in
        let arrReturns := arrReturns ++ [el] in
        let! (h, arrReturns) :=
          rec h (get h el idKey) root_weight_percent arrReturns
            (Some (tree_index parentIndex (idx + 1))) in
        forEach rest (S idx) h arrReturns
    end.

Definition flatten_loop
    (rec : heap → num → value → value → result (heap * num * list loc))
    (keyNameOfSubs : string) (parentValue : value) :=
  fix forEach (els : list value) (h : heap) (myId : num) (roots : list loc)
      : result (heap * num * list loc) :=
    match els with
    | [] => Ok (h, myId, roots)
    | VRef el :: rest =>
        let '(h, node) := spread h el in
        let myId := n_add myId n_one in
        let h := set h node "$id" (VNum myId) in
        let h := set h node "$parent_id" parentValue in
        let roots := roots ++ [node] in
        if truthy (get h el keyNameOfSubs) then
          let! (h, subs) := json_copy h (get h el keyNameOfSubs) in
          let h := del h node keyNameOfSubs in
          let! (h, myId, subTree) := rec h myId subs (VNum myId) in
          forEach rest h myId (roots ++ subTree)
        else forEach rest h myId roots
    | (VUndef | VNull) :: _ => TypeError
    | _ :: _ => Unmodelled
    end.

(** The fields each operation writes. *)
Definition tree_fields : list string := ["$level"; "$children"; "$is_leaf"].

Definition sort_fields : list string :=
  ["$level"; "$index"; "$tree_index"; "$is_leaf"].

Definition weight_fields : list string :=
  ["$sum_weight"; "$weight_percent"; "$parent_weight_percent";
   "$root_weight_percent"; "$level"; "$index"; "$tree_index"; "$is_leaf"].

(** [h'] holds the same objects as [h] up to the fields [K]. *)
Definition same_data (K : list string) (h h' : heap) : Prop :=
  length h' = length h ∧ ∀ l k, k ∉ K → get h' l k = get h l k.

(** Every element of the array is an object of the heap. *)
Definition valid (h : heap) (arrIn : list loc) : Prop :=
  Forall (λ l, l < length h) arrIn.

(** *** Hierarchies

    The vocabulary is shared by the three traversals; [child s x] is the
    filter of the traversal at hand ([x] is matched by the start value [s])
    and [idv x] the identifier of [x]. *)

Section Hierarchy.
Variables (arrIn : list loc) (child : value → loc → bool) (idv : loc → value).
Variable (s0 : value).

(** The sibling group matched by [s], in input order. *)
Definition kids (s : value) : list loc := filter (λ x, child s x) arrIn.

(** Pre-order listing of the records below the start value [s]: every
    matched record followed by the listing below its own identifier. *)
Definition walk_each (rec : value → option (list loc)) :=
  fix each (els : list loc) : option (list loc) :=
    match els with
    | [] => Some []
    | el :: rest =>
        w ← rec (idv el); ws ← each rest; Some (el :: w ++ ws)
    end.

Fixpoint walk (fuel : nat) (s : value) : option (list loc) :=
  match fuel with
  | 0 => None
  | S fuel' => walk_each (walk fuel') (kids s)
  end.

(** [x] is met by the traversal started at [s0]. *)
Inductive reach : loc → Prop :=
| reach_top x : x ∈ kids s0 → reach x
| reach_child p x : reach p → x ∈ kids (idv p) → reach x.

(** The start values of the recursive calls: the root marker and the
    identifiers of the records met. *)
Definition start_ok (s : value) : Prop := s = s0 ∨ ∃ p, reach p ∧ s = idv p.

(** The records ranked above [p]; their number bounds the depth below [p]. *)
Definition above (rank : loc → nat) (p : loc) : list loc :=
  filter (λ x, rank p < rank x) arrIn.

(** [x] lies below [p]. *)
Inductive desc : loc → loc → Prop :=
| desc_child p x : x ∈ kids (idv p) → desc p x
| desc_step p q x : desc p q → x ∈ kids (idv q) → desc p x.

(** No cycle among the parent references: some rank grows from every record
    to the records its identifier matches. *)
Definition acyclic : Prop :=
  ∃ rank : loc → nat, ∀ p x, p ∈ arrIn → x ∈ kids (idv p) → rank p < rank x.

(** Each record is listed once and identifiers tell the records apart:
    an identifier is [===] to itself and to no other record's. *)
Definition ids_unique : Prop :=
  NoDup arrIn
  ∧ ∀ x y, x ∈ arrIn → y ∈ arrIn → strict_eq (idv x) (idv y) = true ↔ x = y.

(** A record matched by the root marker is matched by no identifier. *)
Definition root_exclusive : Prop :=
  ∀ p x, p ∈ arrIn → x ∈ kids s0 → x ∉ kids (idv p).

(** Every record is matched by the root marker or by some identifier. *)
Definition no_orphan : Prop :=
  ∀ x, x ∈ arrIn → x ∈ kids s0 ∨ ∃ p, p ∈ arrIn ∧ x ∈ kids (idv p).


End Hierarchy.


(** *** Weights *)




(** The weight that enters the sums: [x[weightKey] || 0] as a number. *)
Definition weight (h : heap) (weightKey : string) (x : loc) : num :=
  match weight_of (get h x weightKey) with Ok w => w | _ => n_zero end.

(** Every weight is a number, a boolean or falsy. *)
Definition numeric_weights (h : heap) (arrIn : list loc) (weightKey : string)
    : Prop :=
  ∀ x, x ∈ arrIn → ∃ w, weight_of (get h x weightKey) = Ok w.

(** Total weight of a group: the [reduce] of [array2SortAndWeight]. *)
Definition total_weight (h : heap) (weightKey : string) (group : list loc)
    : num :=
  foldl (λ acc x, n_add acc (weight h weightKey x)) n_zero group.

(** *** What array2SortAndWeight writes on every input *)

Section SiblingGroups.
Variables (h0 : heap) (arrIn : list loc) (parentKey weightKey : string).




End SiblingGroups.

(** *** What array2Tree builds *)

Section BuiltTree.
Variables (h0 : heap) (arrIn : list loc) (idKey parentKey : string).

(** The record [find] returns for its own identifier is the record itself. *)
Definition first_with_id (x : loc) : Prop :=
  List.find (λ y, strict_eq (get h0 y idKey) (get h0 x idKey)) arrIn = Some x.

(** The subtree of [x] is built: [$children] lists the records its
    identifier matches, themselves built, and a childless record that
    [find] can tell by its identifier is flagged. *)
Inductive built (h : heap) : loc → Prop :=
| built_node x :
    get h x "$children"
      = VArr (VRef <$> kids arrIn (match_tree h0 parentKey) (get h0 x idKey)) →
    (kids arrIn (match_tree h0 parentKey) (get h0 x idKey) = [] →
     first_with_id x → get h x "$is_leaf" = VNum n_one) →
    (∀ c, c ∈ kids arrIn (match_tree h0 parentKey) (get h0 x idKey) → built h c) →
    built h x.

(** Later writes keep what is built. *)
Definition keeps (h h' : heap) : Prop :=
  (∀ x, get h x "$children"
          = VArr (VRef <$> kids arrIn (match_tree h0 parentKey) (get h0 x idKey)) →
        get h' x "$children"
          = VArr (VRef <$> kids arrIn (match_tree h0 parentKey) (get h0 x idKey)))
  ∧ (∀ x, get h x "$is_leaf" = VNum n_one → get h' x "$is_leaf" = VNum n_one).

End BuiltTree.

End Spec.

(** Laws shared by the two arithmetics: [===] on numbers is symmetric and
    transitive, zero is finite, and a division by zero gives no finite
    number, [0 / 0] giving NaN. *)
Class NumberLaws (num : Type) `{Number num} : Prop := {
  n_eqb_sym : ∀ x y : num, n_eqb x y = n_eqb y x;
  n_eqb_trans : ∀ x y z : num,
    n_eqb x y = true → n_eqb y z = true → n_eqb x z = true;
  n_zero_finite : ∀ z : num, n_eqb z n_zero = true → n_is_finite z = true;
  n_div_by_zero : ∀ x z : num,
    n_eqb z n_zero = true → n_is_finite (n_div x z) = false;
  n_zero_div_zero : ∀ z : num,
    n_eqb z n_zero = true → n_is_nan (n_div n_zero z) = true;
}.

(** *** Exact shares *)



(** *** array2Tree, then tree2Array *)

Section RoundTripDefs.
Context {num : Type} {N : Number num}.

Abbreviation value := (value num).
Abbreviation json := (json num).
Abbreviation obj := (gmap string value).
Abbreviation heap := (list (gmap string value)).

(** The loops of [stringify] and [parse], as functions of the recursive
    call. *)
Definition stringify_items (go : value → result (option json)) :=
  fix each (vs : list value) : result (list json) :=
    match vs with
    | [] => Ok []
    | v :: vs =>
        let! j := go v in
        let! js := each vs in
        Ok (default JNull j :: js)
    end.

Definition stringify_fields (rec : value → result (option json)) :=
  fix each (kvs : list (string * value)) : result (list (string * json)) :=
    match kvs with
    | [] => Ok []
    | (k, v) :: kvs =>
        let! j := rec v in
        let! js := each kvs in
        Ok (match j with Some j => (k, j) :: js | None => js end)
    end.

Definition parse_items :=
  fix each (js : list json) (h : heap) : heap * list value :=
    match js with
    | [] => (h, [])
    | j :: js =>
        let '(h, v) := parse j h in
        let '(h, vs) := each js h in
        (h, v :: vs)
    end.

Definition parse_fields :=
  fix each (kjs : list (string * json)) (h : heap) (o : obj) : heap * obj :=
    match kjs with
    | [] => (h, o)
    | (k, j) :: kjs =>
        let '(h, v) := parse j h in
        each kjs h (<[k := v]> o)
    end.

(** A forest of records: the first tree, made of a record and the forest
    below it, and the trees after it. *)
Inductive forest : Type :=
| FNil
| FCons (x : loc) (below : forest) (rest : forest).

Fixpoint preorder (f : forest) : list loc :=
  match f with
  | FNil => []
  | FCons x below rest => x :: preorder below ++ preorder rest
  end.

Fixpoint height (f : forest) : nat :=
  match f with
  | FNil => 0
  | FCons _ below rest => S (height below) `max` height rest
  end.

(** The fields the two operations add. *)
Definition round_fields : list string :=
  ["$level"; "$children"; "$is_leaf"; "$id"; "$parent_id"].

(** Neither an object nor an array. *)
Definition scalar (v : value) : Prop :=
  match v with VRef _ | VArr _ => False | _ => True end.

(** What [JSON.parse(JSON.stringify(v))] makes of the field [v], for a
    scalar [v]. *)
Definition json_value (v : value) : value :=
  match v with
  | VNum x =>
      if n_is_finite x then VNum (if n_eqb x n_zero then n_zero else x)
      else VNull
  | _ => v
  end.

(** The document of a scalar. *)
Definition scalar_doc (v : value) : option json :=
  match v with
  | VNull => Some JNull
  | VBool b => Some (JBool b)
  | VNum x =>
      Some (if n_is_finite x
            then JNum (if n_eqb x n_zero then n_zero else x)
            else JNull)
  | VStr s => Some (JStr s)
  | _ => None
  end.

(** The fields of a record that a JSON copy returns as they are: scalars
    other than NaN, the infinities and [-0]. *)
Definition json_stable (h : heap) (x : loc) : Prop :=
  ∀ k, k ∉ round_fields →
    scalar (get h x k) ∧ json_value (get h x k) = get h x k.

(** The objects [ls] of [h], all at or after [lo], hold the forest [f] of
    records of [h0]: each holds the data of its record and scalars, and
    under [$children] the objects of the forest below it. *)
Fixpoint repr (h0 : heap) (lo : nat) (h : heap) (f : forest) (ls : list loc)
    : Prop :=
  match f, ls with
  | FNil, [] => True
  | FCons x below rest, l :: ls' =>
      lo ≤ l < length h
      ∧ json_stable h0 x
      ∧ (∀ k, k ∉ round_fields → get h l k = get h0 x k)
      ∧ (∀ k, k ≠ "$children" → scalar (get h l k))
      ∧ (∃ cs, get h l "$children" = VArr (VRef <$> cs) ∧ repr h0 lo h below cs)
      ∧ repr h0 lo h rest ls'
  | _, _ => False
  end.

(** The forest below the start value [s], as [array2Tree] builds it. *)
Fixpoint forest_of (arrIn : list loc) (child : value → loc → bool)
    (idv : loc → value) (fuel : nat) (s : value) : forest :=
  match fuel with
  | 0 => FNil
  | S fuel' =>
      foldr (λ x rest, FCons x (forest_of arrIn child idv fuel' (idv x)) rest)
        FNil (kids arrIn child s)
  end.

(** The node [node] of [h] is the record [x] of [h0] up to the added
    fields. *)
Definition same_record (h0 h : heap) (node x : loc) : Prop :=
  node < length h ∧ ∀ k, k ∉ round_fields → get h node k = get h0 x k.

(** Every field of a record but [$children] is a scalar. *)
Definition scalars (arrIn : list loc) (h : heap) : Prop :=
  ∀ x k, x ∈ arrIn → k ≠ "$children" → scalar (get h x k).

End RoundTripDefs.

(** *** Example inputs

    Records with the field names of the documentation, in IEEE numbers. *)
Definition record (id parent : value float) : gmap string (value float) :=
  {[ "id" := id; "parent_id" := parent ]}.

Definition weighted (id parent : value float) (w : float)
    : gmap string (value float) :=
  <["weight" := VNum w]> (record id parent).

(** A company and its two departments. *)
Definition departments : list (gmap string (value float)) :=
  [weighted (VNum 1%float) VNull 100%float;
   weighted (VNum 2%float) (VNum 1%float) 60%float;
   weighted (VNum 3%float) (VNum 1%float) 40%float].

(** A record and a second one whose parent is not in the list. *)
Definition orphans : list (gmap string (value float)) :=
  [record (VNum 1%float) VNull; record (VNum 2%float) (VNum 99%float)].

(** Identifiers counted from zero. *)
Definition zero_ids : list (gmap string (value float)) :=
  [record (VNum 0%float) VNull; record (VNum 1%float) (VNum 0%float);
   record (VNum 2%float) (VNum 0%float); record (VNum 3%float) VNull].




(** A record whose parent field holds the empty string. *)
Definition blank : list (gmap string (value float)) :=
  [record (VNum 1%float) (VStr "")].

(** A tree as [tree2Array] takes it: a root and its two children. *)
Definition family : list (gmap string (value float)) :=
  [{[ "name" := VStr "Root"; "children" := VArr [VRef 1; VRef 2] ]};
   {[ "name" := VStr "Child 1" ]};
   {[ "name" := VStr "Child 2" ]}].


(** Two records that are each other's parent. *)
Definition cycle : list (gmap string (value float)) :=
  [record (VNum 1%float) (VNum 2%float); record (VNum 2%float) (VNum 1%float)].

(** A record and its child, each with a score that is not a number. *)
Definition scores : list (gmap string (value float)) :=
  [<["score" := VNum nan]> (record (VNum 1%float) VNull);
   <["score" := VNum nan]> (record (VNum 2%float) (VNum 1%float))].

(** What a call returned, and the heap it left. *)
Definition emitted {A B : Type} (r : result (B * A)) : option A :=
  match r with Ok (_, a) => Some a | _ => None end.

Definition heap_after {num A : Type} (r : result (list (gmap string (value num)) * A))
    : list (gmap string (value num)) :=
  match r with Ok (h, _) => h | _ => [] end.


Definition node_field {num M A : Type}
    (r : result (list (gmap string (value num)) * M * A)) (x : loc) (k : string)
    : option (value num) :=
  match r with Ok (h, _, _) => Some (get h x k) | _ => None end.

(** [array2Tree] and then [tree2Array] on [$children], with the default
    arguments and a counter reset to [0]. *)
Definition array2Tree_tree2Array {num : Type} `{Number num} (fuel : nat)
    (h : list (gmap string (value num))) (arrIn : list loc)
    (idKey parentKey : string)
    : result (list (gmap string (value num)) * num * list loc) :=
  let! (h1, tree) := array2Tree fuel h arrIn idKey parentKey VNull n_one in
  tree2Array fuel h1 (resetIdCounter n_zero) tree "$children" VNull n_one.

(** Case analysis on a membership in an explicit list. *)
Ltac cases H :=
  repeat (let E := fresh "E" in
          apply elem_of_cons in H as [E|H]; [try discriminate E; try subst|]);
  try (by apply elem_of_nil in H).

(** Evaluates the list of a membership hypothesis. *)
Ltac evaluate_in H :=
  match type of H with
  | _ ∈ ?l =>
      let l' := eval vm_compute in l in
      replace l with l' in H by (vm_compute; reflexivity)
  end.

(** Membership in a list that evaluates to an explicit one. *)
Ltac member :=
  match goal with
  | |- _ ∈ ?l =>
      let l' := eval vm_compute in l in
      replace l with l' by (vm_compute; reflexivity);
      by repeat constructor
  end.

(** ... and non-membership. *)
Ltac not_member :=
  let H := fresh "H" in intros H; try evaluate_in H; cases H.

(** A property of every field of an explicit object, by the lemma [all]
    that reduces it to the list of its fields. *)
Ltac each_field all :=
  apply all; [by vm_compute|];
  match goal with
  | |- Forall _ ?l =>
      let l' := eval vm_compute in l in
      replace l with l' by (vm_compute; reflexivity)
  end;
  repeat (apply Forall_cons; split; [by vm_compute|]); by apply Forall_nil.

(** *** What the traversals write

    [h'] is [h] annotated in place: the same objects, every field outside
    [K] as it was, the objects outside [touched] untouched, and
    [$is_leaf] either as it was or set to [1]. *)
Definition annotates {num : Type} `{Number num} (K : list string)
    (touched : list loc) (h h' : list (gmap string (value num))) : Prop :=
  same_data K h h'
  ∧ (∀ x, x ∉ touched → obj_at h' x = obj_at h x)
  ∧ (∀ x, get h' x "$is_leaf" = get h x "$is_leaf"
          ∨ get h' x "$is_leaf" = VNum n_one).

(** *** What tree2Array writes *)

(** The counter [this.myId] after [k] increments. *)
Definition counter_after {num : Type} `{Number num} (myId : num) (k : nat) : num :=
  Nat.iter k (λ c, n_add c n_one) myId.

(** The nodes [new], listed by a call entered with the counter at [myId]
    and the parent value [pv], are numbered in order from [myId + 1], hold
    nothing truthy under [key], and point with [$parent_id] to [pv] or to
    the [$id] of a node listed before them. *)
Definition numbered {num : Type} `{Number num} (key : string) (pv : value num)
    (myId : num) (h : list (gmap string (value num))) (new : list loc) : Prop :=
  ∀ i node, new !! i = Some node →
    get h node "$id" = VNum (counter_after myId (S i))
    ∧ truthy (get h node key) = false
    ∧ (get h node "$parent_id" = pv
       ∨ ∃ j p, j < i ∧ new !! j = Some p
                ∧ get h node "$parent_id" = get h p "$id").

(** *** What array2SortByTree writes *)

(** The records of [group], in order, carry the level [lvl], their position
    in the group counted from one, and that position appended to the tree
    index [pidx] of the parent. *)
Definition numbered_group {num : Type} `{Number num}
    (h : list (gmap string (value num))) (lvl : num) (pidx : option string)
    (group : list loc) : Prop :=
  ∀ i x, group !! i = Some x →
    get h x "$level" = VNum lvl
    ∧ get h x "$index" = VNum (n_of_nat (i + 1))
    ∧ get h x "$tree_index" = VStr (tree_index pidx (i + 1)).

(** The records of [group] are numbered one level below [p], under the tree
    index of [p]. *)
Definition numbered_children {num : Type} `{Number num}
    (h : list (gmap string (value num))) (p : loc) (group : list loc) : Prop :=
  ∃ lp tp,
    get h p "$level" = VNum lp ∧ get h p "$tree_index" = VStr tp
    ∧ numbered_group h (n_add lp n_one) (Some tp) group.

(** *** What array2Tree writes *)

(** The records of [group] are one level below [p]. *)
Definition leveled_children {num : Type} `{Number num}
    (h : list (gmap string (value num))) (p : loc) (group : list loc) : Prop :=
  ∃ lp, get h p "$level" = VNum lp
        ∧ ∀ x, x ∈ group → get h x "$level" = VNum (n_add lp n_one).

(** *** Further example inputs *)

(** A node whose children field holds a string. *)
Definition misfiled : list (gmap string (value float)) :=
  [{[ "name" := VStr "Root"; "children" := VStr "none" ]}].

(** A record with neither an identifier nor a parent. *)
Definition nameless : list (gmap string (value float)) :=
  [{[ "name" := VStr "Root" ]}].


(** The heap and the counter a call of [tree2Array] left. *)
Definition flat_heap {num A : Type}
    (r : result (list (gmap string (value num)) * num * A))
    : list (gmap string (value num)) :=
  match r with Ok (h, _, _) => h | _ => [] end.

Definition flat_counter {num : Type} `{Number num} {A : Type}
    (r : result (list (gmap string (value num)) * num * A)) : num :=
  match r with Ok (_, c, _) => c | _ => n_zero end.

(** * Proofs *)

(** ** The heap *)

Section HeapFacts.
Context {num : Type} {N : Number num}.

Abbreviation value := (value num).
Abbreviation obj := (gmap string value).
Abbreviation heap := (list (gmap string value)).

Lemma length_set (h : heap) l k v : length (set h l k v) = length h.
Proof. unfold set. by rewrite length_insert. Qed.

Lemma length_del (h : heap) l k : length (del h l k) = length h.
Proof. unfold del. by rewrite length_insert. Qed.

Lemma obj_at_set (h : heap) l k v l' :
  obj_at (set h l k v) l' =
  if decide (l = l' ∧ l < length h) then <[k := v]> (obj_at h l) else obj_at h l'.
Proof.
  unfold set, obj_at at 1.
  destruct (decide (l = l')) as [->|Hne].
  - destruct (decide (l' < length h)).
    + rewrite list_lookup_insert_eq by done. simpl. by rewrite decide_True.
    + rewrite list_insert_ge by lia. by rewrite decide_False by tauto.
  - rewrite list_lookup_insert_ne by done. by rewrite decide_False by tauto.
Qed.

Lemma get_set (h : heap) l k v l' k' :
  l < length h →
  get (set h l k v) l' k' = if decide (l = l' ∧ k = k') then v else get h l' k'.
Proof.
  intros Hl. unfold get. rewrite obj_at_set.
  destruct (decide (l = l')) as [->|Hne].
  - rewrite decide_True by done. destruct (decide (k = k')) as [->|Hk].
    + rewrite decide_True by done. by rewrite lookup_insert_eq.
    + rewrite decide_False by tauto. by rewrite lookup_insert_ne.
  - by rewrite !decide_False by tauto.
Qed.

Lemma get_set_other (h : heap) l k v l' k' :
  k ≠ k' ∨ l ≠ l' → get (set h l k v) l' k' = get h l' k'.
Proof.
  intros Hk. unfold get. rewrite obj_at_set. case_decide as H; [|done].
  destruct H as [-> _]. destruct Hk as [Hk|Hk]; [|done]. by rewrite lookup_insert_ne.
Qed.

Lemma get_mark_leaf_other (h : heap) found l k :
  k ≠ "$is_leaf" → get (mark_leaf h found) l k = get h l k.
Proof. intros Hk. destruct found; simpl; [|done]. rewrite get_set_other; auto. Qed.

Lemma length_mark_leaf (h : heap) found : length (mark_leaf h found) = length h.
Proof. destruct found; simpl; [apply length_set|done]. Qed.

Lemma length_annotate (h : heap) el lvl idx pidx :
  length (annotate h el lvl idx pidx) = length h.
Proof. unfold annotate. by rewrite !length_set. Qed.

Lemma same_data_refl K (h : heap) : same_data K h h.
Proof. by split. Qed.

Lemma same_data_trans K (h1 h2 h3 : heap) :
  same_data K h1 h2 → same_data K h2 h3 → same_data K h1 h3.
Proof.
  intros [L1 G1] [L2 G2]. split; [congruence|].
  intros l k Hk. rewrite G2, G1; auto.
Qed.

Lemma same_data_set K (h : heap) l k v : k ∈ K → same_data K h (set h l k v).
Proof.
  intros Hk. split; [apply length_set|]. intros l' k' Hk'.
  apply get_set_other. left. intros ->. done.
Qed.

Lemma same_data_mark_leaf K (h : heap) found :
  "$is_leaf" ∈ K → same_data K h (mark_leaf h found).
Proof. intros Hk. destruct found; simpl; [by apply same_data_set|apply same_data_refl]. Qed.

(** The filters only look at the parent field. *)
Lemma match_tree_ext (h h' : heap) parentKey s x :
  get h' x parentKey = get h x parentKey →
  match_tree h' parentKey s x = match_tree h parentKey s x.
Proof. unfold match_tree. by intros ->. Qed.

Lemma match_weight_ext (h h' : heap) parentKey s x :
  get h' x parentKey = get h x parentKey →
  match_weight h' parentKey s x = match_weight h parentKey s x.
Proof. unfold match_weight. by intros ->. Qed.

Lemma filter_ext_bool {A} (f g : A → bool) (l : list A) :
  (∀ x, x ∈ l → f x = g x) → filter (λ x, f x) l = filter (λ x, g x) l.
Proof.
  induction l as [|a l IH]; intros H; [done|].
  rewrite !filter_cons, (H a) by left. rewrite IH; [done|].
  intros x Hx. apply H. by right.
Qed.

Lemma find_ext_bool {A} (f g : A → bool) (l : list A) :
  (∀ x, x ∈ l → f x = g x) → List.find f l = List.find g l.
Proof.
  induction l as [|a l IH]; intros H; simpl; [done|].
  rewrite (H a) by left. destruct (g a); [done|]. apply IH. intros x Hx. apply H. by right.
Qed.

End HeapFacts.

(** ** Unfolding the recursive functions *)

Section Unfold.
Context {num : Type} {N : Number num}.

Abbreviation value := (value num).
Abbreviation heap := (list (gmap string value)).

Lemma array2Tree_unfold fuel (h : heap) arrIn idKey parentKey s lvl :
  array2Tree (S fuel) h arrIn idKey parentKey s lvl =
  match filter (λ x, match_tree h parentKey s x) arrIn with
  | [] => Ok (mark_leaf h (List.find (λ x, strict_eq (get h x idKey) s) arrIn), VUndef)
  | el :: els =>
      let! h' :=
        tree_loop (λ h s, array2Tree fuel h arrIn idKey parentKey s (n_add lvl n_one))
          idKey lvl (el :: els) h in
      Ok (h', VArr (VRef <$> el :: els))
  end.
Proof. simpl. by destruct (filter _ _). Qed.

Lemma array2SortByTree_unfold fuel (h : heap) arrIn idKey parentKey s lvl acc pidx :
  array2SortByTree (S fuel) h arrIn idKey parentKey s lvl acc pidx =
  if (length acc <=? length arrIn)
     && negb (String.eqb idKey "") && negb (String.eqb parentKey "")
  then match filter (λ x, match_tree h parentKey s x) arrIn with
       | [] => Ok (mark_leaf h (List.find (λ o, strict_eq (get h o idKey) s) acc), acc)
       | el :: els =>
           sort_loop
             (λ h s acc pidx,
                array2SortByTree fuel h arrIn idKey parentKey s (n_add lvl n_one) acc pidx)
             idKey lvl pidx (el :: els) 0 h acc
       end
  else Ok (h, acc).
Proof. simpl. destruct (_ && _); [|done]. by destruct (filter _ _). Qed.

Lemma array2SortAndWeight_unfold fuel (h : heap) arrIn idKey parentKey weightKey
    s lvl rw acc pidx :
  array2SortAndWeight (S fuel) h arrIn idKey parentKey weightKey s lvl rw acc pidx =
  if length acc <=? length arrIn
  then match filter (λ x, match_weight h parentKey s x) arrIn with
       | [] => Ok (mark_leaf h (List.find (λ o, strict_eq (get h o idKey) s) acc), acc)
       | el :: els =>
           let! sumWeight := sum_weights h weightKey (el :: els) in
           weight_loop
             (λ h s rw acc pidx,
                array2SortAndWeight fuel h arrIn idKey parentKey weightKey s
                  (n_add lvl n_one) rw acc pidx)
             idKey weightKey sumWeight rw lvl pidx (el :: els) 0 h acc
       end
  else Ok (h, acc).
Proof. simpl. destruct (_ <=? _); [|done]. by destruct (filter _ _). Qed.

Lemma tree2Array_unfold fuel (h : heap) myId treeIn key pv lvl :
  tree2Array (S fuel) h myId treeIn key pv lvl =
  match treeIn with
  | VArr els =>
      flatten_loop
        (λ h myId subs pv, tree2Array fuel h myId subs key pv (n_add lvl n_one))
        key pv els h myId []
  | _ => TypeError
  end.
Proof. reflexivity. Qed.

End Unfold.

(** ** The accumulator guard bounds the recursion *)

Section Termination.
Context {num : Type} {N : Number num}.

Abbreviation value := (value num).
Abbreviation heap := (list (gmap string value)).








End Termination.

(** ** The two parent-matching rules *)

Section Matching.
Context {num : Type} {N : Number num}.

Abbreviation value := (value num).
Abbreviation heap := (list (gmap string value)).

(** C3: a record whose parent field holds the empty string is a top-level
    record for [array2Tree] and [array2SortByTree] when [startWith] is [null]
    or [undefined], and is not one for [array2SortAndWeight]: its filter
    lacks the fourth clause of the other two. *)
Theorem empty_parent_matching_differs (h : heap) parentKey startWith x :
  get h x parentKey = VStr "" →
  loose_eq_undefined startWith = true →
  match_tree h parentKey startWith x = true
  ∧ match_weight h parentKey startWith x = false.
Proof.
  intros Hp Hs. unfold match_tree, match_weight. rewrite Hp, Hs.
  split; [by rewrite !orb_true_r|].
  by destruct startWith.
Qed.

End Matching.

(** ** tree2Array leaves its input alone *)

Section Flatten.
Context {num : Type} {N : Number num}.

Abbreviation value := (value num).
Abbreviation json := (json num).
Abbreviation obj := (gmap string value).
Abbreviation heap := (list (gmap string value)).

Lemma prefix_set (h0 h : heap) l k v :
  length h0 ≤ l → h0 `prefix_of` h → h0 `prefix_of` set h l k v.
Proof.
  intros Hl [ext ->]. unfold set.
  rewrite insert_app_r_alt by done. by eexists.
Qed.

Lemma prefix_del (h0 h : heap) l k :
  length h0 ≤ l → h0 `prefix_of` h → h0 `prefix_of` del h l k.
Proof.
  intros Hl [ext ->]. unfold del.
  rewrite insert_app_r_alt by done. by eexists.
Qed.

Lemma parse_extends : ∀ (doc : json) (h : heap), h `prefix_of` (parse doc h).1.
Proof.
  fix IH 1. intros [| | | |items|fields] h; simpl; try done.
  - set (each := fix each (js : list json) (h : heap) : heap * list value :=
           match js with
           | [] => (h, [])
           | j :: js =>
               let '(h, v) := parse j h in
               let '(h, vs) := each js h in (h, v :: vs)
           end).
    assert (H : ∀ h, h `prefix_of` (each items h).1).
    { induction items as [|j js IHjs]; intros h1; simpl; [done|].
      pose proof (IH j h1) as Hj. destruct (parse j h1) as [h2 v].
      pose proof (IHjs h2) as Hjs. destruct (each js h2) as [h3 vs]. simpl in *.
      by etrans. }
    specialize (H h). by destruct (each items h).
  - set (each := fix each (kjs : list (string * json)) (h : heap) (o : obj)
             : heap * obj :=
           match kjs with
           | [] => (h, o)
           | (k, j) :: kjs => let '(h, v) := parse j h in each kjs h (<[k := v]> o)
           end).
    assert (H : ∀ h o, h `prefix_of` (each fields h o).1).
    { induction fields as [|[k j] kjs IHk]; intros h1 o; simpl; [done|].
      pose proof (IH j h1) as Hj. destruct (parse j h1) as [h2 v].
      simpl in Hj. etrans; [exact Hj|]. apply IHk. }
    specialize (H h ∅). destruct (each fields h ∅) as [h1 o]. simpl in *.
    etrans; [exact H|]. by apply prefix_app_r.
Qed.

Lemma json_copy_extends (h : heap) v h' v' :
  json_copy h v = Ok (h', v') → h `prefix_of` h'.
Proof.
  unfold json_copy. destruct (stringify _ h v) as [[doc|]| | |]; simpl; try done.
  intros [= Hp]. pose proof (parse_extends doc h) as H. by rewrite Hp in H.
Qed.

Lemma flatten_loop_extends
    (rec : heap → num → value → value → result (heap * num * list loc)) key pv h0 :
  (∀ h myId subs p h' myId' out,
     h0 `prefix_of` h → rec h myId subs p = Ok (h', myId', out) →
     h `prefix_of` h' ∧ Forall (λ node, length h ≤ node < length h') out) →
  ∀ els (h : heap) myId roots h' myId' out,
    h0 `prefix_of` h →
    Forall (λ node, length h0 ≤ node < length h) roots →
    flatten_loop rec key pv els h myId roots = Ok (h', myId', out) →
    h `prefix_of` h' ∧ Forall (λ node, length h0 ≤ node < length h') out.
Proof.
  intros Hrec els. induction els as [|el els IH];
    intros h myId roots h' myId' out Hpre Hroots; simpl.
  - intros [= <- <- <-]. done.
  - destruct el as [| | | | |el|]; try done.
    set (h1 := set (set (h ++ [obj_at h el]) (length h) "$id" (VNum (n_add myId n_one)))
                 (length h) "$parent_id" pv).
    assert (Hh1 : h `prefix_of` h1).
    { unfold h1. do 2 (apply prefix_set; [done|]). by apply prefix_app_r. }
    assert (Hlen1 : length h1 = S (length h)).
    { unfold h1. rewrite !length_set, length_app. simpl. lia. }
    assert (Hroots1 : Forall (λ node, length h0 ≤ node < length h1) (roots ++ [length h])).
    { apply Forall_app. split.
      - eapply Forall_impl; [exact Hroots|]. simpl. intros; lia.
      - apply Forall_singleton. apply prefix_length in Hpre. lia. }
    destruct (truthy (get h1 el key)).
    + destruct (json_copy h1 (get h1 el key)) as [[h2 subs]| | |] eqn:Hcopy;
        simpl; try done.
      apply json_copy_extends in Hcopy.
      assert (Hh3 : h `prefix_of` del h2 (length h) key).
      { apply prefix_del; [done|]. by etrans. }
      assert (Hlen3 : length h1 ≤ length (del h2 (length h) key)).
      { rewrite length_del. by apply prefix_length. }
      destruct (rec (del h2 (length h) key) (n_add myId n_one) subs
                  (VNum (n_add myId n_one))) as [[[h4 myId4] sub]| | |] eqn:Hr;
        simpl; try done.
      apply Hrec in Hr as [Hh4 Hsub]; [|by etrans].
      intros Hloop. apply IH in Hloop as [Hh' Hout].
      * split; [|done]. by do 2 (etrans; [|eassumption]).
      * by do 2 (etrans; [|eassumption]).
      * apply prefix_length in Hh4, Hpre. apply Forall_app. split.
        -- eapply Forall_impl; [exact Hroots1|]. simpl. intros; lia.
        -- eapply Forall_impl; [exact Hsub|]. simpl. intros; lia.
    + intros Hloop. apply IH in Hloop as [Hh' Hout]; [|by etrans|done].
      split; [by etrans|done].
Qed.

(** C8: when [tree2Array] returns, the heap it was given is still there,
    object for object and field for field: the new heap only adds objects,
    and the nodes returned are among the added ones. *)
Theorem tree2Array_preserves_input fuel :
  ∀ (h : heap) myId treeIn key pv lvl h' myId' out,
    tree2Array fuel h myId treeIn key pv lvl = Ok (h', myId', out) →
    h `prefix_of` h' ∧ Forall (λ node, length h ≤ node < length h') out.
Proof.
  induction fuel as [|fuel IH]; intros h myId treeIn key pv lvl h' myId' out; [done|].
  rewrite tree2Array_unfold. destruct treeIn as [| | | | | |els]; try done.
  intros Hloop.
  eapply flatten_loop_extends in Hloop; [exact Hloop| |done|done].
  intros h1 myId1 subs p h1' myId1' out1 _ Hr. by eapply IH.
Qed.

End Flatten.

(** ** Hierarchies without cycles *)

Section ForestTheory.
Context {num : Type} {N : Number num}.
Variables (arrIn : list loc) (child : value num → loc → bool).
Variables (idv : loc → value num) (s0 : value num).

Abbreviation kids := (kids arrIn child).
Abbreviation walk := (walk arrIn child idv).
Abbreviation walk_each := (walk_each idv).
Abbreviation reach := (reach arrIn child idv s0).
Abbreviation desc := (desc arrIn child idv).

Lemma elem_of_kids s x : x ∈ kids s ↔ child s x = true ∧ x ∈ arrIn.
Proof. etrans; [apply list_elem_of_filter|]. by rewrite Is_true_true. Qed.

Lemma kids_in s x : x ∈ kids s → x ∈ arrIn.
Proof. rewrite elem_of_kids. tauto. Qed.

Lemma NoDup_kids s : NoDup arrIn → NoDup (kids s).
Proof. apply NoDup_filter. Qed.

Lemma kids_ext s s' : (∀ x, x ∈ arrIn → child s x = child s' x) → kids s = kids s'.
Proof. intros H. by apply filter_ext_bool. Qed.

Lemma walk_each_cons rec el rest ws :
  walk_each rec (el :: rest) = Some ws ↔
  ∃ w wr, rec (idv el) = Some w ∧ walk_each rec rest = Some wr ∧ ws = el :: w ++ wr.
Proof.
  simpl. destruct (rec (idv el)) as [w|]; simpl.
  - destruct (walk_each rec rest) as [wr|]; simpl.
    + split; [intros [= <-]; eauto|]. intros (? & ? & [= <-] & [= <-] & ->). done.
    + split; [done|]. intros (? & ? & _ & ? & _). done.
  - split; [done|]. intros (? & ? & ? & _). done.
Qed.

Lemma walk_each_is_Some rec els :
  (∀ el, el ∈ els → is_Some (rec (idv el))) → is_Some (walk_each rec els).
Proof.
  induction els as [|el els IH]; intros H; simpl; [done|].
  destruct (H el) as [w ->]; [by left|]. simpl.
  destruct IH as [ws ->]; [|done]. intros x Hx. apply H. by right.
Qed.

Lemma desc_in p x : desc p x → x ∈ arrIn.
Proof. destruct 1; by eapply kids_in. Qed.

Lemma desc_trans p q x : desc p q → desc q x → desc p x.
Proof.
  intros Hpq Hqx. induction Hqx as [q x Hx|q r x _ IH Hx].
  - by eapply desc_step.
  - eapply desc_step; [|done]. by apply IH.
Qed.

Lemma reach_in x : reach x → x ∈ arrIn.
Proof. destruct 1; by eapply kids_in. Qed.

Lemma reach_desc p x : reach p → desc p x → reach x.
Proof.
  intros Hp Hd. induction Hd as [p x Hx|p q x _ IH Hx].
  - by eapply reach_child.
  - eapply reach_child; [|done]. by apply IH.
Qed.

Lemma reach_root x : reach x → ∃ r, r ∈ kids s0 ∧ (r = x ∨ desc r x).
Proof.
  induction 1 as [x Hx|p x _ (r & Hr & Hrp) Hx].
  - eauto.
  - exists r. split; [done|]. right. destruct Hrp as [->|Hrp].
    + by apply desc_child.
    + by eapply desc_step.
Qed.

(** What a listing contains. *)
Lemma walk_elem n : ∀ s w x,
  walk n s = Some w → x ∈ w → x ∈ kids s ∨ ∃ el, el ∈ kids s ∧ desc el x.
Proof.
  induction n as [|n IH]; intros s w x; [done|]. simpl.
  assert (H : ∀ els ws, walk_each (walk n) els = Some ws → x ∈ ws →
            x ∈ els ∨ ∃ el, el ∈ els ∧ desc el x).
  { induction els as [|el els IHels]; intros ws.
    - intros [= <-] Hx. by apply elem_of_nil in Hx.
    - rewrite walk_each_cons. intros (w1 & wr & Hw1 & Hwr & ->) Hx.
      apply elem_of_cons in Hx as [->|Hx]; [left; by left|].
      apply elem_of_app in Hx as [Hx|Hx].
      + right. exists el. split; [by left|].
        destruct (IH _ _ _ Hw1 Hx) as [Hk|(el' & Hel' & Hd)].
        * by apply desc_child.
        * eapply desc_trans; [|done]. by apply desc_child.
      + destruct (IHels _ Hwr Hx) as [Hk|(el' & Hel' & Hd)].
        * left. by right.
        * right. exists el'. split; [by right|done]. }
  apply H.
Qed.

Lemma walk_desc n p w x : walk n (idv p) = Some w → x ∈ w → desc p x.
Proof.
  intros Hw Hx. destruct (walk_elem _ _ _ _ Hw Hx) as [Hk|(el & Hel & Hd)].
  - by apply desc_child.
  - eapply desc_trans; [|done]. by apply desc_child.
Qed.

Lemma walk_subseteq n s w x : walk n s = Some w → x ∈ w → x ∈ arrIn.
Proof.
  intros Hw Hx. destruct (walk_elem _ _ _ _ Hw Hx) as [Hk|(el & Hel & Hd)].
  - by eapply kids_in.
  - by eapply desc_in.
Qed.

Lemma walk_reach n w x : walk n s0 = Some w → x ∈ w → reach x.
Proof.
  intros Hw Hx. destruct (walk_elem _ _ _ _ Hw Hx) as [Hk|(el & Hel & Hd)].
  - by apply reach_top.
  - eapply reach_desc; [|done]. by apply reach_top.
Qed.

(** The listing is closed under [kids]. *)
Lemma walk_closed n : ∀ s w p x,
  walk n s = Some w → p ∈ w → x ∈ kids (idv p) → x ∈ w.
Proof.
  induction n as [|n IH]; intros s w p x; [done|]. simpl.
  assert (Hk : ∀ m t v y, walk m t = Some v → y ∈ kids t → y ∈ v).
  { intros [|m] t v y; [done|]. simpl. generalize (kids t).
    intros els. revert v. induction els as [|el els IHels]; intros v.
    - intros _ Hy. by apply elem_of_nil in Hy.
    - rewrite walk_each_cons. intros (w1 & wr & _ & Hwr & ->) Hy.
      apply elem_of_cons in Hy as [->|Hy]; [by left|].
      right. apply elem_of_app. right. by eapply IHels. }
  generalize (kids s). intros els. revert w.
  induction els as [|el els IHels]; intros w.
  - intros [= <-] Hp. by apply elem_of_nil in Hp.
  - rewrite walk_each_cons. intros (w1 & wr & Hw1 & Hwr & ->) Hp Hx.
    apply elem_of_cons in Hp as [->|Hp].
    + right. apply elem_of_app. left. by eapply Hk.
    + right. apply elem_of_app. apply elem_of_app in Hp as [Hp|Hp].
      * left. by eapply IH.
      * right. by eapply IHels.
Qed.

Lemma walk_kids n s w x : walk n s = Some w → x ∈ kids s → x ∈ w.
Proof.
  destruct n as [|n]; [done|]. simpl. generalize (kids s).
  intros els. revert w. induction els as [|el els IHels]; intros w.
  - intros _ Hy. by apply elem_of_nil in Hy.
  - rewrite walk_each_cons. intros (w1 & wr & _ & Hwr & ->) Hy.
    apply elem_of_cons in Hy as [->|Hy]; [by left|].
    right. apply elem_of_app. right. by eapply IHels.
Qed.

Section Ranked.
Variable rank : loc → nat.
Hypothesis Hrank : ∀ p x, p ∈ arrIn → x ∈ kids (idv p) → rank p < rank x.

Lemma desc_rank p x : p ∈ arrIn → desc p x → rank p < rank x.
Proof.
  intros Hp Hd. induction Hd as [p x Hx|p q x Hq IH Hx].
  - by apply Hrank.
  - specialize (IH Hp). apply desc_in in Hq.
    specialize (Hrank q x Hq Hx). lia.
Qed.

Lemma desc_irrefl p : p ∈ arrIn → ¬ desc p p.
Proof. intros Hp Hd. apply desc_rank in Hd; [lia|done]. Qed.

(** Fuel: nesting is bounded by the number of records. *)
Lemma filter_length_lt (P Q : loc → Prop) `{∀ x, Decision (P x)} `{∀ x, Decision (Q x)}
    (l : list loc) x :
  (∀ y, P y → Q y) → x ∈ l → Q x → ¬ P x →
  length (filter P l) < length (filter Q l).
Proof.
  intros HPQ Hx HQ HP.
  assert (Hle : ∀ l', length (filter P l') ≤ length (filter Q l')).
  { induction l' as [|a l' IH]; [done|]. rewrite !filter_cons.
    destruct (decide (P a)), (decide (Q a)); simpl; try lia. naive_solver. }
  induction l as [|a l IH]; [by apply elem_of_nil in Hx|].
  rewrite !filter_cons. apply elem_of_cons in Hx as [<-|Hx].
  - rewrite decide_False, decide_True by done. simpl. specialize (Hle l). lia.
  - specialize (IH Hx). destruct (decide (P a)), (decide (Q a)); simpl; try lia.
    naive_solver.
Qed.


Lemma above_child p x : p ∈ arrIn → x ∈ kids (idv p) → length (above arrIn rank x) < length (above arrIn rank p).
Proof.
  intros Hp Hx. pose proof (Hrank p x Hp Hx). unfold above.
  apply filter_length_lt with (x := x); [intros; lia|by eapply kids_in|lia|lia].
Qed.

Lemma above_lt p : p ∈ arrIn → length (above arrIn rank p) < length arrIn.
Proof.
  intros Hp. unfold above. generalize dependent arrIn. clear.
  intros l _. induction l as [|a l IH]; intros Hp; [by apply elem_of_nil in Hp|].
  rewrite filter_cons. apply elem_of_cons in Hp as [<-|Hp].
  - rewrite decide_False by lia. simpl. pose proof (length_filter (λ x, rank p < rank x) l). lia.
  - specialize (IH Hp). destruct (decide _); simpl; lia.
Qed.

Lemma walk_fuel_below n : ∀ p, p ∈ arrIn → length (above arrIn rank p) < n → is_Some (walk n (idv p)).
Proof.
  induction n as [|n IH]; intros p Hp Hn; [lia|]. simpl.
  apply walk_each_is_Some. intros el Hel. apply IH; [by eapply kids_in|].
  pose proof (above_child p el Hp Hel). lia.
Qed.

Lemma walk_fuel n : length arrIn < n → is_Some (walk n s0).
Proof.
  destruct n as [|n]; [lia|]. intros Hn. simpl.
  apply walk_each_is_Some. intros el Hel. apply kids_in in Hel.
  apply walk_fuel_below; [done|]. pose proof (above_lt el Hel). lia.
Qed.

(** Disjointness: a record has one way down from the root. *)
Hypothesis Hnodup : NoDup arrIn.
Hypothesis Hpar : ∀ p q x,
  reach p → reach q → x ∈ kids (idv p) → x ∈ kids (idv q) → p = q.
Hypothesis Hroot : ∀ p x, reach p → x ∈ kids s0 → x ∉ kids (idv p).

Lemma desc_linear a x : desc a x → ∀ b, reach a → reach b → desc b x →
  a = b ∨ desc a b ∨ desc b a.
Proof.
  induction 1 as [a x Hx|a q x Hq IH Hx]; intros b Ha Hb Hbx.
  - inversion Hbx as [? ? Hx'|? q' ? Hq' Hx']; subst.
    + left. by eapply Hpar.
    + assert (a = q') as ->; [|by right; right].
      eapply Hpar; [done|exact (reach_desc b q' Hb Hq')|done..].
  - assert (Hrq : reach q) by exact (reach_desc a q Ha Hq).
    inversion Hbx as [? ? Hx'|? q' ? Hq' Hx']; subst.
    + assert (q = b) as -> by (by eapply Hpar). right. by left.
    + assert (q = q') as <-.
      { eapply Hpar; [done|exact (reach_desc b q' Hb Hq')|done..]. }
      by apply IH.
Qed.


Lemma start_ok_reach s x : start_ok arrIn child idv s0 s → x ∈ kids s → reach x.
Proof.
  intros [->|(p & Hp & ->)] Hx; [by apply reach_top|by eapply reach_child].
Qed.

Lemma siblings_unrelated s a b : start_ok arrIn child idv s0 s → a ∈ kids s → b ∈ kids s → ¬ desc a b.
Proof.
  intros Hs Ha Hb Hd.
  assert (Hra : reach a) by (by eapply start_ok_reach).
  assert (∃ q, (q = a ∨ desc a q) ∧ b ∈ kids (idv q)) as (q & Hq & Hbq).
  { inversion Hd; subst; eauto. }
  assert (Hrq : reach q).
  { destruct Hq as [->|Hq]; [done|exact (reach_desc a q Hra Hq)]. }
  destruct Hs as [->|(p & Hp & ->)].
  - exact (Hroot q b Hrq Hb Hbq).
  - assert (p = q) as <- by exact (Hpar p q b Hp Hrq Hb Hbq).
    assert (desc p a) as Hpa by (by apply desc_child).
    pose proof (reach_in _ Hp). pose proof (reach_in _ Hra).
    destruct Hq as [->|Hq].
    + by eapply desc_irrefl.
    + eapply (desc_irrefl p); [done|]. by eapply desc_trans.
Qed.

Lemma walk_NoDup_at n : ∀ s w, start_ok arrIn child idv s0 s → walk n s = Some w → NoDup w.
Proof.
  induction n as [|n IH]; intros s w Hs; [done|]. simpl.
  assert (H : ∀ els ws, NoDup els → els ⊆ kids s →
            walk_each (walk n) els = Some ws → NoDup ws).
  { induction els as [|el els IHels]; intros ws Hnd Hsub.
    - intros [= <-]. constructor.
    - rewrite walk_each_cons. intros (w1 & wr & Hw1 & Hwr & ->).
      apply NoDup_cons in Hnd as [Hel Hnd].
      assert (Helk : el ∈ kids s) by (apply Hsub; by left).
      assert (Hsub' : els ⊆ kids s) by (intros y Hy; apply Hsub; by right).
      assert (Hrel : reach el) by (by eapply start_ok_reach).
      assert (Hinr : ∀ x, x ∈ wr → x ∈ els ∨ ∃ el', el' ∈ els ∧ desc el' x).
      { clear -Hwr. revert wr Hwr. induction els as [|e els IHe]; intros wr.
        - intros [= <-] x Hx. by apply elem_of_nil in Hx.
        - rewrite walk_each_cons. intros (w1 & wr' & Hw1 & Hwr' & ->) x Hx.
          apply elem_of_cons in Hx as [->|Hx]; [left; by left|].
          apply elem_of_app in Hx as [Hx|Hx].
          + right. exists e. split; [by left|]. by eapply walk_desc.
          + destruct (IHe _ Hwr' _ Hx) as [?|(el' & ? & ?)].
            * left. by right.
            * right. exists el'. split; [by right|done]. }
      apply NoDup_cons. split; [|apply NoDup_app; split_and!].
      + intros Hin. apply elem_of_app in Hin as [Hin|Hin].
        * eapply (desc_irrefl el); [by apply reach_in|]. by eapply walk_desc.
        * destruct (Hinr _ Hin) as [?|(el' & Hel' & Hd)]; [done|].
          eapply (siblings_unrelated s el' el); eauto.
      + eapply IH; [|done]. right. eauto.
      + intros x Hx1 Hx2. apply (walk_desc _ _ _ _ Hw1) in Hx1.
        destruct (Hinr _ Hx2) as [Hx|(el' & Hel' & Hd)].
        * eapply (siblings_unrelated s el x); eauto.
        * assert (el' ∈ kids s) by eauto.
          assert (reach el') by (by eapply start_ok_reach).
          destruct (desc_linear _ _ Hx1 el' Hrel ltac:(done) Hd) as [->|[?|?]].
          -- done.
          -- eapply (siblings_unrelated s el el'); eauto.
          -- eapply (siblings_unrelated s el' el); eauto.
      + by eapply IHels. }
  apply H; [by apply NoDup_kids|done].
Qed.

Lemma walk_NoDup n w : walk n s0 = Some w → NoDup w.
Proof. apply walk_NoDup_at. by left. Qed.

(** Coverage: without orphans the listing is the whole input. *)
Lemma walk_covers n w :
  no_orphan arrIn child idv s0 → walk n s0 = Some w → ∀ x, x ∈ arrIn → x ∈ w.
Proof.
  intros Horph Hw x. remember (rank x) as r eqn:Hr. revert x Hr.
  induction r as [r IH] using lt_wf_ind. intros x -> Hx.
  destruct (Horph x Hx) as [Hk|(p & Hp & Hk)].
  - by eapply walk_kids.
  - eapply walk_closed; [done| |done]. eapply IH; [|done..]. by apply Hrank.
Qed.

Lemma walk_Permutation n w :
  no_orphan arrIn child idv s0 → walk n s0 = Some w → w ≡ₚ arrIn.
Proof.
  intros Horph Hw. apply NoDup_Permutation; [by eapply walk_NoDup|done|].
  intros x. split; [by eapply walk_subseteq|by eapply walk_covers].
Qed.

End Ranked.

End ForestTheory.

(** ** Identifiers as keys *)

Section StrictEq.
Context {num : Type} {N : Number num} {L : NumberLaws num}.

Abbreviation value := (value num).
Abbreviation heap := (list (gmap string value)).

Lemma strict_eq_sym (a b : value) : strict_eq a b = strict_eq b a.
Proof.
  destruct a, b; simpl; try done.
  - by destruct b, b0.
  - apply n_eqb_sym.
  - apply String.eqb_sym.
  - apply Nat.eqb_sym.
Qed.

Lemma strict_eq_trans (a b c : value) :
  strict_eq a b = true → strict_eq b c = true → strict_eq a c = true.
Proof.
  destruct a, b; simpl; try done; destruct c; simpl; try done.
  - destruct b, b0, b1; done.
  - apply n_eqb_trans.
  - rewrite !String.eqb_eq. congruence.
  - rewrite !Nat.eqb_eq. congruence.
Qed.

Lemma strict_eq_cong (a b c : value) :
  strict_eq a b = true → strict_eq c a = strict_eq c b.
Proof.
  intros Hab. destruct (strict_eq c b) eqn:Hcb.
  - eapply strict_eq_trans; [done|]. by rewrite strict_eq_sym.
  - destruct (strict_eq c a) eqn:Hca; [|done].
    rewrite <- Hcb. symmetry. by eapply strict_eq_trans.
Qed.

Lemma strict_eq_nullish (a b : value) :
  strict_eq a b = true → loose_eq_undefined a = loose_eq_undefined b.
Proof. by destruct a, b. Qed.

Lemma loose_eq_null_undefined (a : value) : loose_eq_null a = loose_eq_undefined a.
Proof. done. Qed.

Lemma nullish_strict_eq (a b : value) :
  loose_eq_undefined b = true → strict_eq a b = true → loose_eq_undefined a = true.
Proof. by destruct a, b. Qed.

(** Start values that are [===] select the same sibling group. *)
Lemma match_tree_cong (h : heap) parentKey a b x :
  strict_eq a b = true → match_tree h parentKey a x = match_tree h parentKey b x.
Proof.
  intros Hab. unfold match_tree.
  by rewrite (strict_eq_cong a b), !loose_eq_null_undefined, (strict_eq_nullish a b).
Qed.


(** [null] and [undefined] select the same group: the top-level records. *)
Lemma match_tree_nullish (h : heap) parentKey s x :
  loose_eq_undefined s = true →
  match_tree h parentKey s x = match_tree h parentKey VNull x.
Proof.
  intros Hs. unfold match_tree. rewrite !loose_eq_null_undefined, Hs. simpl.
  destruct (loose_eq_undefined (get h x parentKey)) eqn:Hp.
  - by rewrite !orb_true_r.
  - rewrite !orb_false_r.
    assert (strict_eq (get h x parentKey) s = false) as ->.
    { destruct (strict_eq _ s) eqn:He; [|done].
      apply nullish_strict_eq in He; congruence. }
    by destruct (get h x parentKey).
Qed.

Lemma match_weight_nullish (h : heap) parentKey s x :
  loose_eq_undefined s = true →
  match_weight h parentKey s x = loose_eq_undefined (get h x parentKey).
Proof.
  intros Hs. unfold match_weight. rewrite !loose_eq_null_undefined, Hs. simpl.
  destruct (loose_eq_undefined (get h x parentKey)) eqn:Hp.
  - by rewrite !orb_true_r.
  - rewrite !orb_false_r.
    destruct (strict_eq _ s) eqn:He; [|done].
    apply nullish_strict_eq in He; congruence.
Qed.

Lemma match_tree_strict (h : heap) parentKey s x :
  loose_eq_undefined s = false →
  match_tree h parentKey s x = strict_eq (get h x parentKey) s.
Proof.
  intros Hs. unfold match_tree. rewrite !loose_eq_null_undefined, Hs. simpl.
  by rewrite !orb_false_r.
Qed.

Lemma match_weight_strict (h : heap) parentKey s x :
  loose_eq_undefined s = false →
  match_weight h parentKey s x = strict_eq (get h x parentKey) s.
Proof.
  intros Hs. unfold match_weight. rewrite !loose_eq_null_undefined, Hs. simpl.
  by rewrite !orb_false_r.
Qed.

Section Keys.
Variables (h0 : heap) (arrIn : list loc) (idKey parentKey : string).

Abbreviation idv := (λ x : loc, get h0 x idKey).

Hypothesis Hids : ids_unique arrIn idv.

Lemma find_by_id (l : list loc) el :
  el ∈ l → (∀ x, x ∈ l → x ∈ arrIn) →
  List.find (λ o, strict_eq (idv o) (idv el)) l = Some el.
Proof.
  intros Hel Hsub. destruct Hids as [_ Hu].
  induction l as [|a l IH]; [by apply elem_of_nil in Hel|]. simpl.
  assert (Ha : a ∈ arrIn) by (apply Hsub; by left).
  assert (Hel' : el ∈ arrIn) by (by apply Hsub).
  destruct (strict_eq (idv a) (idv el)) eqn:He.
  - f_equal. by apply Hu.
  - apply elem_of_cons in Hel as [->|Hel].
    + assert (strict_eq (idv a) (idv a) = true) by (by apply Hu). congruence.
    + apply IH; [done|]. intros x Hx. apply Hsub. by right.
Qed.

(** With [array2Tree]'s and [array2SortByTree]'s filter. *)
Lemma tree_single_parent :
  root_exclusive arrIn (match_tree h0 parentKey) idv VNull →
  ∀ p q x, p ∈ arrIn → q ∈ arrIn →
    x ∈ kids arrIn (match_tree h0 parentKey) (idv p) →
    x ∈ kids arrIn (match_tree h0 parentKey) (idv q) → p = q.
Proof.
  intros Hrx p q x Hp Hq Hxp Hxq.
  assert (Hnn : ∀ r, r ∈ arrIn → x ∈ kids arrIn (match_tree h0 parentKey) (idv r) →
                loose_eq_undefined (idv r) = false).
  { intros r Hr Hxr. destruct (loose_eq_undefined (idv r)) eqn:Hn; [|done].
    exfalso. apply (Hrx r x Hr); [|done].
    apply elem_of_kids in Hxr as [Hm Hx]. apply elem_of_kids. split; [|done].
    by rewrite <- (match_tree_nullish h0 parentKey (idv r)). }
  pose proof (Hnn p Hp Hxp) as Hnp. pose proof (Hnn q Hq Hxq) as Hnq.
  apply elem_of_kids in Hxp as [Hmp _]. apply elem_of_kids in Hxq as [Hmq _].
  rewrite match_tree_strict in Hmp, Hmq by done.
  destruct Hids as [_ Hu]. apply Hu; [done..|].
  eapply strict_eq_trans; [|done]. by rewrite strict_eq_sym.
Qed.

(** With [array2SortAndWeight]'s filter: a record met by the traversal has
    an identifier that is neither [null] nor [undefined], or the top-level
    records would lie below it. *)
Section Weight.
Variable rank : loc → nat.
Hypothesis Hrank : ∀ p x, p ∈ arrIn →
  x ∈ kids arrIn (match_weight h0 parentKey) (idv p) → rank p < rank x.

Lemma weight_reach_id p :
  reach arrIn (match_weight h0 parentKey) idv VNull p →
  loose_eq_undefined (idv p) = false.
Proof.
  intros Hp. destruct (loose_eq_undefined (idv p)) eqn:Hn; [|done]. exfalso.
  destruct (reach_root _ _ _ _ _ Hp) as (r & Hr & Hrp).
  assert (Hrin : r ∈ arrIn) by exact (kids_in _ _ idv _ _ Hr).
  assert (Hrk : r ∈ kids arrIn (match_weight h0 parentKey) (idv p)).
  { apply elem_of_kids in Hr as [Hm Hin]. apply elem_of_kids. split; [|done].
    rewrite match_weight_nullish in Hm |- * by done. done. }
  assert (Hpin : p ∈ arrIn) by (eapply reach_in; exact Hp).
  pose proof (Hrank p r Hpin Hrk).
  destruct Hrp as [->|Hd]; [lia|].
  assert (rank r < rank p); [|lia].
  eapply desc_rank; [exact Hrank|done|exact Hd].
Qed.

Lemma weight_single_parent p q x :
  reach arrIn (match_weight h0 parentKey) idv VNull p →
  reach arrIn (match_weight h0 parentKey) idv VNull q →
  x ∈ kids arrIn (match_weight h0 parentKey) (idv p) →
  x ∈ kids arrIn (match_weight h0 parentKey) (idv q) → p = q.
Proof.
  intros Hp Hq Hxp Hxq.
  pose proof (weight_reach_id p Hp) as Hnp. pose proof (weight_reach_id q Hq) as Hnq.
  apply elem_of_kids in Hxp as [Hmp _]. apply elem_of_kids in Hxq as [Hmq _].
  rewrite match_weight_strict in Hmp, Hmq by done.
  destruct Hids as [_ Hu].
  apply Hu; [eapply reach_in; exact Hp|eapply reach_in; exact Hq|].
  eapply strict_eq_trans; [|done]. by rewrite strict_eq_sym.
Qed.

Lemma weight_root_exclusive p x :
  reach arrIn (match_weight h0 parentKey) idv VNull p →
  x ∈ kids arrIn (match_weight h0 parentKey) VNull →
  x ∉ kids arrIn (match_weight h0 parentKey) (idv p).
Proof.
  intros Hp Hx0 Hxp. pose proof (weight_reach_id p Hp) as Hnp.
  apply elem_of_kids in Hx0 as [Hm0 _]. apply elem_of_kids in Hxp as [Hmp _].
  rewrite match_weight_nullish in Hm0 by done.
  rewrite match_weight_strict in Hmp by done.
  rewrite strict_eq_sym in Hmp. apply nullish_strict_eq in Hmp; congruence.
Qed.

End Weight.
End Keys.
End StrictEq.

(** ** array2SortByTree on a hierarchy *)

Section SortRun.
Context {num : Type} {N : Number num} {L : NumberLaws num}.

Abbreviation value := (value num).
Abbreviation heap := (list (gmap string value)).

Variables (h0 : heap) (arrIn : list loc) (idKey parentKey : string).

Abbreviation idv := (λ x : loc, get h0 x idKey).
Abbreviation kidsT := (kids arrIn (match_tree h0 parentKey)).
Abbreviation walkT := (walk arrIn (match_tree h0 parentKey) idv).

Hypothesis Hid : idKey ∉ sort_fields.
Hypothesis Hpk : parentKey ∉ sort_fields.
Hypothesis Hidne : idKey ≠ "".
Hypothesis Hpkne : parentKey ≠ "".
Hypothesis Hvalid : valid h0 arrIn.
Hypothesis Hids : ids_unique arrIn idv.

Lemma NoDup_subseteq_length (l k : list loc) :
  NoDup l → (∀ x, x ∈ l → x ∈ k) → length l ≤ length k.
Proof. intros Hnd Hsub. apply submseteq_length. by apply NoDup_submseteq. Qed.

Lemma annotate_same_data (h : heap) el lvl idx pidx :
  same_data sort_fields h (annotate h el lvl idx pidx).
Proof.
  unfold annotate.
  eapply same_data_trans; [|apply same_data_set; set_solver].
  eapply same_data_trans; [|apply same_data_set; set_solver].
  apply same_data_set; set_solver.
Qed.

Lemma annotate_is_leaf (h : heap) el lvl idx pidx x :
  get (annotate h el lvl idx pidx) x "$is_leaf" = get h x "$is_leaf".
Proof. unfold annotate. rewrite !get_set_other; auto. Qed.

Lemma kids_in_heap (h : heap) s :
  same_data sort_fields h0 h →
  filter (λ x, match_tree h parentKey s x) arrIn = kidsT s.
Proof.
  intros [_ Hg]. apply filter_ext_bool. intros x _.
  apply match_tree_ext. by apply Hg.
Qed.

Lemma find_in_heap (h : heap) s (l : list loc) :
  same_data sort_fields h0 h →
  List.find (λ o, strict_eq (get h o idKey) s) l
  = List.find (λ o, strict_eq (idv o) s) l.
Proof. intros [_ Hg]. apply find_ext_bool. intros x _. by rewrite Hg. Qed.

Lemma get_mark_leaf (h : heap) found x :
  (∀ y, found = Some y → y < length h) →
  get (mark_leaf h found) x "$is_leaf"
  = if decide (found = Some x) then VNum n_one else get h x "$is_leaf".
Proof.
  intros Hv. destruct found as [y|]; unfold mark_leaf.
  - rewrite get_set by auto. repeat case_decide; naive_solver.
  - by rewrite decide_False.
Qed.

Lemma sort_run n : ∀ (h : heap) s lvl acc pidx w,
  same_data sort_fields h0 h →
  walkT n s = Some w →
  NoDup (acc ++ w) → (∀ x, x ∈ acc ++ w → x ∈ arrIn) →
  ∃ h', array2SortByTree n h arrIn idKey parentKey s lvl acc pidx = Ok (h', acc ++ w)
     ∧ same_data sort_fields h0 h'
     ∧ ∀ x, get h' x "$is_leaf" =
         if decide (x ∈ w ∧ kidsT (idv x) = []) then VNum n_one
         else if decide (kidsT s = []
                         ∧ List.find (λ o, strict_eq (idv o) s) acc = Some x)
              then VNum n_one else get h x "$is_leaf".
Proof.
  induction n as [|n IH]; intros h s lvl acc pidx w Hsd Hw Hnd Hsub; [done|].
  rewrite array2SortByTree_unfold.
  assert ((length acc <=? length arrIn) = true) as ->.
  { apply Nat.leb_le. transitivity (length (acc ++ w)).
    - rewrite length_app. lia.
    - by apply NoDup_subseteq_length. }
  assert (String.eqb idKey "" = false) as -> by (by apply String.eqb_neq).
  assert (String.eqb parentKey "" = false) as -> by (by apply String.eqb_neq).
  cbn [andb negb]. rewrite kids_in_heap by done. simpl in Hw.
  destruct (kidsT s) as [|el els] eqn:Hk.
  - injection Hw as <-. rewrite app_nil_r in *.
    exists (mark_leaf h (List.find (λ o, strict_eq (get h o idKey) s) acc)).
    split; [done|]. split.
    { eapply same_data_trans; [done|]. apply same_data_mark_leaf. set_solver. }
    intros x. rewrite find_in_heap by done. rewrite get_mark_leaf.
    + repeat case_decide; try done; exfalso; set_solver.
    + intros y Hy. apply find_some in Hy as [Hy _].
      destruct Hsd as [-> _]. eapply Forall_forall in Hvalid; [done|].
      apply Hsub. by apply list_elem_of_In.
  - assert (Hloop : ∀ rest idx (h : heap) acc ws,
      same_data sort_fields h0 h →
      walk_each idv (walkT n) rest = Some ws →
      NoDup (acc ++ ws) → (∀ x, x ∈ acc ++ ws → x ∈ arrIn) →
      ∃ h', sort_loop
              (λ h s acc pidx,
                 array2SortByTree n h arrIn idKey parentKey s (n_add lvl n_one) acc pidx)
              idKey lvl pidx rest idx h acc = Ok (h', acc ++ ws)
         ∧ same_data sort_fields h0 h'
         ∧ ∀ x, get h' x "$is_leaf" =
             if decide (x ∈ ws ∧ kidsT (idv x) = []) then VNum n_one
             else get h x "$is_leaf").
    { clear h acc w Hsd Hw Hnd Hsub Hk.
      induction rest as [|e rest IHrest]; intros idx h acc ws Hsd Hws Hnd Hsub.
      - injection Hws as <-. rewrite app_nil_r. exists h. split; [done|]. split; [done|].
        intros x. rewrite decide_False; [done|intros [Hx _]; by apply elem_of_nil in Hx].
      - apply walk_each_cons in Hws as (w1 & wr & Hw1 & Hwr & ->).
        cbn [sort_loop].
        set (h1 := annotate h e lvl idx pidx).
        assert (Hsd1 : same_data sort_fields h0 h1).
        { eapply same_data_trans; [done|]. apply annotate_same_data. }
        assert (get h1 e idKey = idv e) as -> by (by apply Hsd1).
        assert (Heq1 : (acc ++ [e]) ++ w1 ++ wr = acc ++ e :: w1 ++ wr).
        { by rewrite <- app_assoc. }
        destruct (IH h1 (idv e) (n_add lvl n_one) (acc ++ [e])
                    (Some (tree_index pidx (idx + 1))) w1 Hsd1 Hw1)
          as (h2 & Hrun2 & Hsd2 & Hleaf2).
        { rewrite <- Heq1, (app_assoc (acc ++ [e])) in Hnd.
          by apply NoDup_app in Hnd as [Hnd _]. }
        { intros x Hx. apply Hsub. rewrite <- Heq1, (app_assoc (acc ++ [e])).
          apply elem_of_app. by left. }
        rewrite Hrun2. cbn [rbind].
        destruct (IHrest (S idx) h2 ((acc ++ [e]) ++ w1) wr Hsd2 Hwr)
          as (h3 & Hrun3 & Hsd3 & Hleaf3).
        { by rewrite <- app_assoc, Heq1. }
        { intros x Hx. apply Hsub. by rewrite <- Heq1, (app_assoc (acc ++ [e])). }
        exists h3. split; [|split; [done|]].
        { rewrite Hrun3. by rewrite <- Heq1, (app_assoc (acc ++ [e])). }
        intros x. rewrite Hleaf3, Hleaf2.
        rewrite find_by_id with (arrIn := arrIn); [|done|set_solver|].
        2: { intros y Hy. apply Hsub. rewrite <- Heq1. apply elem_of_app. by left. }
        unfold h1. rewrite annotate_is_leaf.
        repeat case_decide; try done; exfalso; set_solver. }
    destruct (Hloop (el :: els) 0 h acc w Hsd Hw Hnd Hsub) as (h' & Hrun & Hsd' & Hleaf).
    exists h'. split; [done|]. split; [done|].
    intros x. rewrite Hleaf. case_decide; [done|].
    by rewrite decide_False by (intros [? _]; done).
Qed.

End SortRun.

(** ** array2SortAndWeight on a hierarchy *)

Section WeightRun.
Context {num : Type} {N : Number num} {L : NumberLaws num}.

Abbreviation value := (value num).
Abbreviation heap := (list (gmap string value)).

Variables (h0 : heap) (arrIn : list loc) (idKey parentKey weightKey : string).

Abbreviation idv := (λ x : loc, get h0 x idKey).
Abbreviation kidsW := (kids arrIn (match_weight h0 parentKey)).
Abbreviation walkW := (walk arrIn (match_weight h0 parentKey) idv).

Hypothesis Hpk : parentKey ∉ weight_fields.
Hypothesis Hwk : weightKey ∉ weight_fields.
Hypothesis Hvalid : valid h0 arrIn.
Hypothesis Hnum : numeric_weights h0 arrIn weightKey.

Lemma weight_of_weight x :
  x ∈ arrIn → weight_of (get h0 x weightKey) = Ok (weight h0 weightKey x).
Proof. intros Hx. unfold weight. by destruct (Hnum x Hx) as [w ->]. Qed.

Lemma sum_weights_total (h : heap) group :
  same_data weight_fields h0 h → (∀ x, x ∈ group → x ∈ arrIn) →
  sum_weights h weightKey group = Ok (total_weight h0 weightKey group).
Proof.
  intros [_ Hg] Hsub. unfold sum_weights, total_weight.
  generalize (n_zero : num). induction group as [|x xs IH]; intros a; [done|].
  simpl. rewrite Hg, weight_of_weight by (done || apply Hsub; by left). simpl.
  apply IH. intros y Hy. apply Hsub. by right.
Qed.

Lemma kids_in_heap_w (h : heap) s :
  same_data weight_fields h0 h →
  filter (λ x, match_weight h parentKey s x) arrIn = kidsW s.
Proof.
  intros [_ Hg]. apply filter_ext_bool. intros x _.
  apply match_weight_ext. by apply Hg.
Qed.

Lemma annotate_weight_ok (h : heap) e sumWeight rw lvl idx pidx :
  same_data weight_fields h0 h → e ∈ arrIn →
  let share := n_div (weight h0 weightKey e) sumWeight in
  ∃ h1, annotate_weight h e weightKey sumWeight rw lvl idx pidx
          = Ok (h1, n_mul rw share)
     ∧ same_data weight_fields h h1
     ∧ (∀ y k, y ≠ e → get h1 y k = get h y k)
     ∧ (∀ y, get h1 y "$is_leaf" = get h y "$is_leaf")
     ∧ get h1 e "$sum_weight" = VNum sumWeight
     ∧ get h1 e "$weight_percent" = VNum share
     ∧ get h1 e "$parent_weight_percent" = VNum rw
     ∧ get h1 e "$root_weight_percent" = VNum (n_mul rw share).
Proof.
  intros [Hlen Hg] He share.
  assert (Hv : e < length h).
  { rewrite Hlen. by eapply Forall_forall in Hvalid. }
  unfold annotate_weight.
  rewrite get_set_other by (left; intros <-; apply Hwk; set_solver).
  rewrite Hg, weight_of_weight by done. cbn [rbind]. fold share.
  eexists. split; [reflexivity|]. unfold annotate.
  split; [|split; [|split; [|split_and!]]].
  - repeat (eapply same_data_trans; [|apply same_data_set; set_solver]).
    apply same_data_refl.
  - intros y k Hy. rewrite !get_set_other; auto.
  - intros y. rewrite !get_set_other; auto.
  - rewrite !get_set_other by auto. rewrite get_set by done. by rewrite decide_True.
  - rewrite !get_set_other by auto. rewrite get_set by (by rewrite !length_set).
    by rewrite decide_True.
  - rewrite !get_set_other by auto. rewrite get_set by (by rewrite !length_set).
    by rewrite decide_True.
  - rewrite !get_set_other by auto. rewrite get_set by (by rewrite !length_set).
    by rewrite decide_True.
Qed.

Hypothesis Hid : idKey ∉ weight_fields.
Hypothesis Hids : ids_unique arrIn idv.

Lemma find_in_heap_w (h : heap) s (l : list loc) :
  same_data weight_fields h0 h →
  List.find (λ o, strict_eq (get h o idKey) s) l
  = List.find (λ o, strict_eq (idv o) s) l.
Proof. intros [_ Hg]. apply find_ext_bool. intros x _. by rewrite Hg. Qed.

Lemma weight_run n : ∀ (h : heap) s lvl rw acc pidx w,
  same_data weight_fields h0 h →
  walkW n s = Some w →
  NoDup (acc ++ w) → (∀ x, x ∈ acc ++ w → x ∈ arrIn) →
  ∃ h', array2SortAndWeight n h arrIn idKey parentKey weightKey s lvl rw acc pidx
          = Ok (h', acc ++ w)
     ∧ same_data weight_fields h0 h'
     ∧ (∀ x, get h' x "$is_leaf" =
          if decide (x ∈ w ∧ kidsW (idv x) = []) then VNum n_one
          else if decide (kidsW s = []
                          ∧ List.find (λ o, strict_eq (idv o) s) acc = Some x)
               then VNum n_one else get h x "$is_leaf")
     ∧ (∀ y k, y ∉ w → k ≠ "$is_leaf" → get h' y k = get h y k)
     ∧ (∀ x, x ∈ kidsW s → get h' x "$parent_weight_percent" = VNum rw)
     ∧ (∀ p x, p ∈ w → x ∈ kidsW (idv p) →
          get h' x "$parent_weight_percent" = get h' p "$root_weight_percent")
     ∧ (∀ x, x ∈ w → ∃ pw sh,
          get h' x "$parent_weight_percent" = VNum pw
          ∧ get h' x "$weight_percent" = VNum sh
          ∧ get h' x "$root_weight_percent" = VNum (n_mul pw sh)).
Proof.
  induction n as [|n IH]; intros h s lvl rw acc pidx w Hsd Hw Hnd Hsub; [done|].
  rewrite array2SortAndWeight_unfold.
  assert ((length acc <=? length arrIn) = true) as ->.
  { apply Nat.leb_le. transitivity (length (acc ++ w)).
    - rewrite length_app. lia.
    - by apply NoDup_subseteq_length. }
  rewrite kids_in_heap_w by done. simpl in Hw.
  destruct (kidsW s) as [|el els] eqn:Hk.
  - injection Hw as <-. rewrite app_nil_r in *.
    exists (mark_leaf h (List.find (λ o, strict_eq (get h o idKey) s) acc)).
    split; [done|]. split.
    { eapply same_data_trans; [done|]. apply same_data_mark_leaf. set_solver. }
    split_and!.
    + intros x. rewrite find_in_heap_w by done. rewrite get_mark_leaf.
      * repeat case_decide; try done; exfalso; set_solver.
      * intros y Hy. apply find_some in Hy as [Hy _].
        destruct Hsd as [-> _]. eapply Forall_forall in Hvalid; [done|].
        apply Hsub. by apply list_elem_of_In.
    + intros y k _ Hk'. by apply get_mark_leaf_other.
    + intros x Hx. by apply elem_of_nil in Hx.
    + intros p x Hp. by apply elem_of_nil in Hp.
    + intros x Hx. by apply elem_of_nil in Hx.
  - rewrite sum_weights_total; [|done|].
    2: { intros x Hx. rewrite <- Hk in Hx. by eapply kids_in in Hx. }
    cbn [rbind]. generalize (total_weight h0 weightKey (el :: els)). intros sw.
    assert (Hloop : ∀ rest idx (h : heap) acc ws,
      same_data weight_fields h0 h →
      walk_each idv (walkW n) rest = Some ws →
      NoDup (acc ++ ws) → (∀ x, x ∈ acc ++ ws → x ∈ arrIn) →
      ∃ h', weight_loop
              (λ h s rw acc pidx,
                 array2SortAndWeight n h arrIn idKey parentKey weightKey s
                   (n_add lvl n_one) rw acc pidx)
              idKey weightKey sw rw lvl pidx rest idx h acc = Ok (h', acc ++ ws)
         ∧ same_data weight_fields h0 h'
         ∧ (∀ x, get h' x "$is_leaf" =
              if decide (x ∈ ws ∧ kidsW (idv x) = []) then VNum n_one
              else get h x "$is_leaf")
         ∧ (∀ y k, y ∉ ws → k ≠ "$is_leaf" → get h' y k = get h y k)
         ∧ (∀ x, x ∈ rest → get h' x "$parent_weight_percent" = VNum rw)
         ∧ (∀ p x, p ∈ ws → x ∈ kidsW (idv p) →
              get h' x "$parent_weight_percent" = get h' p "$root_weight_percent")
         ∧ (∀ x, x ∈ ws → ∃ pw sh,
              get h' x "$parent_weight_percent" = VNum pw
              ∧ get h' x "$weight_percent" = VNum sh
              ∧ get h' x "$root_weight_percent" = VNum (n_mul pw sh))).
    { clear h acc w Hsd Hw Hnd Hsub Hk.
      induction rest as [|e rest IHrest]; intros idx h acc ws Hsd Hws Hnd Hsub.
      - injection Hws as <-. rewrite app_nil_r. exists h. split; [done|]. split; [done|].
        split_and!.
        + intros x. rewrite decide_False; [done|intros [Hx _]; by apply elem_of_nil in Hx].
        + done.
        + intros x Hx. by apply elem_of_nil in Hx.
        + intros p x Hp. by apply elem_of_nil in Hp.
        + intros x Hx. by apply elem_of_nil in Hx.
      - apply walk_each_cons in Hws as (w1 & wr & Hw1 & Hwr & ->).
        cbn [weight_loop].
        assert (Hein : e ∈ arrIn) by (apply Hsub; set_solver).
        destruct (annotate_weight_ok h e sw rw lvl idx pidx Hsd Hein)
          as (h1 & Hann & Hsd01 & Hoth1 & Hleaf1 & _ & Hwp1 & Hpar1 & Hroot1).
        rewrite Hann. cbn [rbind].
        assert (Hsd1 : same_data weight_fields h0 h1) by (by eapply same_data_trans).
        assert (get h1 e idKey = idv e) as -> by (by apply Hsd1).
        assert (Heq1 : (acc ++ [e]) ++ w1 ++ wr = acc ++ e :: w1 ++ wr).
        { by rewrite <- app_assoc. }
        assert (Hnd' : NoDup (e :: w1 ++ wr)) by (by apply NoDup_app in Hnd as (_ & _ & ?)).
        apply NoDup_cons in Hnd' as [He Hnd'].
        apply NoDup_app in Hnd' as (_ & Hdisj & _).
        assert (He1 : e ∉ w1) by set_solver. assert (Her : e ∉ wr) by set_solver.
        destruct (IH h1 (idv e) (n_add lvl n_one)
                    (n_mul rw (n_div (weight h0 weightKey e) sw)) (acc ++ [e])
                    (Some (tree_index pidx (idx + 1))) w1 Hsd1 Hw1)
          as (h2 & Hrun2 & Hsd2 & Hleaf2 & Hfr2 & Hp12 & Hp22 & Hp32).
        { rewrite <- Heq1, (app_assoc (acc ++ [e])) in Hnd.
          by apply NoDup_app in Hnd as [Hnd _]. }
        { intros x Hx. apply Hsub. rewrite <- Heq1, (app_assoc (acc ++ [e])).
          apply elem_of_app. by left. }
        rewrite Hrun2. cbn [rbind].
        destruct (IHrest (S idx) h2 ((acc ++ [e]) ++ w1) wr Hsd2 Hwr)
          as (h3 & Hrun3 & Hsd3 & Hleaf3 & Hfr3 & Hp13 & Hp23 & Hp33).
        { by rewrite <- app_assoc, Heq1. }
        { intros x Hx. apply Hsub. by rewrite <- Heq1, (app_assoc (acc ++ [e])). }
        exists h3. split; [|split; [done|]].
        { rewrite Hrun3. by rewrite <- Heq1, (app_assoc (acc ++ [e])). }
        split_and!.
        + intros x. rewrite Hleaf3, Hleaf2.
          rewrite find_by_id with (arrIn := arrIn); [|done|set_solver|].
          2: { intros y Hy. apply Hsub. rewrite <- Heq1. apply elem_of_app. by left. }
          rewrite Hleaf1.
          repeat case_decide; try done; exfalso; set_solver.
        + intros y k Hy Hk'.
          apply not_elem_of_cons in Hy as [Hye Hy].
          apply not_elem_of_app in Hy as [Hy1 Hyr].
          rewrite Hfr3, Hfr2, Hoth1; done.
        + intros x Hx. apply elem_of_cons in Hx as [->|Hx]; [|by apply Hp13].
          rewrite Hfr3, Hfr2 by done. done.
        + intros p x Hp Hx. apply elem_of_cons in Hp as [->|Hp].
          * assert (Hx1 : x ∈ w1) by (by eapply walk_kids).
            rewrite (Hfr3 x), (Hfr3 e) by (done || by apply Hdisj).
            rewrite (Hp12 x Hx), (Hfr2 e) by done. done.
          * apply elem_of_app in Hp as [Hp|Hp]; [|by apply Hp23].
            assert (Hx1 : x ∈ w1) by (by eapply walk_closed).
            rewrite (Hfr3 x), (Hfr3 p) by (done || by apply Hdisj). by apply Hp22.
        + intros x Hx. apply elem_of_cons in Hx as [->|Hx].
          * exists rw, (n_div (weight h0 weightKey e) sw).
            rewrite !Hfr3, !Hfr2 by done. done.
          * apply elem_of_app in Hx as [Hx|Hx]; [|by apply Hp33].
            destruct (Hp32 x Hx) as (pw & sh & ? & ? & ?). exists pw, sh.
            rewrite !Hfr3 by (done || by apply Hdisj). done. }
    destruct (Hloop (el :: els) 0 h acc w Hsd Hw Hnd Hsub)
      as (h' & Hrun & Hsd' & Hleaf & Hfr & Hp1 & Hp2 & Hp3).
    exists h'. split; [done|]. split; [done|]. by split_and!.
Qed.

End WeightRun.

(** ** Weight shares, on any input *)

Section Shares.
Context {num : Type} {N : Number num} {L : NumberLaws num}.

Abbreviation value := (value num).
Abbreviation heap := (list (gmap string value)).

Variables (h0 : heap) (arrIn : list loc) (idKey parentKey weightKey : string).

Abbreviation kidsW := (kids arrIn (match_weight h0 parentKey)).

Hypothesis Hpk : parentKey ∉ weight_fields.
Hypothesis Hwk : weightKey ∉ weight_fields.
Hypothesis Hvalid : valid h0 arrIn.









End Shares.

(** ** array2Tree *)

Section TreeRun.
Context {num : Type} {N : Number num} {L : NumberLaws num}.

Abbreviation value := (value num).
Abbreviation heap := (list (gmap string value)).

Variables (h0 : heap) (arrIn : list loc) (idKey parentKey : string).

Abbreviation idv := (λ x : loc, get h0 x idKey).
Abbreviation kidsT := (kids arrIn (match_tree h0 parentKey)).

Hypothesis Hid : idKey ∉ tree_fields.
Hypothesis Hpk : parentKey ∉ tree_fields.
Hypothesis Hvalid : valid h0 arrIn.

Lemma keeps_refl h : keeps h0 arrIn idKey parentKey h h.
Proof. by split. Qed.

Lemma keeps_trans h1 h2 h3 : keeps h0 arrIn idKey parentKey h1 h2 → keeps h0 arrIn idKey parentKey h2 h3 → keeps h0 arrIn idKey parentKey h1 h3.
Proof. intros [A1 B1] [A2 B2]. split; eauto. Qed.

Lemma built_keeps h h' x : keeps h0 arrIn idKey parentKey h h' → built h0 arrIn idKey parentKey h x → built h0 arrIn idKey parentKey h' x.
Proof.
  intros [Hc Hl]. induction 1 as [x Hch Hlf _ IH].
  constructor; [by apply Hc| |done]. intros Hk Hf. apply Hl. by apply Hlf.
Qed.

Lemma keeps_set_level (h : heap) el v : keeps h0 arrIn idKey parentKey h (set h el "$level" v).
Proof. split; intros x Hx; by rewrite get_set_other by auto. Qed.

Lemma keeps_mark_leaf (h : heap) found :
  (∀ y, found = Some y → y < length h) → keeps h0 arrIn idKey parentKey h (mark_leaf h found).
Proof.
  intros Hv. split; intros x Hx.
  - by rewrite get_mark_leaf_other.
  - rewrite get_mark_leaf by done. by case_decide.
Qed.

Lemma keeps_set_children (h : heap) el :
  keeps h0 arrIn idKey parentKey h (set h el "$children" (VArr (VRef <$> kidsT (idv el)))).
Proof.
  split; intros x Hx.
  - destruct (decide (el < length h)) as [Hv|Hv].
    + rewrite get_set by done. by case_decide as Hd; [destruct Hd as [-> _]|].
    + unfold set. by rewrite list_insert_ge by lia.
  - by rewrite get_set_other by auto.
Qed.

Lemma kids_in_heap_t (h : heap) s :
  same_data tree_fields h0 h →
  filter (λ x, match_tree h parentKey s x) arrIn = kidsT s.
Proof.
  intros [_ Hg]. apply filter_ext_bool. intros x _.
  apply match_tree_ext. by apply Hg.
Qed.

Lemma find_in_heap_t (h : heap) s (l : list loc) :
  same_data tree_fields h0 h →
  List.find (λ o, strict_eq (get h o idKey) s) l
  = List.find (λ o, strict_eq (idv o) s) l.
Proof. intros [_ Hg]. apply find_ext_bool. intros x _. by rewrite Hg. Qed.

Lemma kids_strict_eq a b : strict_eq a b = true → kidsT a = kidsT b.
Proof. intros Hab. apply kids_ext. intros x _. by apply match_tree_cong. Qed.

(** What a returning call has done. *)
Lemma tree_run n : ∀ (h : heap) s lvl h' ret,
  same_data tree_fields h0 h →
  array2Tree n h arrIn idKey parentKey s lvl = Ok (h', ret) →
  same_data tree_fields h0 h'
  ∧ keeps h0 arrIn idKey parentKey h h'
  ∧ ret = (if decide (kidsT s = []) then VUndef else VArr (VRef <$> kidsT s))
  ∧ (∀ x, x ∈ kidsT s → built h0 arrIn idKey parentKey h' x)
  ∧ (kidsT s = [] → ∀ x, List.find (λ y, strict_eq (idv y) s) arrIn = Some x →
       get h' x "$is_leaf" = VNum n_one)
  ∧ (∀ x, kidsT (idv x) ≠ [] → get h' x "$is_leaf" = get h x "$is_leaf").
Proof.
  induction n as [|n IH]; intros h s lvl h' ret Hsd; [done|].
  rewrite array2Tree_unfold, kids_in_heap_t by done.
  assert (Hfv : ∀ (h : heap) s y, same_data tree_fields h0 h →
            List.find (λ o, strict_eq (idv o) s) arrIn = Some y → y < length h).
  { intros h1 s1 y [-> _] Hy. apply find_some in Hy as [Hy _].
    eapply Forall_forall in Hvalid; [done|]. by apply list_elem_of_In. }
  destruct (kidsT s) as [|el els] eqn:Hk.
  - intros [= <- <-]. rewrite find_in_heap_t by done. split_and!.
    + eapply same_data_trans; [done|]. apply same_data_mark_leaf. set_solver.
    + apply keeps_mark_leaf. intros y Hy. by eapply Hfv.
    + done.
    + intros x Hx. by apply elem_of_nil in Hx.
    + intros _ x Hx. rewrite Hx. rewrite get_mark_leaf; [by rewrite decide_True|].
      intros y [= <-]. by eapply Hfv.
    + intros x Hx. rewrite get_mark_leaf; [|intros y Hy; by eapply Hfv].
      case_decide as Hf; [|done]. exfalso. apply Hx.
      apply find_some in Hf as [_ Hf]. by rewrite (kids_strict_eq _ _ Hf).
  - destruct (tree_loop _ idKey lvl (el :: els) h) as [h1| | |] eqn:Hloop; [|done..].
    cbn [rbind]. intros [= <- <-].
    assert (Hl : ∀ rest (h : heap) h',
      same_data tree_fields h0 h → (∀ x, x ∈ rest → x ∈ arrIn) →
      tree_loop (λ h s, array2Tree n h arrIn idKey parentKey s (n_add lvl n_one))
        idKey lvl rest h = Ok h' →
      same_data tree_fields h0 h'
      ∧ keeps h0 arrIn idKey parentKey h h'
      ∧ (∀ x, x ∈ rest → built h0 arrIn idKey parentKey h' x)
      ∧ (∀ x, kidsT (idv x) ≠ [] → get h' x "$is_leaf" = get h x "$is_leaf")).
    { clear h h1 Hsd Hloop Hk.
      induction rest as [|e rest IHrest]; intros h h' Hsd Hin; cbn [tree_loop].
      - intros [= <-]. split_and!; [done|apply keeps_refl| |done].
        intros x Hx. by apply elem_of_nil in Hx.
      - set (hl := set h e "$level" (VNum lvl)).
        assert (Hsdl : same_data tree_fields h0 hl).
        { eapply same_data_trans; [done|]. apply same_data_set. set_solver. }
        assert (get hl e idKey = idv e) as -> by (by apply Hsdl).
        destruct (array2Tree n hl arrIn idKey parentKey (idv e) (n_add lvl n_one))
          as [[h2 sub]| | |] eqn:Hsub; [|done..].
        apply IH in Hsub as (Hsd2 & Hk2 & -> & Hb2 & Hown2 & Hneg2); [|done].
        cbn [rbind].
        assert ((if truthy (if decide (kidsT (idv e) = []) then VUndef
                            else VArr (VRef <$> kidsT (idv e)))
                 then (if decide (kidsT (idv e) = []) then VUndef
                       else VArr (VRef <$> kidsT (idv e)))
                 else VArr []) = VArr (VRef <$> kidsT (idv e))) as ->.
        { case_decide as Hd; [by rewrite Hd|done]. }
        set (h3 := set h2 e "$children" (VArr (VRef <$> kidsT (idv e)))).
        assert (Hk3 : keeps h0 arrIn idKey parentKey h2 h3) by apply keeps_set_children.
        assert (Hsd3 : same_data tree_fields h0 h3).
        { eapply same_data_trans; [done|]. apply same_data_set. set_solver. }
        assert (Hev : e < length h2).
        { destruct Hsd2 as [-> _]. eapply Forall_forall in Hvalid; [done|].
          apply Hin. by left. }
        assert (Hbe : built h0 arrIn idKey parentKey h3 e).
        { constructor.
          - unfold h3. rewrite get_set by done. by rewrite decide_True.
          - intros Hke Hf. apply Hk3. by apply Hown2.
          - intros c Hc. eapply built_keeps; [done|]. by apply Hb2. }
        intros Hrest. apply IHrest in Hrest as (Hsd4 & Hk4 & Hb4 & Hneg4); [|done|].
        2: { intros x Hx. apply Hin. by right. }
        split_and!.
        + done.
        + eapply keeps_trans; [apply keeps_set_level|].
          eapply keeps_trans; [done|]. by eapply keeps_trans.
        + intros x Hx. apply elem_of_cons in Hx as [->|Hx]; [|by apply Hb4].
          by eapply built_keeps.
        + intros x Hx. rewrite Hneg4 by done. unfold h3.
          rewrite get_set_other by auto. rewrite Hneg2 by done.
          unfold hl. by rewrite get_set_other by auto. }
    apply Hl in Hloop as (Hsd1 & Hk1 & Hb1 & Hneg1); [|done|].
    2: { intros x Hx. rewrite <- Hk in Hx. by eapply kids_in in Hx. }
    split_and!; try done.
Qed.


(** Without cycles the recursion is no deeper than the input is long. *)
Lemma tree_returns (rank : loc → nat) :
  (∀ p x, p ∈ arrIn → x ∈ kidsT (idv p) → rank p < rank x) →
  ∀ n (h : heap) s lvl,
    same_data tree_fields h0 h →
    (∀ el, el ∈ kidsT s → length (above arrIn rank el) + 1 < n) → 0 < n →
    ∃ h' ret, array2Tree n h arrIn idKey parentKey s lvl = Ok (h', ret).
Proof.
  intros Hrank. induction n as [|n IH]; intros h s lvl Hsd Hn Hpos; [lia|].
  rewrite array2Tree_unfold, kids_in_heap_t by done.
  destruct (kidsT s) as [|el els] eqn:Hk; [eauto|].
  assert (Hl : ∀ rest (h : heap),
    same_data tree_fields h0 h → (∀ x, x ∈ rest → x ∈ kidsT s) →
    ∃ h', tree_loop (λ h s, array2Tree n h arrIn idKey parentKey s (n_add lvl n_one))
            idKey lvl rest h = Ok h').
  { clear h Hsd. induction rest as [|e rest IHrest]; intros h Hsd Hin; cbn [tree_loop].
    - eauto.
    - set (hl := set h e "$level" (VNum lvl)).
      assert (Hsdl : same_data tree_fields h0 hl).
      { eapply same_data_trans; [done|]. apply same_data_set. set_solver. }
      assert (get hl e idKey = idv e) as -> by (by apply Hsdl).
      assert (Hek : e ∈ kidsT s) by (apply Hin; by left).
      assert (Hein : e ∈ arrIn) by exact (kids_in _ _ idv _ _ Hek).
      assert (Hne := Hn e). rewrite <- Hk in Hne. specialize (Hne Hek).
      destruct (IH hl (idv e) (n_add lvl n_one) Hsdl) as (h2 & sub & Hsub); [|lia|].
      { intros c Hc. pose proof (above_child arrIn _ idv rank Hrank e c Hein Hc). lia. }
      rewrite Hsub. cbn [rbind].
      apply tree_run in Hsub as (Hsd2 & _); [|done].
      apply IHrest.
      + eapply same_data_trans; [done|]. apply same_data_set. set_solver.
      + intros x Hx. apply Hin. by right. }
  destruct (Hl (el :: els) h Hsd) as [h' ->]; [by rewrite Hk|].
  cbn [rbind]. eauto.
Qed.

End TreeRun.

(** * The claims of the specification *)

Section Claims.
Context {num : Type} {N : Number num} {L : NumberLaws num}.

Abbreviation value := (value num).
Abbreviation heap := (list (gmap string value)).

(** The listing of a hierarchy read with the filter of [array2Tree] and
    [array2SortByTree]. *)
Lemma tree_listing (h : heap) arrIn idKey parentKey k :
  ids_unique arrIn (λ x, get h x idKey) →
  acyclic arrIn (match_tree h parentKey) (λ x, get h x idKey) →
  root_exclusive arrIn (match_tree h parentKey) (λ x, get h x idKey) VNull →
  ∃ w, walk arrIn (match_tree h parentKey) (λ x, get h x idKey)
         (S (length arrIn) + k) VNull = Some w
     ∧ NoDup w ∧ (∀ x, x ∈ w → x ∈ arrIn)
     ∧ (no_orphan arrIn (match_tree h parentKey) (λ x, get h x idKey) VNull →
        w ≡ₚ arrIn).
Proof.
  intros Hids [rank Hrank] Hrx.
  destruct (walk_fuel arrIn (match_tree h parentKey) (λ x, get h x idKey) VNull
              rank Hrank (S (length arrIn) + k)) as [w Hw]; [lia|].
  assert (Hpar : ∀ p q x,
    reach arrIn (match_tree h parentKey) (λ x, get h x idKey) VNull p →
    reach arrIn (match_tree h parentKey) (λ x, get h x idKey) VNull q →
    x ∈ kids arrIn (match_tree h parentKey) (get h p idKey) →
    x ∈ kids arrIn (match_tree h parentKey) (get h q idKey) → p = q).
  { intros p q x Hp Hq. apply (tree_single_parent h arrIn idKey parentKey Hids Hrx).
    - eapply reach_in; exact Hp.
    - eapply reach_in; exact Hq. }
  assert (Hroot : ∀ p x,
    reach arrIn (match_tree h parentKey) (λ x, get h x idKey) VNull p →
    x ∈ kids arrIn (match_tree h parentKey) VNull →
    x ∉ kids arrIn (match_tree h parentKey) (get h p idKey)).
  { intros p x Hp. apply Hrx. eapply reach_in; exact Hp. }
  exists w. split; [done|]. split_and!.
  - eapply walk_NoDup; [exact Hrank|apply Hids|exact Hpar|exact Hroot|exact Hw].
  - intros x Hx. eapply walk_subseteq; [exact Hw|exact Hx].
  - intros Horph.
    eapply walk_Permutation; [exact Hrank|apply Hids|exact Hpar|exact Hroot|done|exact Hw].
Qed.

(** The same with the filter of [array2SortAndWeight]. *)
Lemma weight_listing (h : heap) arrIn idKey parentKey k :
  ids_unique arrIn (λ x, get h x idKey) →
  acyclic arrIn (match_weight h parentKey) (λ x, get h x idKey) →
  ∃ w, walk arrIn (match_weight h parentKey) (λ x, get h x idKey)
         (S (length arrIn) + k) VNull = Some w
     ∧ NoDup w ∧ (∀ x, x ∈ w → x ∈ arrIn).
Proof.
  intros Hids [rank Hrank].
  destruct (walk_fuel arrIn (match_weight h parentKey) (λ x, get h x idKey) VNull
              rank Hrank (S (length arrIn) + k)) as [w Hw]; [lia|].
  exists w. split; [done|]. split.
  - eapply walk_NoDup; [exact Hrank|apply Hids| | |exact Hw].
    + intros p q x. by eapply weight_single_parent.
    + intros p x. by eapply weight_root_exclusive.
  - intros x Hx. eapply walk_subseteq; [exact Hw|exact Hx].
Qed.

(** C1, amended: on a hierarchy -- identifiers unique, every record matched
    by the root marker or by exactly one identifier and not by both, no
    cycle -- and with field names that are non-empty and not among the
    fields it writes, [array2SortByTree] called with the default [startWith]
    and an empty accumulator returns a permutation of the input, and the
    records keep every field but [$level], [$index], [$tree_index] and
    [$is_leaf]. *)
Theorem sort_by_tree_permutation (h : heap) arrIn idKey parentKey lvl pidx k :
  idKey ∉ sort_fields → parentKey ∉ sort_fields →
  idKey ≠ "" → parentKey ≠ "" →
  valid h arrIn →
  ids_unique arrIn (λ x, get h x idKey) →
  acyclic arrIn (match_tree h parentKey) (λ x, get h x idKey) →
  root_exclusive arrIn (match_tree h parentKey) (λ x, get h x idKey) VNull →
  no_orphan arrIn (match_tree h parentKey) (λ x, get h x idKey) VNull →
  ∃ h' out,
    array2SortByTree (S (length arrIn) + k) h arrIn idKey parentKey VNull lvl [] pidx
      = Ok (h', out)
    ∧ out ≡ₚ arrIn
    ∧ same_data sort_fields h h'.
Proof.
  intros Hid Hpk Hidne Hpkne Hvalid Hids Hacyc Hrx Horph.
  destruct (tree_listing h arrIn idKey parentKey k Hids Hacyc Hrx)
    as (w & Hw & Hnd & Hsub & Hperm).
  destruct (sort_run h arrIn idKey parentKey Hid Hpk Hidne Hpkne Hvalid Hids
              _ h VNull lvl [] pidx w (same_data_refl _ _) Hw Hnd Hsub)
    as (h' & Hrun & Hsd & _).
  exists h', w. split; [done|]. split; [by apply Hperm|done].
Qed.



Lemma sort_fields_weight k : k ∉ weight_fields → k ∉ sort_fields.
Proof. unfold weight_fields, sort_fields. set_solver. Qed.







End Claims.

(** * The two arithmetics *)

(** ** IEEE binary64 *)

Lemma SFeqb_finite s1 m1 e1 s2 m2 e2 :
  SFeqb (S754_finite s1 m1 e1) (S754_finite s2 m2 e2) = true
  ↔ s1 = s2 ∧ m1 = m2 ∧ e1 = e2.
Proof.
  unfold SFeqb, SFcompare.
  change (Pos.compare_cont Eq m1 m2) with (Pos.compare m1 m2).
  destruct s1, s2; try (split; [done|by intros [? _]]).
  - destruct (Z.compare_spec e1 e2) as [->| |]; try (split; [done|intros (_ & _ & ?); lia]).
    destruct (Pos.compare_spec m1 m2) as [->| |]; simpl;
      try (split; [done|intros (_ & ? & _); lia]).
  - destruct (Z.compare_spec e1 e2) as [->| |]; try (split; [done|intros (_ & _ & ?); lia]).
    destruct (Pos.compare_spec m1 m2) as [->| |]; simpl;
      try (split; [done|intros (_ & ? & _); lia]).
Qed.

Lemma SFeqb_sym f1 f2 : SFeqb f1 f2 = SFeqb f2 f1.
Proof.
  destruct f1 as [[]|[]| |s1 m1 e1], f2 as [[]|[]| |s2 m2 e2]; try done;
    try (by destruct s1); try (by destruct s2).
  destruct (SFeqb (S754_finite s2 m2 e2) (S754_finite s1 m1 e1)) eqn:E.
  - apply SFeqb_finite in E as (-> & -> & ->). by apply SFeqb_finite.
  - destruct (SFeqb (S754_finite s1 m1 e1) (S754_finite s2 m2 e2)) eqn:E'; [|done].
    apply SFeqb_finite in E' as (<- & <- & <-).
    rewrite <- E. symmetry. by apply SFeqb_finite.
Qed.

Lemma SFeqb_trans f1 f2 f3 : SFeqb f1 f2 = true → SFeqb f2 f3 = true → SFeqb f1 f3 = true.
Proof.
  destruct f1 as [[]|[]| |s1 m1 e1], f2 as [[]|[]| |s2 m2 e2]; try done;
    try (by destruct s1); try (by destruct s2);
    destruct f3 as [[]|[]| |s3 m3 e3]; try done;
    try (by destruct s1); try (by destruct s2); try (by destruct s3).
  rewrite !SFeqb_finite. naive_solver.
Qed.

Lemma float_eqb_zero (z : float) :
  PrimFloat.eqb z PrimFloat.zero = true → z = PrimFloat.zero ∨ z = PrimFloat.neg_zero.
Proof.
  rewrite FloatAxioms.eqb_spec.
  change (Prim2SF PrimFloat.zero) with (S754_zero false).
  destruct (Prim2SF z) as [s|[]| |[] m e] eqn:E; try done.
  intros _. rewrite <- (SF2Prim_Prim2SF z), E. destruct s; [by right|by left].
Qed.

#[export] Instance ieee_laws : NumberLaws float.
Proof.
  split; simpl.
  - intros x y. rewrite !FloatAxioms.eqb_spec. apply SFeqb_sym.
  - intros x y z. rewrite !FloatAxioms.eqb_spec. apply SFeqb_trans.
  - intros z Hz. by destruct (float_eqb_zero z Hz) as [->| ->].
  - intros x z Hz. rewrite <- (SF2Prim_Prim2SF (x / z)), div_spec.
    assert (Prim2SF z = S754_zero false ∨ Prim2SF z = S754_zero true) as [-> | ->].
    { destruct (float_eqb_zero z Hz) as [->| ->]; [by left|by right]. }
    + destruct (Prim2SF x) as [[]|[]| |[] ? ?]; done.
    + destruct (Prim2SF x) as [[]|[]| |[] ? ?]; done.
  - intros z Hz. by destruct (float_eqb_zero z Hz) as [->| ->].
Qed.

(** ** Exact arithmetic *)

Lemma Qeq_bool_sym (p q : Q) : Qeq_bool p q = Qeq_bool q p.
Proof.
  destruct (Qeq_bool q p) eqn:E.
  - apply Qeq_bool_iff. symmetry. by apply Qeq_bool_iff.
  - destruct (Qeq_bool p q) eqn:E'; [|done].
    rewrite <- E. symmetry. apply Qeq_bool_iff. symmetry. by apply Qeq_bool_iff.
Qed.

#[export] Instance exact_laws : NumberLaws xnum.
Proof.
  split; simpl.
  - intros [p|s|] [q|t|]; simpl; try done; [apply Qeq_bool_sym|by destruct s, t].
  - intros [p|s|] [q|t|] [r|u|]; simpl; try done.
    + rewrite !Qeq_bool_iff. intros -> ->. reflexivity.
    + by destruct s, t, u.
  - by intros [q|s|].
  - intros [p|s|] [q|t|]; simpl; try done. intros ->. by destruct (Qeq_bool p 0).
  - intros [q|t|]; simpl; try done. by intros ->.
Qed.




Section ExactShares.

Abbreviation xheap := (list (gmap string (value xnum))).



End ExactShares.

(** ** array2Tree, then tree2Array *)

Section JsonCopy.
Context {num : Type} {N : Number num}.

Abbreviation value := (value num).
Abbreviation json := (json num).
Abbreviation obj := (gmap string value).
Abbreviation heap := (list (gmap string value)).

Lemma stringify_array d (h : heap) vs :
  stringify d h (VArr vs) =
  let! items := stringify_items (stringify d h) vs in Ok (Some (JArr items)).
Proof. destruct d; reflexivity. Qed.

Lemma stringify_object d (h : heap) l :
  stringify (S d) h (VRef l) =
  let! fields := stringify_fields (stringify d h) (map_to_list (obj_at h l)) in
  Ok (Some (JObj fields)).
Proof. reflexivity. Qed.

Lemma stringify_scalar d (h : heap) v :
  scalar v → v ≠ VUndef → stringify d h v = Ok (scalar_doc v).
Proof. destruct d, v; done. Qed.

Lemma stringify_undefined d (h : heap) : stringify d h VUndef = Ok None.
Proof. by destruct d. Qed.

Lemma parse_array items (h : heap) :
  parse (JArr items) h = let '(h, vs) := parse_items items h in (h, VArr vs).
Proof. reflexivity. Qed.

Lemma parse_object fields (h : heap) :
  parse (JObj fields) h =
  let '(h, o) := parse_fields fields h ∅ in (h ++ [o], VRef (length h)).
Proof. reflexivity. Qed.

Lemma parse_scalar v doc (h : heap) :
  scalar v → scalar_doc v = Some doc → parse doc h = (h, json_value v).
Proof.
  destruct v; try done; simpl; intros _ [= <-]; try done.
  by destruct (n_is_finite _).
Qed.

Lemma stringify_items_cons go v (vs : list value) :
  stringify_items go (v :: vs) =
  let! j := go v in
  let! js := stringify_items go vs in
  Ok (default JNull j :: js).
Proof. reflexivity. Qed.

Lemma stringify_fields_cons rec k (v : value) kvs :
  stringify_fields rec ((k, v) :: kvs) =
  let! j := rec v in
  let! js := stringify_fields rec kvs in
  Ok (match j with Some j => (k, j) :: js | None => js end).
Proof. reflexivity. Qed.

Lemma parse_items_cons j js (h : heap) :
  parse_items (j :: js) h =
  let '(h, v) := parse j h in
  let '(h, vs) := parse_items js h in
  (h, v :: vs).
Proof. reflexivity. Qed.

Lemma parse_fields_cons k j kjs (h : heap) (o : obj) :
  parse_fields ((k, j) :: kjs) h o =
  let '(h, v) := parse j h in parse_fields kjs h (<[k := v]> o).
Proof. reflexivity. Qed.

(** Objects of a heap that later heaps extend. *)
Lemma obj_at_prefix (h h' : heap) l :
  h `prefix_of` h' → l < length h → obj_at h' l = obj_at h l.
Proof.
  intros [ext ->] Hl. unfold obj_at. by rewrite lookup_app_l.
Qed.

Lemma get_prefix (h h' : heap) l k :
  h `prefix_of` h' → l < length h → get h' l k = get h l k.
Proof. intros Hp Hl. unfold get. by rewrite (obj_at_prefix h h'). Qed.

Lemma repr_agree h0 lo (h h' : heap) f : ∀ ls,
  length h ≤ length h' →
  (∀ l, lo ≤ l < length h → obj_at h' l = obj_at h l) →
  repr h0 lo h f ls → repr h0 lo h' f ls.
Proof.
  intros ls Hlen Hag. revert ls.
  induction f as [|x below IHb rest IHr]; intros [|l ls]; simpl; try done.
  intros (Hl & Hst & Hdata & Hsc & (cs & Hcs & Hbelow) & Hrest).
  assert (Hget : ∀ k, get h' l k = get h l k).
  { intros k. unfold get. by rewrite Hag. }
  split_and!; [lia|lia|done|..].
  - intros k Hk. rewrite Hget. by apply Hdata.
  - intros k Hk. rewrite Hget. by apply Hsc.
  - exists cs. rewrite Hget. split; [done|]. by apply IHb.
  - by apply IHr.
Qed.

Lemma repr_prefix h0 lo (h h' : heap) f ls :
  h `prefix_of` h' → repr h0 lo h f ls → repr h0 lo h' f ls.
Proof.
  intros Hp. apply repr_agree; [by apply prefix_length|].
  intros l Hl. apply obj_at_prefix; [done|lia].
Qed.

Lemma repr_lower h0 lo lo' (h : heap) f : ∀ ls,
  lo' ≤ lo → repr h0 lo h f ls → repr h0 lo' h f ls.
Proof.
  intros ls Hlo. revert ls.
  induction f as [|x below IHb rest IHr]; intros [|l ls]; simpl; try done.
  intros (Hl & Hst & Hdata & Hsc & (cs & Hcs & Hbelow) & Hrest).
  split_and!; [lia|lia|done..| |by apply IHr].
  exists cs. split; [done|]. by apply IHb.
Qed.

Lemma json_value_scalar (v : value) : scalar v → scalar (json_value v).
Proof. destruct v; simpl; try done. intros _. by destruct (n_is_finite _). Qed.

(** The copy of the fields of an object whose [$children] are copied as
    a forest and whose other fields are scalars. *)
Lemma copy_fields h0 (h : heap) d below cs :
  (∃ docs, stringify_items (stringify d h) (VRef <$> cs) = Ok docs
     ∧ ∀ h1, ∃ h2 cs2, parse_items docs h1 = (h2, VRef <$> cs2)
         ∧ h1 `prefix_of` h2 ∧ repr h0 (length h1) h2 below cs2) →
  ∀ kvs : list (string * value), NoDup kvs.*1 →
    (∀ k v, (k, v) ∈ kvs →
       if decide (k = "$children") then v = VArr (VRef <$> cs) else scalar v) →
    ∃ fs, stringify_fields (stringify d h) kvs = Ok fs
      ∧ ∀ h1 (o0 : obj), (∀ k, k ∈ kvs.*1 → o0 !! k = None) →
          ∃ h2 o, parse_fields fs h1 o0 = (h2, o)
            ∧ h1 `prefix_of` h2
            ∧ (∀ k, k ∉ kvs.*1 → o !! k = o0 !! k)
            ∧ (∀ k v, (k, v) ∈ kvs → k ≠ "$children" →
                 default VUndef (o !! k) = json_value v)
            ∧ ("$children" ∈ kvs.*1 →
                 ∃ cs2, o !! "$children" = Some (VArr (VRef <$> cs2))
                        ∧ repr h0 (length h1) h2 below cs2).
Proof.
  intros (docs & Hdocs & Hparse) kvs.
  induction kvs as [|[k v] kvs IH]; intros Hnd Hkv.
  - exists []. split; [done|]. intros h1 o0 _. exists h1, o0.
    split_and!; try done.
    + intros k v Hin. by apply elem_of_nil in Hin.
    + intros Hin. by apply elem_of_nil in Hin.
  - rewrite fmap_cons in Hnd. apply NoDup_cons in Hnd as [Hk Hnd]. simpl in Hk.
    destruct IH as (fs & Hfs & Hp); [done|intros; apply Hkv; by right|].
    pose proof (Hkv k v ltac:(by left)) as Hv.
    rewrite stringify_fields_cons, Hfs.
    case_decide as Hkc.
    + subst k v. rewrite stringify_array, Hdocs. cbn [rbind].
      eexists. split; [done|]. intros h1 o0 Ho0.
      rewrite parse_fields_cons, parse_array.
      destruct (Hparse h1) as (h2 & cs2 & -> & Hpre & Hrepr).
      destruct (Hp h2 (<["$children" := VArr (VRef <$> cs2)]> o0))
        as (h3 & o & -> & Hpre3 & Hout & Hsc & _).
      { intros k Hkin. rewrite lookup_insert_ne by (by intros <-).
        apply Ho0. rewrite fmap_cons. by right. }
      exists h3, o. split_and!; [done|by etrans|..].
      * intros k Hkn. rewrite fmap_cons in Hkn. apply not_elem_of_cons in Hkn as [Hk1 Hk2].
        rewrite Hout by done. by rewrite lookup_insert_ne.
      * intros k v Hin Hkc. apply elem_of_cons in Hin as [[= -> ->]|Hin]; [done|].
        by apply Hsc.
      * intros _. exists cs2. rewrite Hout by done. rewrite lookup_insert_eq.
        split; [done|]. by eapply repr_prefix.
    + assert (v = VUndef ∨ v ≠ VUndef) as [->|Hvu] by (destruct v; by eauto).
      * rewrite stringify_undefined. cbn [rbind].
        exists fs. split; [done|]. intros h1 o0 Ho0.
        destruct (Hp h1 o0) as (h2 & o & -> & Hpre & Hout & Hsc & Hch).
        { intros k' Hk'. apply Ho0. rewrite fmap_cons. by right. }
        exists h2, o. split_and!; [done|done|..].
        -- intros k' Hk'. rewrite fmap_cons in Hk'.
           apply not_elem_of_cons in Hk' as [_ Hk']. by apply Hout.
        -- intros k' v' Hin Hk'. apply elem_of_cons in Hin as [[= -> ->]|Hin].
           ++ rewrite Hout by done. rewrite Ho0; [done|]. rewrite fmap_cons. by left.
           ++ by apply Hsc.
        -- intros Hin. rewrite fmap_cons in Hin.
           apply elem_of_cons in Hin as [Hin|Hin]; [done|]. by apply Hch.
      * rewrite stringify_scalar by done.
        destruct (scalar_doc v) as [doc|] eqn:Hdoc; [|by destruct v].
        cbn [rbind]. eexists. split; [done|]. intros h1 o0 Ho0.
        rewrite parse_fields_cons, (parse_scalar v) by done.
        destruct (Hp h1 (<[k := json_value v]> o0))
          as (h2 & o & -> & Hpre & Hout & Hsc & Hch).
        { intros k' Hk'. rewrite lookup_insert_ne by (by intros <-).
          apply Ho0. rewrite fmap_cons. by right. }
        exists h2, o. split_and!; [done|done|..].
        -- intros k' Hk'. rewrite fmap_cons in Hk'.
           apply not_elem_of_cons in Hk' as [Hk1 Hk2].
           rewrite Hout by done. by rewrite lookup_insert_ne.
        -- intros k' v' Hin Hk'. apply elem_of_cons in Hin as [[= -> ->]|Hin].
           ++ rewrite Hout by done. by rewrite lookup_insert_eq.
           ++ by apply Hsc.
        -- intros Hin. rewrite fmap_cons in Hin.
           apply elem_of_cons in Hin as [Hin|Hin]; [done|]. by apply Hch.
Qed.

Lemma obj_at_fresh (h h' : heap) (o : obj) :
  (h ++ [o]) `prefix_of` h' → obj_at h' (length h) = o.
Proof.
  intros Hp. rewrite (obj_at_prefix (h ++ [o]) h') by (rewrite ?length_app; simpl; done || lia).
  unfold obj_at. by rewrite lookup_app_r, Nat.sub_diag.
Qed.

Lemma fields_of_object (h : heap) l k v :
  (k, v) ∈ map_to_list (obj_at h l) → get h l k = v.
Proof. intros Hin%elem_of_map_to_list. unfold get. by rewrite Hin. Qed.

Lemma field_of_object (h : heap) l k :
  k ∈ (map_to_list (obj_at h l)).*1 ∨ obj_at h l !! k = None.
Proof.
  destruct (obj_at h l !! k) as [v|] eqn:E; [left|by right].
  apply list_elem_of_fmap. exists (k, v). split; [done|]. by apply elem_of_map_to_list.
Qed.

(** A forest of a heap is copied object for object. *)
Lemma copy_forest h0 lo (h : heap) f : ∀ d cs,
  repr h0 lo h f cs → height f ≤ d →
  ∃ docs, stringify_items (stringify d h) (VRef <$> cs) = Ok docs
    ∧ ∀ h1, ∃ h2 cs2, parse_items docs h1 = (h2, VRef <$> cs2)
        ∧ h1 `prefix_of` h2 ∧ repr h0 (length h1) h2 f cs2.
Proof.
  induction f as [|x below IHb rest IHr]; intros d [|l ls] Hr Hd;
    simpl in Hr, Hd; try done.
  { exists []. split; [done|]. intros h1. by exists h1, []. }
  destruct Hr as (Hl & Hst & Hdata & Hsc & (cs & Hcs & Hbelow) & Hrest).
  destruct d as [|d]; [lia|].
  destruct (IHr (S d) ls Hrest ltac:(lia)) as (docsR & HdocsR & HparseR).
  destruct (copy_fields h0 h d below cs (IHb d cs Hbelow ltac:(lia))
              (map_to_list (obj_at h l)))
    as (fs & Hfs & Hp).
  { apply NoDup_fst_map_to_list. }
  { intros k v Hin%fields_of_object. case_decide as Hk.
    - subst k. congruence.
    - rewrite <- Hin. by apply Hsc. }
  rewrite fmap_cons, stringify_items_cons, stringify_object, Hfs. cbn [rbind].
  rewrite HdocsR. cbn [rbind].
  exists (JObj fs :: docsR). split; [done|]. intros h1.
  rewrite parse_items_cons, parse_object.
  destruct (Hp h1 ∅) as (h2 & o & -> & Hpre & Hout & Hval & Hch).
  { intros k _. apply lookup_empty. }
  destruct (HparseR (h2 ++ [o])) as (h3 & cs3 & -> & Hpre3 & Hrepr3).
  exists h3, (length h2 :: cs3). split; [done|].
  assert (Hlen : length h1 ≤ length h2 < length h3).
  { apply prefix_length in Hpre, Hpre3. rewrite length_app in Hpre3. simpl in *. lia. }
  assert (Hget : ∀ k, get h3 (length h2) k = default VUndef (o !! k)).
  { intros k. unfold get. by rewrite (obj_at_fresh h2 h3 o). }
  assert (Hpre23 : h2 `prefix_of` h3).
  { etrans; [|exact Hpre3]. by apply prefix_app_r. }
  split; [by etrans|]. simpl. split_and!; [lia|lia|done|..].
  - intros k Hk. rewrite Hget.
    destruct (field_of_object h l k) as [Hin|Hno].
    + apply list_elem_of_fmap in Hin as ([k' v] & -> & Hin). simpl.
      rewrite (Hval k' v) by (done || (intros ->; apply Hk; set_solver)).
      apply fields_of_object in Hin. rewrite <- Hin, Hdata by done.
      by apply Hst.
    + rewrite Hout, lookup_empty.
      * rewrite <- Hdata by done. unfold get. by rewrite Hno.
      * intros Hin. apply list_elem_of_fmap in Hin as ([k' v] & -> & Hin).
        apply elem_of_map_to_list in Hin. simpl in Hno. congruence.
  - intros k Hk. rewrite Hget.
    destruct (field_of_object h l k) as [Hin|Hno].
    + apply list_elem_of_fmap in Hin as ([k' v] & -> & Hin). simpl.
      rewrite (Hval k' v) by done. apply json_value_scalar.
      apply fields_of_object in Hin. rewrite <- Hin. by apply Hsc.
    + rewrite Hout, lookup_empty; [done|].
      intros Hin. apply list_elem_of_fmap in Hin as ([k' v] & -> & Hin).
      apply elem_of_map_to_list in Hin. simpl in Hno. congruence.
  - destruct Hch as (cs2 & Ho & Hrepr2).
    { destruct (field_of_object h l "$children") as [Hin|Hno]; [done|].
      unfold get in Hcs. by rewrite Hno in Hcs. }
    exists cs2. rewrite Hget, Ho. split; [done|].
    by eapply repr_prefix.
  - eapply repr_lower; [|exact Hrepr3]. rewrite length_app. simpl. lia.
Qed.

Lemma json_copy_forest h0 lo (h : heap) f cs :
  repr h0 lo h f cs → height f ≤ S (length h) →
  ∃ h2 cs2, json_copy h (VArr (VRef <$> cs)) = Ok (h2, VArr (VRef <$> cs2))
    ∧ h `prefix_of` h2 ∧ repr h0 (length h) h2 f cs2.
Proof.
  intros Hrepr Hh. unfold json_copy. rewrite stringify_array.
  destruct (copy_forest h0 lo h f _ cs Hrepr Hh) as (docs & -> & Hparse).
  cbn [rbind]. rewrite parse_array.
  destruct (Hparse h) as (h2 & cs2 & -> & Hpre & Hr). by exists h2, cs2.
Qed.

End JsonCopy.

(** ** tree2Array on a forest *)

Section FlattenForest.
Context {num : Type} {N : Number num}.

Abbreviation value := (value num).
Abbreviation obj := (gmap string value).
Abbreviation heap := (list (gmap string value)).

Lemma flatten_loop_cons rec key pv el rest (h : heap) myId roots :
  flatten_loop rec key pv (VRef el :: rest) h myId roots =
  let node := length h in
  let myId1 := n_add myId n_one in
  let h1 := set (set (h ++ [obj_at h el]) node "$id" (VNum myId1))
              node "$parent_id" pv in
  if truthy (get h1 el key) then
    let! (h2, subs) := json_copy h1 (get h1 el key) in
    let! (h4, myId4, subTree) := rec (del h2 node key) myId1 subs (VNum myId1) in
    flatten_loop rec key pv rest h4 myId4 ((roots ++ [node]) ++ subTree)
  else flatten_loop rec key pv rest h1 myId1 (roots ++ [node]).
Proof. reflexivity. Qed.

Lemma obj_at_del_other (h : heap) l k l' :
  l ≠ l' → obj_at (del h l k) l' = obj_at h l'.
Proof. intros Hl. unfold del, obj_at. by rewrite list_lookup_insert_ne. Qed.

Lemma get_del_other (h : heap) l k l' k' :
  k ≠ k' → get (del h l k) l' k' = get h l' k'.
Proof.
  intros Hk. unfold get. destruct (decide (l = l')) as [<-|Hl].
  - unfold del, obj_at at 1. destruct (decide (l < length h)).
    + rewrite list_lookup_insert_eq by done. simpl. by rewrite lookup_delete_ne.
    + by rewrite list_insert_ge by lia.
  - by rewrite obj_at_del_other.
Qed.

Lemma same_record_prefix h0 (h h' : heap) node x :
  h `prefix_of` h' → same_record h0 h node x → same_record h0 h' node x.
Proof.
  intros Hp [Hl Hd]. split.
  - apply prefix_length in Hp. lia.
  - intros k Hk. rewrite (get_prefix h h') by done. by apply Hd.
Qed.

(** [tree2Array] lists a forest of the heap in pre-order, each node with
    the data of its record. *)
Lemma flatten_forest h0 f : ∀ fuel lo (h : heap) myId ls pv lvl roots,
  repr h0 lo h f ls → height f ≤ fuel → height f ≤ S (length h) →
  ∃ h' myId' out,
    flatten_loop
      (λ h myId subs p, tree2Array fuel h myId subs "$children" p (n_add lvl n_one))
      "$children" pv (VRef <$> ls) h myId roots = Ok (h', myId', roots ++ out)
    ∧ h `prefix_of` h'
    ∧ Forall2 (same_record h0 h') out (preorder f).
Proof.
  induction f as [|x below IHb rest IHr];
    intros fuel lo h myId [|l ls] pv lvl roots Hr Hfuel Hh; simpl in Hr; try done.
  { exists h, myId, []. rewrite app_nil_r. by split_and!. }
  destruct Hr as (Hl & Hst & Hdata & Hsc & (cs & Hcs & Hbelow) & Hrest).
  simpl in Hfuel, Hh. destruct fuel as [|fuel]; [lia|].
  rewrite fmap_cons, flatten_loop_cons. cbv zeta.
  set (myId1 := n_add myId n_one).
  set (h1 := set (set (h ++ [obj_at h l]) (length h) "$id" (VNum myId1))
               (length h) "$parent_id" pv).
  assert (Hh1 : h `prefix_of` h1).
  { unfold h1. do 2 (apply prefix_set; [done|]). by apply prefix_app_r. }
  assert (Hlen1 : length h1 = S (length h)).
  { unfold h1. rewrite !length_set, length_app. simpl. lia. }
  rewrite (get_prefix h h1) by (done || lia). rewrite Hcs. cbn [truthy].
  destruct (json_copy_forest h0 lo h1 below cs) as (h2 & cs2 & -> & Hh2 & Hr2).
  { by eapply repr_prefix. }
  { lia. }
  cbn [rbind]. cbv beta iota.
  set (h3 := del h2 (length h) "$children").
  assert (Hlen2 : length h1 ≤ length h2) by (by apply prefix_length).
  assert (Hlen3 : length h3 = length h2) by apply length_del.
  assert (Hh3 : h `prefix_of` h3).
  { apply prefix_del; [done|]. by etrans. }
  assert (Hr3 : repr h0 (length h1) h3 below cs2).
  { eapply repr_agree; [|intros l' Hl'|exact Hr2]; [lia|].
    apply obj_at_del_other. lia. }
  rewrite tree2Array_unfold.
  destruct (IHb fuel (length h1) h3 myId1 cs2 (VNum myId1) (n_add lvl n_one) [] Hr3)
    as (h4 & myId4 & outb & -> & Hh4 & Hob); [lia|lia|].
  cbn [rbind app]. cbv beta iota.
  destruct (IHr (S fuel) lo h4 myId4 ls pv lvl ((roots ++ [length h]) ++ outb))
    as (h' & myId' & outr & -> & Hh' & Hor).
  { eapply repr_prefix; [|exact Hrest]. by etrans. }
  { lia. }
  { apply prefix_length in Hh4. lia. }
  exists h', myId', (length h :: outb ++ outr). split_and!.
  - f_equal. f_equal. by rewrite <- !app_assoc.
  - by do 2 (etrans; [|eassumption]).
  - simpl. constructor; [|apply Forall2_app; [|done]].
    + apply (same_record_prefix h0 h3); [by etrans|]. split; [lia|].
      intros k Hk. unfold h3. rewrite get_del_other by (intros <-; apply Hk; set_solver).
      rewrite (get_prefix h1 h2) by (done || lia). unfold h1.
      rewrite !get_set_other by (left; intros <-; apply Hk; set_solver).
      rewrite <- Hdata by done. unfold get. by rewrite (obj_at_fresh h _ (obj_at h l)).
    + eapply Forall2_impl; [exact Hob|]. intros node y. by apply same_record_prefix.
Qed.

End FlattenForest.

(** ** The tree of array2Tree is such a forest *)

Section BuiltForest.
Context {num : Type} {N : Number num} {L : NumberLaws num}.

Abbreviation value := (value num).
Abbreviation heap := (list (gmap string value)).

Variables (h0 : heap) (arrIn : list loc) (idKey parentKey : string).

Abbreviation idv := (λ x : loc, get h0 x idKey).
Abbreviation kidsT := (kids arrIn (match_tree h0 parentKey)).
Abbreviation walkT := (walk arrIn (match_tree h0 parentKey) idv).
Abbreviation forestT := (forest_of arrIn (match_tree h0 parentKey) idv).


Lemma scalars_set (h : heap) l k v :
  scalars arrIn h → k = "$children" ∨ scalar v → scalars arrIn (set h l k v).
Proof.
  intros Hs Hv x k' Hx Hk'. unfold get. rewrite obj_at_set.
  case_decide as Hd; [|by apply Hs]. destruct Hd as [-> _].
  destruct (decide (k = k')) as [->|Hne].
  - rewrite lookup_insert_eq. simpl. by destruct Hv.
  - rewrite lookup_insert_ne by done. by apply Hs.
Qed.

Lemma tree_scalars n : ∀ (h : heap) s lvl h' ret,
  scalars arrIn h →
  array2Tree n h arrIn idKey parentKey s lvl = Ok (h', ret) → scalars arrIn h'.
Proof.
  induction n as [|n IH]; intros h s lvl h' ret Hs; [done|].
  rewrite array2Tree_unfold.
  destruct (filter _ arrIn) as [|el els].
  - intros [= <- <-]. destruct (List.find _ arrIn); simpl; [|done].
    apply scalars_set; [done|by right].
  - destruct (tree_loop _ idKey lvl (el :: els) h) as [h1| | |] eqn:Hloop; [|done..].
    cbn [rbind]. intros [= <- <-]. revert Hloop. generalize (el :: els).
    intros rest. revert h Hs. clear el els.
    induction rest as [|e rest IHrest]; intros h Hs; cbn [tree_loop].
    + by intros [= <-].
    + destruct (array2Tree n _ arrIn idKey parentKey _ (n_add lvl n_one))
        as [[h2 sub]| | |] eqn:Hsub; [|done..].
      apply IH in Hsub; [|apply scalars_set; [done|by right]].
      cbn [rbind]. apply IHrest. apply scalars_set; [done|by left].
Qed.

Lemma preorder_forest_of n : ∀ s w,
  walkT n s = Some w → preorder (forestT n s) = w.
Proof.
  induction n as [|n IH]; intros s w; [done|]. simpl.
  generalize (kidsT s). intros els. revert w.
  induction els as [|el els IHels]; intros w.
  - by intros [= <-].
  - intros (w1 & wr & Hw1 & Hwr & ->)%walk_each_cons.
    cbn [foldr preorder]. by rewrite (IH _ _ Hw1), (IHels _ Hwr).
Qed.

Lemma height_forest_of n : ∀ s, height (forestT n s) ≤ n.
Proof.
  induction n as [|n IH]; intros s; [done|]. simpl.
  generalize (kidsT s). intros els.
  induction els as [|el els IHels]; simpl; [lia|].
  pose proof (IH (idv el)). lia.
Qed.

Lemma built_children (h : heap) x :
  built h0 arrIn idKey parentKey h x →
  get h x "$children" = VArr (VRef <$> kidsT (idv x))
  ∧ ∀ c, c ∈ kidsT (idv x) → built h0 arrIn idKey parentKey h c.
Proof. by destruct 1. Qed.

Lemma built_repr (h : heap) n : ∀ s w,
  same_data tree_fields h0 h → scalars arrIn h → valid h0 arrIn →
  (∀ x, x ∈ arrIn → json_stable h0 x) →
  walkT n s = Some w →
  (∀ x, x ∈ kidsT s → built h0 arrIn idKey parentKey h x) →
  repr h0 0 h (forestT n s) (kidsT s).
Proof.
  intros s w Hsd Hsc Hvalid Hst. revert s w.
  induction n as [|n IH]; intros s w; [done|]. simpl.
  assert (Hin : ∀ x, x ∈ kidsT s → x ∈ arrIn).
  { intros x Hx. exact (kids_in _ _ idv _ x Hx). }
  revert Hin. generalize (kidsT s). intros els. revert w.
  induction els as [|el els IHels]; intros w Hin; [done|].
  intros (w1 & wr & Hw1 & Hwr & ->)%walk_each_cons Hb.
  assert (Hel : el ∈ arrIn) by (apply Hin; by left).
  destruct (built_children h el (Hb el ltac:(by left))) as [Hch Hkids].
  cbn [foldr repr]. split_and!.
  - lia.
  - destruct Hsd as [-> _]. by eapply Forall_forall in Hvalid.
  - by apply Hst.
  - intros k Hk. apply Hsd. set_solver.
  - intros k Hk. by apply Hsc.
  - exists (kidsT (idv el)). split; [done|]. by eapply IH.
  - eapply IHels; [|done|].
    + intros x Hx. apply Hin. by right.
    + intros x Hx. apply Hb. by right.
Qed.

End BuiltForest.

Section RoundTrip.
Context {num : Type} {N : Number num} {L : NumberLaws num}.

Abbreviation value := (value num).
Abbreviation heap := (list (gmap string value)).

(** C6, amended: on a non-empty hierarchy -- identifiers unique, no cycle,
    every record matched by the root marker or by an identifier and not
    by both -- whose fields are scalars that a JSON copy returns as they
    are, [array2Tree] followed by [tree2Array] on [$children] returns one
    node per record of the input, in some order, each with the fields of
    its record up to [$level], [$children], [$is_leaf], [$id] and
    [$parent_id]. *)
Theorem tree_round_trip (h : heap) arrIn idKey parentKey lvl myId pv lvl2 k :
  idKey ∉ tree_fields → parentKey ∉ tree_fields →
  valid h arrIn → arrIn ≠ [] →
  ids_unique arrIn (λ x, get h x idKey) →
  acyclic arrIn (match_tree h parentKey) (λ x, get h x idKey) →
  root_exclusive arrIn (match_tree h parentKey) (λ x, get h x idKey) VNull →
  no_orphan arrIn (match_tree h parentKey) (λ x, get h x idKey) VNull →
  scalars arrIn h →
  (∀ x, x ∈ arrIn → json_stable h x) →
  ∃ h1 tree h2 myId' out origin,
    array2Tree (S (length arrIn) + k) h arrIn idKey parentKey VNull lvl
      = Ok (h1, tree)
    ∧ tree2Array (S (S (length arrIn)) + k) h1 myId tree "$children" pv lvl2
      = Ok (h2, myId', out)
    ∧ origin ≡ₚ arrIn
    ∧ Forall2 (same_record h h2) out origin.
Proof.
  intros Hid Hpk Hvalid Hne Hids Hacyc Hrx Horph Hsc Hst.
  destruct (tree_listing h arrIn idKey parentKey 0 Hids Hacyc Hrx)
    as (w & Hw & _ & _ & Hperm).
  specialize (Hperm Horph). destruct Hacyc as [rank Hrank].
  destruct (tree_returns h arrIn idKey parentKey Hid Hpk Hvalid rank Hrank
              (S (length arrIn) + k) h VNull lvl (same_data_refl _ _))
    as (h1 & ret & Hrun); [|lia|].
  { intros el Hel. apply (kids_in _ _ (λ x, get h x idKey)) in Hel.
    pose proof (above_lt arrIn _ _ rank Hrank el Hel). lia. }
  destruct (tree_run h arrIn idKey parentKey Hid Hpk Hvalid _ _ _ _ _ _
              (same_data_refl _ _) Hrun) as (Hsd & _ & Hret & Hbuilt & _).
  pose proof (tree_scalars arrIn idKey parentKey _ _ _ _ _ _ Hsc Hrun) as Hsc1.
  assert (Hroots : kids arrIn (match_tree h parentKey) VNull ≠ []).
  { intros Hk. simpl in Hw. rewrite Hk in Hw. injection Hw as <-.
    apply Permutation_nil_l in Hperm. done. }
  rewrite decide_False in Hret by done. subst ret.
  pose proof (built_repr h arrIn idKey parentKey h1 _ VNull w Hsd Hsc1 Hvalid Hst Hw Hbuilt)
    as Hrepr.
  assert (Hlen : length arrIn ≤ length h).
  { trans (length (seq 0 (length h))); [|by rewrite length_seq].
    apply NoDup_subseteq_length; [apply Hids|].
    intros x Hx. apply elem_of_seq. eapply Forall_forall in Hvalid; [|done]. lia. }
  pose proof (height_forest_of h arrIn idKey parentKey (S (length arrIn) + 0) VNull) as Hht.
  destruct (flatten_forest h _ (S (length arrIn) + k) 0 h1 myId _ pv lvl2 [] Hrepr)
    as (h2 & myId' & out & Hflat & _ & Hout).
  { lia. }
  { destruct Hsd as [-> _]. lia. }
  exists h1, (VArr (VRef <$> kids arrIn (match_tree h parentKey) VNull)), h2, myId', out, w.
  split; [done|]. split; [|split; [done|]].
  - change (S (S (length arrIn)) + k) with (S (S (length arrIn) + k)).
    rewrite tree2Array_unfold. exact Hflat.
  - by rewrite <- (preorder_forest_of h arrIn idKey parentKey _ _ _ Hw).
Qed.

End RoundTrip.

(** ** array2SortAndWeight returns on numeric weights *)

Section WeightReturns.
Context {num : Type} {N : Number num} {L : NumberLaws num}.

Abbreviation value := (value num).
Abbreviation heap := (list (gmap string value)).

Variables (h0 : heap) (arrIn : list loc) (idKey parentKey weightKey : string).

Hypothesis Hpk : parentKey ∉ weight_fields.
Hypothesis Hwk : weightKey ∉ weight_fields.
Hypothesis Hvalid : valid h0 arrIn.
Hypothesis Hnum : numeric_weights h0 arrIn weightKey.



End WeightReturns.

Section Guard.
Context {num : Type} {N : Number num} {L : NumberLaws num}.

Abbreviation value := (value num).
Abbreviation heap := (list (gmap string value)).


End Guard.

(** * The claims on concrete inputs *)

Lemma ok_after {num A : Type} (r : result (list (gmap string (value num)) * A)) out :
  emitted r = Some out → r = Ok (heap_after r, out).
Proof. destruct r as [[h a]| | |]; simpl; congruence. Qed.

Lemma ok_flat {H M A : Type} (r : result (H * M * A)) out :
  emitted r = Some out → ∃ h m, r = Ok (h, m, out).
Proof. destruct r as [[[h m] a]| | |]; simpl; [|done..]. intros [= ->]. eauto. Qed.

Lemma departments_valid : valid departments [0; 1; 2].
Proof. apply Forall_forall. intros x Hx. cases Hx; vm_compute; lia. Qed.

Lemma departments_ids : ids_unique [0; 1; 2] (λ x, get departments x "id").
Proof.
  split.
  - repeat (apply NoDup_cons; split; [not_member|]). apply NoDup_nil_2.
  - intros x y Hx Hy. cases Hx; cases Hy; vm_compute; split; intros E; done.
Qed.

Lemma departments_acyclic (child : value float → loc → bool) :
  (child = match_tree departments "parent_id"
   ∨ child = match_weight departments "parent_id") →
  acyclic [0; 1; 2] child (λ x, get departments x "id").
Proof.
  intros Hc. exists (λ x, x). intros p x Hp Hx.
  destruct Hc as [-> | ->]; cases Hp; evaluate_in Hx; cases Hx; lia.
Qed.

Lemma departments_root_exclusive :
  root_exclusive [0; 1; 2] (match_tree departments "parent_id") (λ x, get departments x "id") VNull.
Proof. intros p x Hp Hx. evaluate_in Hx. cases Hx. cases Hp; not_member. Qed.

Lemma departments_no_orphan :
  no_orphan [0; 1; 2] (match_tree departments "parent_id") (λ x, get departments x "id") VNull.
Proof.
  intros x Hx. cases Hx; [left; member|right..]; exists 0; (split; [member|member]).
Qed.

Lemma departments_numeric : numeric_weights departments [0; 1; 2] "weight".
Proof.
  intros x Hx. exists (weight departments "weight" x). cases Hx; vm_compute; reflexivity.
Qed.

(** ** array2SortByTree (C1) *)

(** C1 on the departments. *)
Lemma sort_by_tree_permutation_witness :
  ∃ h' out,
    array2SortByTree 4 departments [0; 1; 2] "id" "parent_id" VNull 1%float [] None
      = Ok (h', out)
    ∧ out ≡ₚ [0; 1; 2]
    ∧ same_data sort_fields departments h'.
Proof.
  apply (sort_by_tree_permutation departments [0; 1; 2] "id" "parent_id"
           1%float None 0).
  - not_member.
  - not_member.
  - discriminate.
  - discriminate.
  - exact departments_valid.
  - exact departments_ids.
  - apply departments_acyclic. by left.
  - exact departments_root_exclusive.
  - exact departments_no_orphan.
Defined.

(** C1 as stated fails: the identifiers of [orphans] are unique and its
    parent references have no cycle, and the record whose parent is
    missing is dropped. *)
Lemma sort_by_tree_drops_orphan :
  emitted (array2SortByTree 3 orphans [0; 1] "id" "parent_id" VNull 1%float [] None)
    = Some [0]
  ∧ ¬ [0] ≡ₚ [0; 1].
Proof.
  split; [vm_compute; reflexivity|]. intros Hp. by apply Permutation_length in Hp.
Qed.

(** ... and with identifiers counted from zero, the children of record [0]
    are listed twice: [0 == ''] makes them top-level records too. *)
Lemma sort_by_tree_repeats_children_of_zero :
  emitted (array2SortByTree 5 zero_ids [0; 1; 2; 3] "id" "parent_id" VNull 1%float
             [] None)
    = Some [0; 1; 2; 1; 2; 3].
Proof. vm_compute. reflexivity. Qed.

(** ** array2SortAndWeight (C2, C3, C4, C5) *)



(** C3 on the record with an empty parent field. *)
Lemma empty_parent_matching_differs_witness :
  match_tree blank "parent_id" VNull 0 = true
  ∧ match_weight blank "parent_id" VNull 0 = false.
Proof.
  apply empty_parent_matching_differs; vm_compute; reflexivity.
Defined.

(** The two traversals on that record: [array2SortByTree] lists it,
    [array2SortAndWeight] returns the empty array. *)
Lemma empty_parent_is_listed_by_one_traversal :
  emitted (array2SortByTree 3 blank [0] "id" "parent_id" VNull 1%float [] None)
    = Some [0]
  ∧ emitted (array2SortAndWeight 3 blank [0] "id" "parent_id" "weight" VNull
               1%float 1%float [] None)
    = Some [].
Proof. vm_compute. by split. Qed.




(** ** array2Tree and tree2Array (C6, C7, C8, C10) *)

(** A property of the fields an object holds, and of [undefined], is a
    property of whatever a field access returns. *)
Lemma fields_all {num : Type} (P : value num → Prop)
    (h : list (gmap string (value num))) x :
  P VUndef → Forall (λ kv, P kv.2) (map_to_list (obj_at h x)) →
  ∀ k, P (get h x k).
Proof.
  intros Hu Hall k. unfold get. destruct (obj_at h x !! k) as [v|] eqn:E; [|done].
  apply elem_of_map_to_list in E.
  eapply Forall_forall in Hall; [|exact E]. exact Hall.
Qed.

Lemma departments_scalars : scalars [0; 1; 2] departments.
Proof.
  intros x k Hx _. revert k. cases Hx; each_field (fields_all (@scalar float)).
Qed.

Lemma departments_json_stable x : x ∈ [0; 1; 2] → json_stable departments x.
Proof.
  intros Hx k _. revert k.
  cases Hx;
    each_field (fields_all (λ v : value float, scalar v ∧ json_value v = v)).
Qed.

(** C6 on the departments. *)
Lemma tree_round_trip_witness :
  ∃ h1 tree h2 myId' out origin,
    array2Tree 4 departments [0; 1; 2] "id" "parent_id" VNull 1%float
      = Ok (h1, tree)
    ∧ tree2Array 5 h1 0%float tree "$children" VNull 1%float = Ok (h2, myId', out)
    ∧ origin ≡ₚ [0; 1; 2]
    ∧ Forall2 (same_record departments h2) out origin.
Proof.
  apply (tree_round_trip departments [0; 1; 2] "id" "parent_id"
           1%float 0%float VNull 1%float 0).
  - not_member.
  - not_member.
  - exact departments_valid.
  - discriminate.
  - exact departments_ids.
  - apply departments_acyclic. by left.
  - exact departments_root_exclusive.
  - exact departments_no_orphan.
  - exact departments_scalars.
  - exact departments_json_stable.
Defined.

(** C6 as stated fails: the identifiers of [orphans] are unique and its
    parent references have no cycle, and the two operations return one
    node for its two records. *)
Lemma round_trip_drops_orphan :
  ids_unique [0; 1] (λ x, get orphans x "id")
  ∧ acyclic [0; 1] (match_tree orphans "parent_id") (λ x, get orphans x "id")
  ∧ emitted (array2Tree_tree2Array 3 orphans [0; 1] "id" "parent_id") = Some [2].
Proof.
  split_and!.
  - split.
    + repeat (apply NoDup_cons; split; [not_member|]). apply NoDup_nil_2.
    + intros x y Hx Hy. cases Hx; cases Hy; vm_compute; split; intros E; done.
  - exists (λ x, x). intros p x Hp Hx. cases Hp; evaluate_in Hx; cases Hx.
  - vm_compute. reflexivity.
Qed.

(** ... and on the empty input [array2Tree] returns [undefined], on which
    [tree2Array] throws. *)
Lemma round_trip_throws_on_empty_input :
  array2Tree_tree2Array 3 ([] : list (gmap string (value float))) [] "id" "parent_id"
    = TypeError.
Proof. vm_compute. reflexivity. Qed.

(** ... and a field that holds NaN comes back as [null] for a record below
    the top level: the node of the child of [scores] holds its identifier
    and the score [null]. *)
Lemma round_trip_rewrites_nan :
  let run := array2Tree_tree2Array 3 scores [0; 1] "id" "parent_id" in
  emitted run = Some [2; 4]
  ∧ node_field run 4 "id" = Some (VNum 2%float)
  ∧ get scores 1 "score" = VNum nan
  ∧ node_field run 4 "score" = Some VNull.
Proof. vm_compute. by split_and!. Qed.



(** C8 on a root with two children. *)
Lemma tree2Array_preserves_input_witness :
  ∃ h' myId',
    tree2Array 3 family 0%float (VArr [VRef 0]) "children" VNull 1%float
      = Ok (h', myId', [3; 6; 7])
    ∧ family `prefix_of` h'.
Proof.
  destruct (ok_flat (tree2Array 3 family 0%float (VArr [VRef 0]) "children" VNull
                       1%float) [3; 6; 7]) as (h' & myId' & Hrun).
  { vm_compute. reflexivity. }
  exists h', myId'. split; [exact Hrun|].
  by destruct (tree2Array_preserves_input 3 family 0%float (VArr [VRef 0]) "children"
                 VNull 1%float h' myId' [3; 6; 7] Hrun).
Defined.


(** The traversal goes round the cycle until the accumulator is longer
    than the input. *)
Lemma cycle_is_cut_by_the_guard :
  emitted (array2SortByTree 4 cycle [0; 1] "id" "parent_id" (VNum 1%float) 1%float
             [] None)
    = Some [1; 0; 1].
Proof. vm_compute. reflexivity. Qed.



(** * Further properties of the code *)

(** ** The traversals annotate in place *)

Section Frames.
Context {num : Type} {N : Number num}.

Abbreviation value := (value num).
Abbreviation heap := (list (gmap string value)).

Lemma annotates_refl K touched (h : heap) : annotates K touched h h.
Proof. split; [apply same_data_refl|]. split; [done|]. intros x. by left. Qed.

Lemma annotates_trans K touched (h1 h2 h3 : heap) :
  annotates K touched h1 h2 → annotates K touched h2 h3 →
  annotates K touched h1 h3.
Proof.
  intros (S1 & O1 & L1) (S2 & O2 & L2). split; [by eapply same_data_trans|].
  split.
  - intros x Hx. by rewrite O2, O1.
  - intros x. destruct (L2 x) as [E2|E2]; [|by right]. rewrite E2. apply L1.
Qed.

Lemma annotates_set K touched (h : heap) l k v :
  k ∈ K → l ∈ touched → k ≠ "$is_leaf" ∨ v = VNum n_one →
  annotates K touched h (set h l k v).
Proof.
  intros Hk Hl Hv. split; [by apply same_data_set|]. split.
  - intros x Hx. rewrite obj_at_set. case_decide as Hd; [|done].
    destruct Hd as [-> _]. done.
  - intros x. unfold get. rewrite obj_at_set. case_decide as Hd; [|by left].
    destruct Hd as [-> _]. destruct (decide (k = "$is_leaf")) as [->|Hne].
    + right. rewrite lookup_insert_eq. simpl. by destruct Hv.
    + left. by rewrite lookup_insert_ne.
Qed.

Lemma annotates_mark_leaf K touched (h : heap) found :
  "$is_leaf" ∈ K → (∀ l, found = Some l → l ∈ touched) →
  annotates K touched h (mark_leaf h found).
Proof.
  intros Hk Hf. destruct found as [l|]; simpl; [|apply annotates_refl].
  apply annotates_set; [done|by apply Hf|by right].
Qed.

Lemma find_elem_of (f : loc → bool) (l : list loc) x :
  List.find f l = Some x → x ∈ l.
Proof. intros Hx. apply find_some in Hx as [Hx _]. by apply list_elem_of_In. Qed.

Lemma annotates_annotate touched (h : heap) el lvl idx pidx :
  el ∈ touched → annotates sort_fields touched h (annotate h el lvl idx pidx).
Proof.
  intros Hel. unfold annotate.
  repeat (eapply annotates_trans;
          [|apply annotates_set; [unfold sort_fields; by repeat constructor|done|by left]]).
  apply annotates_refl.
Qed.


Lemma array2Tree_frame fuel :
  ∀ (h : heap) arrIn idKey parentKey s lvl h' ret,
    array2Tree fuel h arrIn idKey parentKey s lvl = Ok (h', ret) →
    annotates tree_fields arrIn h h'.
Proof.
  induction fuel as [|fuel IH]; intros h arrIn idKey parentKey s lvl h' ret; [done|].
  rewrite array2Tree_unfold.
  destruct (filter _ arrIn) as [|el els] eqn:Hf.
  - intros [= <- <-]. apply annotates_mark_leaf.
    + unfold tree_fields. by repeat constructor.
    + intros l. apply find_elem_of.
  - destruct (tree_loop _ idKey lvl (el :: els) h) as [h1| | |] eqn:Hloop; [|done..].
    cbn [rbind]. intros [= <- <-].
    assert (Hsub : ∀ x, x ∈ el :: els → x ∈ arrIn).
    { intros x Hx. rewrite <- Hf in Hx. by apply list_elem_of_filter in Hx as [_ ?]. }
    revert Hloop Hsub. generalize (el :: els). clear Hf el els. intros rest.
    revert h. induction rest as [|e rest IHrest]; intros h; cbn [tree_loop].
    + intros [= <-] _. apply annotates_refl.
    + destruct (array2Tree fuel _ arrIn idKey parentKey _ (n_add lvl n_one))
        as [[h2 sub]| | |] eqn:Hsub2; [|done..].
      cbn [rbind]. intros Hrest Hsub. apply IH in Hsub2.
      apply IHrest in Hrest; [|intros x Hx; apply Hsub; by right].
      assert (He : e ∈ arrIn) by (apply Hsub; by left).
      eapply annotates_trans; [|exact Hrest].
      eapply annotates_trans; [|apply annotates_set;
        [unfold tree_fields; by repeat constructor|done|by left]].
      eapply annotates_trans; [|exact Hsub2].
      apply annotates_set; [unfold tree_fields; by repeat constructor|done|by left].
Qed.

(** X1: whenever [array2Tree] returns, it has annotated the records of
    [arrIn] in place -- no object is created, every object outside the
    array is untouched, and of the records only [$level], [$children] and
    [$is_leaf] are written, [$is_leaf] only ever to [1] -- and what it
    returns is [undefined] when no record matches [startWith], and
    otherwise the array of the matching records themselves, in input
    order. *)
Theorem array2Tree_annotates_in_place fuel (h : heap) arrIn idKey parentKey s lvl
    h' ret :
  array2Tree fuel h arrIn idKey parentKey s lvl = Ok (h', ret) →
  annotates tree_fields arrIn h h'
  ∧ ret = match filter (λ x, match_tree h parentKey s x) arrIn with
          | [] => VUndef
          | roots => VArr (VRef <$> roots)
          end.
Proof.
  intros Hrun. split; [by eapply array2Tree_frame|].
  destruct fuel as [|fuel]; [done|]. rewrite array2Tree_unfold in Hrun.
  destruct (filter _ arrIn) as [|el els]; [by injection Hrun as _ <-|].
  destruct (tree_loop _ idKey lvl (el :: els) h); [|done..].
  by injection Hrun as _ <-.
Qed.

(** X2: whenever [array2SortByTree] returns, it has annotated records in
    place -- no object is created, objects outside the array and the
    accumulator are untouched, only [$level], [$index], [$tree_index] and
    [$is_leaf] are written, [$is_leaf] only ever to [1] -- and the array
    it returns is the accumulator it was given followed by records of
    [arrIn]. *)
Theorem array2SortByTree_annotates_in_place fuel :
  ∀ (h : heap) arrIn idKey parentKey s lvl acc pidx h' out,
    array2SortByTree fuel h arrIn idKey parentKey s lvl acc pidx = Ok (h', out) →
    annotates sort_fields (arrIn ++ acc) h h'
    ∧ ∃ new, out = acc ++ new ∧ ∀ x, x ∈ new → x ∈ arrIn.
Proof.
  induction fuel as [|fuel IH];
    intros h arrIn idKey parentKey s lvl acc pidx h' out; [done|].
  rewrite array2SortByTree_unfold.
  assert (Hnone : ∀ (h : heap), annotates sort_fields (arrIn ++ acc) h h
            ∧ ∃ new, acc = acc ++ new ∧ ∀ x, x ∈ new → x ∈ arrIn).
  { intros h1. split; [apply annotates_refl|]. exists []. rewrite app_nil_r.
    split; [done|]. intros x Hx. by apply elem_of_nil in Hx. }
  destruct (_ && _); [|intros [= <- <-]; apply Hnone].
  destruct (filter _ arrIn) as [|el els] eqn:Hf.
  - intros [= <- <-]. split; [|apply (Hnone h)]. apply annotates_mark_leaf.
    + unfold sort_fields. by repeat constructor.
    + intros l Hl%find_elem_of. apply elem_of_app. by right.
  - assert (Hsub : ∀ x, x ∈ el :: els → x ∈ arrIn).
    { intros x Hx. rewrite <- Hf in Hx. by apply list_elem_of_filter in Hx as [_ ?]. }
    revert Hsub. generalize (el :: els) 0. clear Hf el els Hnone. intros rest.
    revert h acc. induction rest as [|e rest IHrest]; intros h acc idx Hsub;
      cbn [sort_loop].
    + intros [= <- <-]. split; [apply annotates_refl|]. exists []. rewrite app_nil_r.
      split; [done|]. intros x Hx. by apply elem_of_nil in Hx.
    + assert (He : e ∈ arrIn) by (apply Hsub; by left).
      destruct (array2SortByTree fuel _ arrIn idKey parentKey _ (n_add lvl n_one)
                  (acc ++ [e]) _) as [[h2 out2]| | |] eqn:Hsub2; [|done..].
      cbn [rbind]. intros Hrest.
      apply IH in Hsub2 as (Hann2 & new2 & -> & Hnew2).
      apply IHrest in Hrest as (Hann3 & new3 & -> & Hnew3);
        [|intros x Hx; apply Hsub; by right].
      split.
      * eapply annotates_trans; [apply annotates_annotate; apply elem_of_app; by left|].
        destruct Hann2 as (S2 & O2 & L2), Hann3 as (S3 & O3 & L3).
        split; [by eapply same_data_trans|]. split.
        -- intros x Hx. rewrite O3, O2; [done|..].
           ++ intros Hin. apply Hx. rewrite !elem_of_app, elem_of_cons in *.
              destruct Hin as [?|[?|[->|Hn]]]; [tauto|tauto|tauto|by apply elem_of_nil in Hn].
           ++ intros Hin. apply Hx. rewrite !elem_of_app, elem_of_cons in *.
              destruct Hin as [?|[[?|[->|Hn]]|Hin]];
                [tauto|tauto|tauto|by apply elem_of_nil in Hn|].
              left. by apply Hnew2.
        -- intros x. destruct (L3 x) as [E|E]; [|by right]. rewrite E. apply L2.
      * exists ([e] ++ new2 ++ new3). split; [by rewrite <- !app_assoc|].
        intros x. rewrite !elem_of_app, elem_of_cons.
        intros [[->|Hn]|[?|?]]; [done|by apply elem_of_nil in Hn|by apply Hnew2|by apply Hnew3].
Qed.



End Frames.

(** ** array2Tree has no guard *)

Section NoGuard.
Context {num : Type} {N : Number num}.

Abbreviation value := (value num).
Abbreviation heap := (list (gmap string value)).

Lemma array2Tree_outcome fuel :
  ∀ (h : heap) arrIn idKey parentKey s lvl,
    array2Tree fuel h arrIn idKey parentKey s lvl = OutOfFuel
    ∨ ∃ r, array2Tree fuel h arrIn idKey parentKey s lvl = Ok r.
Proof.
  induction fuel as [|fuel IH]; intros h arrIn idKey parentKey s lvl; [by left|].
  rewrite array2Tree_unfold. destruct (filter _ arrIn) as [|el els]; [eauto|].
  assert (Hl : ∀ rest (h : heap),
    tree_loop (λ h s, array2Tree fuel h arrIn idKey parentKey s (n_add lvl n_one))
      idKey lvl rest h = OutOfFuel
    ∨ ∃ h', tree_loop (λ h s, array2Tree fuel h arrIn idKey parentKey s (n_add lvl n_one))
              idKey lvl rest h = Ok h').
  { induction rest as [|e rest IHrest]; intros h1; cbn [tree_loop]; [eauto|].
    destruct (IH (set h1 e "$level" (VNum lvl)) arrIn idKey parentKey
                (get (set h1 e "$level" (VNum lvl)) e idKey) (n_add lvl n_one))
      as [->|[[h2 sub] ->]]; [by left|].
    cbn [rbind]. apply IHrest. }
  destruct (Hl (el :: els) h) as [->|[h' ->]]; [by left|]. cbn [rbind]. eauto.
Qed.

Lemma array2Tree_diverges (h : heap) arrIn idKey parentKey (P : value → Prop) :
  idKey ∉ tree_fields → parentKey ∉ tree_fields →
  (∀ t, P t → ∃ x, x ∈ kids arrIn (match_tree h parentKey) t ∧ P (get h x idKey)) →
  ∀ s, P s → ∀ fuel lvl,
    array2Tree fuel h arrIn idKey parentKey s lvl = OutOfFuel.
Proof.
  intros Hid Hpk Hstep s Hs fuel.
  assert (Hgen : ∀ (h1 : heap) t lvl, same_data tree_fields h h1 → P t →
            array2Tree fuel h1 arrIn idKey parentKey t lvl = OutOfFuel);
    [|intros lvl; apply Hgen; [apply same_data_refl|done]].
  clear s Hs. induction fuel as [|fuel IH]; intros h1 t lvl Hsd Ht; [done|].
  rewrite array2Tree_unfold.
  assert (filter (λ x, match_tree h1 parentKey t x) arrIn
          = kids arrIn (match_tree h parentKey) t) as ->.
  { apply filter_ext_bool. intros x _. apply match_tree_ext. by apply Hsd. }
  destruct (Hstep t Ht) as (x & Hx & HPx).
  destruct (kids arrIn (match_tree h parentKey) t) as [|el els] eqn:Hk;
    [by apply elem_of_nil in Hx|].
  assert (Hl : ∀ rest (h1 : heap), same_data tree_fields h h1 → x ∈ rest →
    tree_loop (λ h s, array2Tree fuel h arrIn idKey parentKey s (n_add lvl n_one))
      idKey lvl rest h1 = OutOfFuel); [|by rewrite Hl].
  clear Hx Hk el els h1 Hsd. induction rest as [|e rest IHrest]; intros h1 Hsd Hx;
    [by apply elem_of_nil in Hx|].
  cbn [tree_loop].
  set (h2 := set h1 e "$level" (VNum lvl)).
  assert (Hsd2 : same_data tree_fields h h2).
  { eapply same_data_trans; [done|]. apply same_data_set.
    unfold tree_fields. by repeat constructor. }
  assert (get h2 e idKey = get h e idKey) as -> by (by apply Hsd2).
  apply elem_of_cons in Hx as [<-|Hx]; [by rewrite IH|].
  destruct (array2Tree_outcome fuel h2 arrIn idKey parentKey (get h e idKey)
              (n_add lvl n_one)) as [->|[[h3 sub] Hrun]]; [done|].
  rewrite Hrun. cbn [rbind]. apply IHrest; [|done].
  apply array2Tree_frame in Hrun as [Hsd3 _].
  eapply same_data_trans; [|apply same_data_set; unfold tree_fields; by repeat constructor].
  by eapply same_data_trans.
Qed.

(** X4: [array2Tree] has no guard against cycles.  When the parent
    references can be followed for ever from the start value -- every
    start value of a set [P] matches a record whose identifier is in [P]
    again -- the call returns for no recursion depth. *)
Theorem array2Tree_unbounded_on_cycle (h : heap) arrIn idKey parentKey
    (P : value → Prop) :
  idKey ∉ tree_fields → parentKey ∉ tree_fields →
  (∀ t, P t → ∃ x, x ∈ kids arrIn (match_tree h parentKey) t ∧ P (get h x idKey)) →
  ∀ s, P s → ∀ fuel lvl,
    array2Tree fuel h arrIn idKey parentKey s lvl = OutOfFuel.
Proof. apply array2Tree_diverges. Qed.

(** X15: a record that holds neither an identifier nor a parent ([null] or
    [undefined] under both keys) is its own child for [array2Tree]: called
    with a start value of [null] or [undefined] on an input with such a
    record, it returns for no recursion depth. *)
Theorem array2Tree_unbounded_on_missing_id (h : heap) arrIn idKey parentKey x s :
  idKey ∉ tree_fields → parentKey ∉ tree_fields →
  x ∈ arrIn →
  loose_eq_null (get h x idKey) = true →
  loose_eq_null (get h x parentKey) = true →
  loose_eq_null s = true →
  ∀ fuel lvl, array2Tree fuel h arrIn idKey parentKey s lvl = OutOfFuel.
Proof.
  intros Hid Hpk Hx Hxid Hxpar Hs.
  apply (array2Tree_diverges h arrIn idKey parentKey (λ v, loose_eq_null v = true));
    [done..| |done].
  intros t Ht. exists x. split; [|done].
  apply list_elem_of_filter. split; [|done]. apply Is_true_true.
  assert (loose_eq_undefined (get h x parentKey) = true) as Hu
    by (by destruct (get h x parentKey)).
  unfold match_tree. rewrite Ht, Hu. cbn [andb]. by rewrite orb_true_r.
Qed.

End NoGuard.

(** ** tree2Array numbers the nodes *)

Section Numbering.
Context {num : Type} {N : Number num}.

Abbreviation value := (value num).
Abbreviation heap := (list (gmap string value)).

Lemma counter_after_add (c : num) a b :
  counter_after (counter_after c a) b = counter_after c (b + a).
Proof. unfold counter_after. by rewrite Nat.iter_add. Qed.

Lemma get_del_eq (h : heap) l k : get (del h l k) l k = VUndef.
Proof.
  unfold get, del, obj_at. destruct (decide (l < length h)) as [Hl|Hl].
  - rewrite list_lookup_insert_eq by done. simpl. by rewrite lookup_delete_eq.
  - rewrite list_insert_ge by lia. by rewrite lookup_ge_None_2 by lia.
Qed.

Lemma get_outside (h : heap) l k : length h ≤ l → get h l k = VUndef.
Proof. intros Hl. unfold get, obj_at. by rewrite lookup_ge_None_2. Qed.

Lemma numbered_prefix key pv myId (h h' : heap) new :
  h `prefix_of` h' → Forall (λ node, node < length h) new →
  numbered key pv myId h new → numbered key pv myId h' new.
Proof.
  intros Hp Hb Hn i node Hi.
  assert (Hlt : ∀ j p, new !! j = Some p → p < length h).
  { intros j p Hj. eapply Forall_forall in Hb; [exact Hb|]. by eapply list_elem_of_lookup_2. }
  destruct (Hn i node Hi) as (Hid & Hk & Hpar).
  rewrite !(get_prefix h h') by eauto. split_and!; [done..|].
  destruct Hpar as [?|(j & p & Hj & Hpj & Heq)]; [by left|right].
  exists j, p. by rewrite (get_prefix h h' p) by eauto.
Qed.

Lemma flatten_loop_numbers
    (rec : heap → num → value → value → result (heap * num * list loc)) key pv :
  key ≠ "$id" → key ≠ "$parent_id" →
  (∀ h myId subs p h' myId' out,
     rec h myId subs p = Ok (h', myId', out) →
     h `prefix_of` h' ∧ myId' = counter_after myId (length out)
     ∧ Forall (λ node, length h ≤ node < length h') out
     ∧ numbered key p myId h' out) →
  ∀ els (h : heap) myId roots h' myId' out,
    flatten_loop rec key pv els h myId roots = Ok (h', myId', out) →
    ∃ new, out = roots ++ new
      ∧ length els ≤ length new
      ∧ h `prefix_of` h' ∧ myId' = counter_after myId (length new)
      ∧ Forall (λ node, length h ≤ node < length h') new
      ∧ numbered key pv myId h' new.
Proof.
  intros Hkid Hkpar Hrec els.
  induction els as [|el els IH]; intros h myId roots h' myId' out.
  - intros [= <- <- <-]. exists []. rewrite app_nil_r. split_and!; done.
  - destruct el as [| | | | |el|]; try done.
    rewrite flatten_loop_cons. cbv zeta.
    set (myId1 := n_add myId n_one).
    set (h1 := set (set (h ++ [obj_at h el]) (length h) "$id" (VNum myId1))
                 (length h) "$parent_id" pv).
    assert (Hh1 : h `prefix_of` h1).
    { unfold h1. do 2 (apply prefix_set; [done|]). by apply prefix_app_r. }
    assert (Hlen1 : length h1 = S (length h)).
    { unfold h1. rewrite !length_set, length_app. simpl. lia. }
    assert (Hid1 : get h1 (length h) "$id" = VNum myId1).
    { unfold h1. rewrite get_set_other by (by left).
      rewrite get_set by (rewrite length_app; simpl; lia). by rewrite decide_True. }
    assert (Hpar1 : get h1 (length h) "$parent_id" = pv).
    { unfold h1. rewrite get_set by (rewrite length_set, length_app; simpl; lia).
      by rewrite decide_True. }
    assert (Hkey1 : get h1 (length h) key = get h el key).
    { unfold h1. rewrite !get_set_other by (left; congruence).
      unfold get. by rewrite (obj_at_fresh h _ (obj_at h el)). }
    destruct (truthy (get h1 el key)) eqn:Htruthy.
    + destruct (json_copy h1 (get h1 el key)) as [[h2 subs]| | |] eqn:Hcopy;
        [|done..].
      cbn [rbind]. cbv beta iota.
      apply json_copy_extends in Hcopy.
      set (h3 := del h2 (length h) key).
      assert (Hlen2 : length h1 ≤ length h2) by (by apply prefix_length).
      assert (Hlen3 : length h3 = length h2) by apply length_del.
      assert (Hh3 : h `prefix_of` h3).
      { apply prefix_del; [done|]. by etrans. }
      destruct (rec h3 myId1 subs (VNum myId1)) as [[[h4 myId4] sub]| | |] eqn:Hsub;
        [|done..].
      cbn [rbind]. cbv beta iota.
      apply Hrec in Hsub as (Hh4 & -> & Hbsub & Hnsub).
      intros Hrest. apply IH in Hrest as (newr & -> & Hcount & Hh' & -> & Hbr & Hnr).
      assert (Hlen4 : length h3 ≤ length h4) by (by apply prefix_length).
      assert (Hlen' : length h4 ≤ length h') by (by apply prefix_length).
      assert (Hh3' : h3 `prefix_of` h') by (by etrans).
      exists (length h :: sub ++ newr). split; [by rewrite <- !app_assoc|].
      split; [simpl; rewrite length_app; lia|].
      split; [by etrans|]. split.
      { rewrite counter_after_add. unfold myId1.
        change (n_add myId n_one) with (counter_after myId 1).
        rewrite counter_after_add. f_equal. simpl. rewrite length_app. lia. }
      split.
      { constructor; [lia|]. apply Forall_app. split.
        - eapply Forall_impl; [exact Hbsub|]. simpl. intros; lia.
        - eapply Forall_impl; [exact Hbr|]. simpl. intros; lia. }
      assert (Hnode_id : get h' (length h) "$id" = VNum myId1).
      { rewrite (get_prefix h3 h') by (done || lia). unfold h3.
        rewrite get_del_other by done. rewrite (get_prefix h1 h2) by (done || lia). done. }
      assert (Hnsub' : numbered key (VNum myId1) myId1 h' sub).
      { eapply numbered_prefix; [exact Hh'| |exact Hnsub].
        eapply Forall_impl; [exact Hbsub|]. simpl. intros; lia. }
      intros [|i] node Hi.
      * injection Hi as <-. split; [done|]. split.
        -- rewrite (get_prefix h3 h') by (done || lia). unfold h3.
           by rewrite get_del_eq.
        -- left. rewrite (get_prefix h3 h') by (done || lia). unfold h3.
           rewrite get_del_other by done.
           by rewrite (get_prefix h1 h2) by (done || lia).
      * simpl in Hi. apply lookup_app_Some in Hi as [Hi|[Hge Hi]].
        -- destruct (Hnsub' i node Hi) as (Hid & Hk & Hpar). split_and!; [|done|].
           ++ rewrite Hid. unfold myId1.
              change (n_add myId n_one) with (counter_after myId 1).
              rewrite counter_after_add. do 2 f_equal. lia.
           ++ right. destruct Hpar as [Hpar|(j & p & Hj & Hpj & Heq)].
              ** exists 0, (length h). split; [lia|]. split; [done|].
                 by rewrite Hpar, Hnode_id.
              ** exists (S j), p. split; [lia|]. split; [|done].
                 simpl. apply lookup_app_Some. by left.
        -- destruct (Hnr _ node Hi) as (Hid & Hk & Hpar). split_and!; [|done|].
           ++ rewrite Hid. rewrite counter_after_add. unfold myId1.
              change (n_add myId n_one) with (counter_after myId 1).
              rewrite counter_after_add. do 2 f_equal. lia.
           ++ destruct Hpar as [Hpar|(j & p & Hj & Hpj & Heq)]; [by left|right].
              exists (S (length sub + j)), p. split; [lia|]. split; [|done].
              simpl. apply lookup_app_Some. right. split; [lia|].
              replace (length sub + j - length sub) with j by lia. exact Hpj.
    + intros Hrest. apply IH in Hrest as (newr & -> & Hcount & Hh' & -> & Hbr & Hnr).
      assert (Hlen' : length h1 ≤ length h') by (by apply prefix_length).
      exists (length h :: newr). split; [by rewrite <- !app_assoc|].
      split; [simpl; lia|].
      split; [by etrans|]. split.
      { unfold myId1. change (n_add myId n_one) with (counter_after myId 1).
        rewrite counter_after_add. f_equal. simpl. lia. }
      split.
      { constructor; [lia|]. eapply Forall_impl; [exact Hbr|]. simpl. intros; lia. }
      intros [|i] node Hi.
      * injection Hi as <-. rewrite !(get_prefix h1 h') by (done || lia).
        split; [done|]. split; [|by left]. rewrite Hkey1.
        destruct (decide (el < length h)) as [Hel|Hel].
        -- by rewrite <- (get_prefix h h1) by done.
        -- by rewrite get_outside by lia.
      * simpl in Hi. destruct (Hnr i node Hi) as (Hid & Hk & Hpar). split_and!; [|done|].
        -- rewrite Hid. unfold myId1.
           change (n_add myId n_one) with (counter_after myId 1).
           rewrite counter_after_add. do 2 f_equal. lia.
        -- destruct Hpar as [Hpar|(j & p & Hj & Hpj & Heq)]; [by left|right].
           exists (S j), p. split; [lia|]. by split.
Qed.

Lemma tree2Array_numbered fuel :
  ∀ (h : heap) myId treeIn key pv lvl h' myId' out,
    key ≠ "$id" → key ≠ "$parent_id" →
    tree2Array fuel h myId treeIn key pv lvl = Ok (h', myId', out) →
    h `prefix_of` h' ∧ myId' = counter_after myId (length out)
    ∧ Forall (λ node, length h ≤ node < length h') out
    ∧ numbered key pv myId h' out.
Proof.
  intros h myId treeIn key pv lvl h' myId' out Hkid Hkpar.
  revert h myId treeIn pv lvl h' myId' out.
  induction fuel as [|fuel IH]; intros h myId treeIn pv lvl h' myId' out; [done|].
  rewrite tree2Array_unfold. destruct treeIn as [| | | | | |els]; try done.
  intros Hloop.
  eapply flatten_loop_numbers in Hloop as (new & -> & _ & ? & ? & ? & ?); [done..|].
  intros h1 myId1 subs p h1' myId1' out1 Hr. by eapply IH.
Qed.

(** X5: when [tree2Array] returns, under a children key other than [$id]
    and [$parent_id], the counter has advanced by the number of nodes
    returned, the nodes carry consecutive identifiers in the order of the
    array, no node holds a truthy value under the children key any more, and
    the [$parent_id] of a node is the parent value of the call or the [$id]
    of a node listed before it. *)
Theorem tree2Array_numbers_nodes fuel (h : heap) myId treeIn key pv lvl h' myId' out :
  key ≠ "$id" → key ≠ "$parent_id" →
  tree2Array fuel h myId treeIn key pv lvl = Ok (h', myId', out) →
  myId' = counter_after myId (length out) ∧ numbered key pv myId h' out.
Proof.
  intros Hkid Hkpar Hrun.
  by destruct (tree2Array_numbered _ _ _ _ _ _ _ _ _ _ Hkid Hkpar Hrun)
    as (_ & ? & _ & ?).
Qed.

Lemma tree2Array_extends fuel :
  ∀ (h : heap) myId treeIn key pv lvl h' myId' out,
    tree2Array fuel h myId treeIn key pv lvl = Ok (h', myId', out) →
    h `prefix_of` h' ∧ Forall (λ node, length h ≤ node < length h') out.
Proof.
  induction fuel as [|fuel IH]; intros h myId treeIn key pv lvl h' myId' out; [done|].
  rewrite tree2Array_unfold. destruct treeIn as [| | | | | |els]; try done.
  intros Hloop.
  eapply flatten_loop_extends in Hloop; [exact Hloop| |done|done].
  intros h1 myId1 subs p h1' myId1' out1 _ Hr. by eapply IH.
Qed.

Lemma json_copy_non_array (h : heap) v h' v' :
  (∀ vs, v ≠ VArr vs) → json_copy h v = Ok (h', v') → ∀ vs, v' ≠ VArr vs.
Proof.
  intros Hv. unfold json_copy. destruct v as [| |b|x|s|l|vs0];
    cbn [stringify rbind]; try (intros [= <- <-]; done); try done.
  - destruct (n_is_finite x); by intros [= <- <-].
  - match goal with |- context [rbind (rbind ?x _) _] => destruct x end;
      cbn [rbind parse]; try done.
    match goal with |- context [let '(_, _) := ?x in _] => destruct x end.
    by intros [= <- <-].
  - by destruct (Hv vs0).
Qed.

Lemma flatten_loop_rejects
    (rec : heap → num → value → value → result (heap * num * list loc)) key pv el :
  (∀ h myId subs p r, (∀ vs, subs ≠ VArr vs) → rec h myId subs p ≠ Ok r) →
  (∀ h myId subs p h' myId' out,
     rec h myId subs p = Ok (h', myId', out) → h `prefix_of` h') →
  ∀ items (h : heap) myId roots,
    VRef el ∈ items → el < length h →
    truthy (get h el key) = true → (∀ vs, get h el key ≠ VArr vs) →
    ∀ r, flatten_loop rec key pv items h myId roots ≠ Ok r.
Proof.
  intros Hrej Hext items.
  induction items as [|item items IH]; intros h myId roots Hin Hel Htr Hna r.
  { by apply elem_of_nil in Hin. }
  assert (Hstep : ∀ h1 : heap, h `prefix_of` h1 →
            el < length h1 ∧ truthy (get h1 el key) = true
            ∧ ∀ vs, get h1 el key ≠ VArr vs).
  { intros h1 Hp. rewrite (get_prefix h h1) by done. split_and!; [|done..].
    apply prefix_length in Hp. lia. }
  destruct item as [| | | | |el0|]; try done;
    try (apply elem_of_cons in Hin as [[=]|Hin]; fail).
  rewrite flatten_loop_cons. cbv zeta.
  set (myId1 := n_add myId n_one).
  set (h1 := set (set (h ++ [obj_at h el0]) (length h) "$id" (VNum myId1))
               (length h) "$parent_id" pv).
  assert (Hh1 : h `prefix_of` h1).
  { unfold h1. do 2 (apply prefix_set; [done|]). by apply prefix_app_r. }
  apply elem_of_cons in Hin as [[= <-]|Hin].
  - destruct (Hstep h1 Hh1) as (_ & -> & Hna1).
    destruct (json_copy h1 (get h1 el key)) as [[h2 subs]| | |] eqn:Hcopy;
      cbn [rbind]; [|done..]. cbv beta iota.
    pose proof (json_copy_non_array _ _ _ _ Hna1 Hcopy) as Hsubs.
    destruct (rec (del h2 (length h) key) myId1 subs (VNum myId1))
      as [[[h4 myId4] sub]| | |] eqn:Hsub; cbn [rbind]; [|done..].
    by destruct (Hrej _ _ _ _ (h4, myId4, sub) Hsubs Hsub).
  - destruct (truthy (get h1 el0 key)).
    + destruct (json_copy h1 (get h1 el0 key)) as [[h2 subs]| | |] eqn:Hcopy;
        cbn [rbind]; [|done..]. cbv beta iota.
      apply json_copy_extends in Hcopy.
      destruct (rec (del h2 (length h) key) myId1 subs (VNum myId1))
        as [[[h4 myId4] sub]| | |] eqn:Hsub; cbn [rbind]; [|done..]. cbv beta iota.
      apply Hext in Hsub.
      assert (Hh4 : h `prefix_of` h4).
      { etrans; [|exact Hsub]. apply prefix_del; [done|]. by etrans. }
      destruct (Hstep h4 Hh4) as (? & ? & ?). by apply IH.
    + destruct (Hstep h1 Hh1) as (? & ? & ?). by apply IH.
Qed.

(** X6: [tree2Array] does not return when an element of the array it is
    given holds, under the children key, a truthy value that is not an
    array: the recursive call on the copy of that value has no [forEach] to
    call. *)
Theorem tree2Array_rejects_non_array_children fuel (h : heap) myId items key pv lvl
    el :
  VRef el ∈ items → el < length h →
  truthy (get h el key) = true → (∀ vs, get h el key ≠ VArr vs) →
  ∀ r, tree2Array fuel h myId (VArr items) key pv lvl ≠ Ok r.
Proof.
  intros Hin Hel Htr Hna r. destruct fuel as [|fuel]; [done|].
  rewrite tree2Array_unfold.
  eapply flatten_loop_rejects; [| |exact Hin|exact Hel|exact Htr|exact Hna].
  - intros h1 myId1 subs p r1 Hsubs. destruct fuel as [|fuel]; [done|].
    rewrite tree2Array_unfold. destruct subs; try done. by destruct (Hsubs elems).
  - intros h1 myId1 subs p h1' myId1' out1 Hr.
    by apply tree2Array_extends in Hr as [? _].
Qed.

End Numbering.

(** ** The listing is a pre-order *)

Section Preorder.
Context {num : Type} {N : Number num}.
Variables (arrIn : list loc) (child : value num → loc → bool).
Variables (idv : loc → value num) (s0 : value num).

Abbreviation kids := (kids arrIn child).
Abbreviation walk := (walk arrIn child idv).
Abbreviation walk_each := (walk_each idv).
Abbreviation reach := (reach arrIn child idv s0).
Abbreviation desc := (desc arrIn child idv).

(** A listed record is followed by the listing below it. *)
Lemma walk_block n : ∀ s w p,
  walk n s = Some w → p ∈ w →
  ∃ m before below after,
    w = before ++ p :: below ++ after ∧ walk m (idv p) = Some below.
Proof.
  induction n as [|n IH]; intros s w p; [done|]. simpl.
  generalize (kids s). intros els. revert w.
  induction els as [|el els IHels]; intros w.
  - intros [= <-] Hp. by apply elem_of_nil in Hp.
  - rewrite walk_each_cons. intros (w1 & wr & Hw1 & Hwr & ->) Hp.
    apply elem_of_cons in Hp as [->|Hp]; [by exists n, [], w1, wr|].
    apply elem_of_app in Hp as [Hp|Hp].
    + destruct (IH _ _ _ Hw1 Hp) as (m & l1 & wp & l3 & -> & Hwp).
      exists m, (el :: l1), wp, (l3 ++ wr). split; [|done].
      simpl. by repeat (rewrite <- app_assoc; simpl).
    + destruct (IHels _ Hwr Hp) as (m & l1 & wp & l3 & -> & Hwp).
      exists m, (el :: w1 ++ l1), wp, l3. split; [|done].
      simpl. by repeat (rewrite <- app_assoc; simpl).
Qed.

Lemma walk_below n p w x : walk n (idv p) = Some w → desc p x → x ∈ w.
Proof.
  intros Hw. induction 1 as [p x Hx|p q x _ IH Hx].
  - by eapply walk_kids.
  - eapply walk_closed; [exact Hw|by apply IH|done].
Qed.

Lemma walk_reached n w x : walk n s0 = Some w → reach x → x ∈ w.
Proof.
  intros Hw. induction 1 as [x Hx|p x _ IH Hx].
  - by eapply walk_kids.
  - eapply walk_closed; [exact Hw|exact IH|done].
Qed.

Lemma walk_preorder n w :
  walk n s0 = Some w →
  (∀ x, x ∈ w ↔ reach x)
  ∧ ∀ p, p ∈ w → ∃ before below after,
      w = before ++ p :: below ++ after ∧ ∀ x, x ∈ below ↔ desc p x.
Proof.
  intros Hw. split.
  - intros x. split; [by eapply walk_reach|by eapply walk_reached].
  - intros p Hp. destruct (walk_block _ _ _ _ Hw Hp) as (m & l1 & wp & l3 & -> & Hwp).
    exists l1, wp, l3. split; [done|]. intros x.
    split; [by eapply walk_desc|by eapply walk_below].
Qed.

End Preorder.

(** ** The numbering of array2SortByTree *)

Section SortNumbers.
Context {num : Type} {N : Number num} {L : NumberLaws num}.

Abbreviation value := (value num).
Abbreviation heap := (list (gmap string value)).

Variables (h0 : heap) (arrIn : list loc) (idKey parentKey : string).

Abbreviation idv := (λ x : loc, get h0 x idKey).
Abbreviation kidsT := (kids arrIn (match_tree h0 parentKey)).
Abbreviation walkT := (walk arrIn (match_tree h0 parentKey) idv).

Hypothesis Hid : idKey ∉ sort_fields.
Hypothesis Hpk : parentKey ∉ sort_fields.
Hypothesis Hidne : idKey ≠ "".
Hypothesis Hpkne : parentKey ≠ "".
Hypothesis Hvalid : valid h0 arrIn.
Hypothesis Hids : ids_unique arrIn idv.

Lemma get_annotate (h : heap) e lvl idx pidx :
  e < length h →
  get (annotate h e lvl idx pidx) e "$level" = VNum lvl
  ∧ get (annotate h e lvl idx pidx) e "$index" = VNum (n_of_nat (idx + 1))
  ∧ get (annotate h e lvl idx pidx) e "$tree_index"
    = VStr (tree_index pidx (idx + 1)).
Proof.
  intros He. unfold annotate. split_and!.
  - rewrite !get_set_other by (by left). rewrite get_set by done.
    by rewrite decide_True.
  - rewrite get_set_other by (by left).
    rewrite get_set by (by rewrite length_set). by rewrite decide_True.
  - rewrite get_set by (by rewrite !length_set). by rewrite decide_True.
Qed.

Lemma get_annotate_other (h : heap) e lvl idx pidx y k :
  y ≠ e → get (annotate h e lvl idx pidx) y k = get h y k.
Proof. intros Hy. unfold annotate. rewrite !get_set_other; auto. Qed.

Lemma numbered_group_frame (h h' : heap) lvl pidx group :
  (∀ x k, x ∈ group → k ≠ "$is_leaf" → get h' x k = get h x k) →
  numbered_group h lvl pidx group → numbered_group h' lvl pidx group.
Proof.
  intros Hf Hg i x Hi. destruct (Hg i x Hi) as (? & ? & ?).
  rewrite !Hf by (done || by eapply list_elem_of_lookup_2). done.
Qed.

Lemma numbered_children_frame (h h' : heap) p group :
  (∀ k, k ≠ "$is_leaf" → get h' p k = get h p k) →
  (∀ x k, x ∈ group → k ≠ "$is_leaf" → get h' x k = get h x k) →
  numbered_children h p group → numbered_children h' p group.
Proof.
  intros Hp Hf (lp & tp & Hl & Ht & Hg). exists lp, tp.
  rewrite !Hp by done. split_and!; [done..|]. by eapply numbered_group_frame.
Qed.

Lemma sort_numbers n : ∀ (h : heap) s lvl acc pidx w h' out,
  same_data sort_fields h0 h →
  walkT n s = Some w →
  NoDup (acc ++ w) → (∀ x, x ∈ acc ++ w → x ∈ arrIn) →
  array2SortByTree n h arrIn idKey parentKey s lvl acc pidx = Ok (h', out) →
  (∀ y k, y ∉ w → k ≠ "$is_leaf" → get h' y k = get h y k)
  ∧ numbered_group h' lvl pidx (kidsT s)
  ∧ ∀ p, p ∈ w → numbered_children h' p (kidsT (idv p)).
Proof.
  induction n as [|n IH]; intros h s lvl acc pidx w h' out Hsd Hw Hnd Hsub; [done|].
  rewrite array2SortByTree_unfold.
  assert ((length acc <=? length arrIn) = true) as ->.
  { apply Nat.leb_le. transitivity (length (acc ++ w)).
    - rewrite length_app. lia.
    - apply submseteq_length. by apply NoDup_submseteq. }
  assert (String.eqb idKey "" = false) as -> by (by apply String.eqb_neq).
  assert (String.eqb parentKey "" = false) as -> by (by apply String.eqb_neq).
  cbn [andb negb]. rewrite (kids_in_heap h0 arrIn parentKey Hpk) by done.
  simpl in Hw.
  destruct (kidsT s) as [|el els] eqn:Hk.
  - injection Hw as <-. intros [= <- <-]. split_and!.
    + intros y k _ Hne. by apply get_mark_leaf_other.
    + intros i x Hi. by rewrite lookup_nil in Hi.
    + intros p Hp. by apply elem_of_nil in Hp.
  - assert (Hloop : ∀ rest idx (h : heap) acc ws h' out,
      same_data sort_fields h0 h →
      walk_each idv (walkT n) rest = Some ws →
      NoDup (acc ++ ws) → (∀ x, x ∈ acc ++ ws → x ∈ arrIn) →
      sort_loop
        (λ h s acc pidx,
           array2SortByTree n h arrIn idKey parentKey s (n_add lvl n_one) acc pidx)
        idKey lvl pidx rest idx h acc = Ok (h', out) →
      (∀ y k, y ∉ ws → k ≠ "$is_leaf" → get h' y k = get h y k)
      ∧ (∀ i x, rest !! i = Some x →
           get h' x "$level" = VNum lvl
           ∧ get h' x "$index" = VNum (n_of_nat (idx + i + 1))
           ∧ get h' x "$tree_index" = VStr (tree_index pidx (idx + i + 1)))
      ∧ ∀ p, p ∈ ws → numbered_children h' p (kidsT (idv p))).
    { clear h acc w h' out Hsd Hw Hnd Hsub Hk.
      induction rest as [|e rest IHrest]; intros idx h acc ws h' out Hsd Hws Hnd Hsub.
      - injection Hws as <-. intros [= <- <-]. split_and!; [done| |].
        + intros i x Hi. by rewrite lookup_nil in Hi.
        + intros p Hp. by apply elem_of_nil in Hp.
      - apply walk_each_cons in Hws as (w1 & wr & Hw1 & Hwr & ->).
        cbn [sort_loop].
        set (h1 := annotate h e lvl idx pidx).
        assert (Hsd1 : same_data sort_fields h0 h1).
        { eapply same_data_trans; [done|].
          unfold h1, annotate.
          eapply same_data_trans; [|apply same_data_set; set_solver].
          eapply same_data_trans; [|apply same_data_set; set_solver].
          apply same_data_set; set_solver. }
        assert (get h1 e idKey = idv e) as -> by (by apply Hsd1).
        assert (Heq1 : (acc ++ [e]) ++ w1 ++ wr = acc ++ e :: w1 ++ wr).
        { by rewrite <- app_assoc. }
        assert (Hnd1 : NoDup ((acc ++ [e]) ++ w1)).
        { rewrite <- Heq1, (app_assoc (acc ++ [e])) in Hnd.
          by apply NoDup_app in Hnd as [Hnd _]. }
        assert (Hsub1 : ∀ x, x ∈ (acc ++ [e]) ++ w1 → x ∈ arrIn).
        { intros x Hx. apply Hsub. rewrite <- Heq1, (app_assoc (acc ++ [e])).
          apply elem_of_app. by left. }
        destruct (sort_run h0 arrIn idKey parentKey Hid Hpk Hidne Hpkne Hvalid Hids
                    n h1 (idv e) (n_add lvl n_one) (acc ++ [e])
                    (Some (tree_index pidx (idx + 1))) w1 Hsd1 Hw1 Hnd1 Hsub1)
          as (h2 & Hrun2 & Hsd2 & _).
        rewrite Hrun2. cbn [rbind]. intros Hrun3.
        destruct (IH _ _ _ _ _ _ _ _ Hsd1 Hw1 Hnd1 Hsub1 Hrun2) as (F2 & A2 & B2).
        destruct (IHrest (S idx) h2 ((acc ++ [e]) ++ w1) wr h' out Hsd2 Hwr)
          as (F3 & A3 & B3); [by rewrite <- app_assoc, Heq1| |done|].
        { intros x Hx. apply Hsub. by rewrite <- Heq1, (app_assoc (acc ++ [e])). }
        apply NoDup_app in Hnd as (_ & _ & Hnd).
        apply NoDup_cons in Hnd as [Hew Hnd].
        apply NoDup_app in Hnd as (_ & Hdisj & _).
        assert (He1 : e ∉ w1) by (intros ?; apply Hew, elem_of_app; by left).
        assert (Her : e ∉ wr) by (intros ?; apply Hew, elem_of_app; by right).
        assert (Hel : e < length h).
        { destruct Hsd as [-> _]. eapply Forall_forall in Hvalid; [exact Hvalid|].
          apply Hsub. apply elem_of_app. right. by left. }
        destruct (get_annotate h e lvl idx pidx Hel) as (Hl1 & Hi1 & Ht1).
        fold h1 in Hl1, Hi1, Ht1.
        assert (Hkeep : ∀ k, k ≠ "$is_leaf" → get h' e k = get h1 e k).
        { intros k Hk. by rewrite F3, F2. }
        split_and!.
        + intros y k Hy Hne.
          apply not_elem_of_cons in Hy as [Hye Hy].
          apply not_elem_of_app in Hy as [Hy1 Hyr].
          rewrite F3, F2 by done. by apply get_annotate_other.
        + intros [|i] x Hi.
          * injection Hi as <-. rewrite !Hkeep by done.
            by rewrite Nat.add_0_r.
          * simpl in Hi. destruct (A3 i x Hi) as (? & ? & ?).
            by replace (idx + S i + 1) with (S idx + i + 1) by lia.
        + intros p Hp. apply elem_of_cons in Hp as [->|Hp].
          * exists lvl, (tree_index pidx (idx + 1)).
            rewrite !Hkeep by done. split_and!; [done..|].
            eapply numbered_group_frame; [|exact A2].
            intros x k Hx Hne. apply F3; [|done]. apply Hdisj.
            eapply walk_kids; [exact Hw1|exact Hx].
          * apply elem_of_app in Hp as [Hp|Hp]; [|by apply B3].
            eapply numbered_children_frame; [| |by apply B2].
            -- intros k Hne. apply F3; [by apply Hdisj|done].
            -- intros x k Hx Hne. apply F3; [|done]. apply Hdisj.
               eapply walk_closed; [exact Hw1|exact Hp|exact Hx]. }
    intros Hrun.
    destruct (Hloop (el :: els) 0 h acc w h' out Hsd Hw Hnd Hsub Hrun)
      as (F & A & B).
    split_and!; [done| |done].
    intros i x Hi. exact (A i x Hi).
Qed.

End SortNumbers.

(** ** The traversals on a hierarchy *)

Section Orders.
Context {num : Type} {N : Number num} {L : NumberLaws num}.

Abbreviation value := (value num).
Abbreviation heap := (list (gmap string value)).

(** X7: on a hierarchy -- identifiers unique, no cycle, no record matched
    both by the root marker and by an identifier -- [array2SortByTree]
    returns the records that can be reached from the root marker, each
    once, and every record is followed directly by the records below it:
    the result is a pre-order listing. *)
Theorem array2SortByTree_preorder (h : heap) arrIn idKey parentKey lvl pidx k :
  idKey ∉ sort_fields → parentKey ∉ sort_fields →
  idKey ≠ "" → parentKey ≠ "" →
  valid h arrIn →
  ids_unique arrIn (λ x, get h x idKey) →
  acyclic arrIn (match_tree h parentKey) (λ x, get h x idKey) →
  root_exclusive arrIn (match_tree h parentKey) (λ x, get h x idKey) VNull →
  ∃ h' out,
    array2SortByTree (S (length arrIn) + k) h arrIn idKey parentKey VNull lvl [] pidx
      = Ok (h', out)
    ∧ NoDup out
    ∧ (∀ x, x ∈ out ↔
         reach arrIn (match_tree h parentKey) (λ x, get h x idKey) VNull x)
    ∧ ∀ p, p ∈ out → ∃ before below after,
        out = before ++ p :: below ++ after
        ∧ ∀ x, x ∈ below ↔
            desc arrIn (match_tree h parentKey) (λ x, get h x idKey) p x.
Proof.
  intros Hid Hpk Hidne Hpkne Hvalid Hids Hacyc Hrx.
  destruct (tree_listing h arrIn idKey parentKey k Hids Hacyc Hrx)
    as (w & Hw & Hnd & Hsub & _).
  destruct (sort_run h arrIn idKey parentKey Hid Hpk Hidne Hpkne Hvalid Hids
              _ h VNull lvl [] pidx w (same_data_refl _ _) Hw Hnd Hsub)
    as (h' & Hrun & _).
  exists h', w. split; [done|]. split; [done|].
  by eapply walk_preorder.
Qed.

(** X8: on such a hierarchy the numbering [array2SortByTree] leaves is the
    outline numbering: the records matched by the root marker carry the
    starting level, their position counted from one and that position
    appended to the parent index given; the records matched by the
    identifier of a returned record carry its level plus one, their position
    among them, and that position appended to its [$tree_index]. *)
Theorem array2SortByTree_numbering (h : heap) arrIn idKey parentKey lvl pidx k :
  idKey ∉ sort_fields → parentKey ∉ sort_fields →
  idKey ≠ "" → parentKey ≠ "" →
  valid h arrIn →
  ids_unique arrIn (λ x, get h x idKey) →
  acyclic arrIn (match_tree h parentKey) (λ x, get h x idKey) →
  root_exclusive arrIn (match_tree h parentKey) (λ x, get h x idKey) VNull →
  ∃ h' out,
    array2SortByTree (S (length arrIn) + k) h arrIn idKey parentKey VNull lvl [] pidx
      = Ok (h', out)
    ∧ numbered_group h' lvl pidx (kids arrIn (match_tree h parentKey) VNull)
    ∧ ∀ p, p ∈ out →
        numbered_children h' p
          (kids arrIn (match_tree h parentKey) (get h p idKey)).
Proof.
  intros Hid Hpk Hidne Hpkne Hvalid Hids Hacyc Hrx.
  destruct (tree_listing h arrIn idKey parentKey k Hids Hacyc Hrx)
    as (w & Hw & Hnd & Hsub & _).
  destruct (sort_run h arrIn idKey parentKey Hid Hpk Hidne Hpkne Hvalid Hids
              _ h VNull lvl [] pidx w (same_data_refl _ _) Hw Hnd Hsub)
    as (h' & Hrun & _).
  exists h', w. split; [done|].
  by destruct (sort_numbers h arrIn idKey parentKey Hid Hpk Hidne Hpkne Hvalid Hids
                 _ h VNull lvl [] pidx w h' w (same_data_refl _ _) Hw Hnd Hsub Hrun)
    as (_ & ? & ?).
Qed.

Lemma numbering_agrees (h0 h1 h2 : heap) arrIn idKey parentKey lvl pidx n w :
  walk arrIn (match_tree h0 parentKey) (λ x, get h0 x idKey) n VNull = Some w →
  numbered_group h1 lvl pidx (kids arrIn (match_tree h0 parentKey) VNull) →
  numbered_group h2 lvl pidx (kids arrIn (match_tree h0 parentKey) VNull) →
  (∀ p, p ∈ w → numbered_children h1 p
                  (kids arrIn (match_tree h0 parentKey) (get h0 p idKey))) →
  (∀ p, p ∈ w → numbered_children h2 p
                  (kids arrIn (match_tree h0 parentKey) (get h0 p idKey))) →
  ∀ x, x ∈ w →
    get h2 x "$level" = get h1 x "$level"
    ∧ get h2 x "$index" = get h1 x "$index"
    ∧ get h2 x "$tree_index" = get h1 x "$tree_index".
Proof.
  intros Hw A1 A2 B1 B2 x Hx.
  assert (Hr := walk_reach _ _ _ _ _ _ _ Hw Hx).
  induction Hr as [x Hk|p x Hp IH Hk].
  - apply list_elem_of_lookup_1 in Hk as [i Hi].
    destruct (A1 i x Hi) as (-> & -> & ->). by destruct (A2 i x Hi) as (-> & -> & ->).
  - assert (Hpw : p ∈ w) by (by eapply walk_reached).
    destruct (IH Hpw) as (Hl & _ & Ht).
    destruct (B1 p Hpw) as (lp1 & tp1 & Hl1 & Ht1 & G1).
    destruct (B2 p Hpw) as (lp2 & tp2 & Hl2 & Ht2 & G2).
    rewrite Hl1, Hl2 in Hl. rewrite Ht1, Ht2 in Ht.
    injection Hl as ->. injection Ht as ->.
    apply list_elem_of_lookup_1 in Hk as [i Hi].
    destruct (G1 i x Hi) as (-> & -> & ->). by destruct (G2 i x Hi) as (-> & -> & ->).
Qed.

(** X9: on such a hierarchy a second run of [array2SortByTree] over the
    records the first run annotated returns the same list and leaves every
    field of every object as the first run left it. *)
Theorem array2SortByTree_idempotent (h : heap) arrIn idKey parentKey lvl pidx k :
  idKey ∉ sort_fields → parentKey ∉ sort_fields →
  idKey ≠ "" → parentKey ≠ "" →
  valid h arrIn →
  ids_unique arrIn (λ x, get h x idKey) →
  acyclic arrIn (match_tree h parentKey) (λ x, get h x idKey) →
  root_exclusive arrIn (match_tree h parentKey) (λ x, get h x idKey) VNull →
  ∃ h1 h2 out,
    array2SortByTree (S (length arrIn) + k) h arrIn idKey parentKey VNull lvl [] pidx
      = Ok (h1, out)
    ∧ array2SortByTree (S (length arrIn) + k) h1 arrIn idKey parentKey VNull lvl []
        pidx = Ok (h2, out)
    ∧ length h2 = length h1
    ∧ ∀ x key, get h2 x key = get h1 x key.
Proof.
  intros Hid Hpk Hidne Hpkne Hvalid Hids Hacyc Hrx.
  destruct (tree_listing h arrIn idKey parentKey k Hids Hacyc Hrx)
    as (w & Hw & Hnd & Hsub & _).
  destruct (sort_run h arrIn idKey parentKey Hid Hpk Hidne Hpkne Hvalid Hids
              _ h VNull lvl [] pidx w (same_data_refl _ _) Hw Hnd Hsub)
    as (h1 & Hrun1 & Hsd1 & Hleaf1).
  destruct (sort_run h arrIn idKey parentKey Hid Hpk Hidne Hpkne Hvalid Hids
              _ h1 VNull lvl [] pidx w Hsd1 Hw Hnd Hsub)
    as (h2 & Hrun2 & Hsd2 & Hleaf2).
  destruct (sort_numbers h arrIn idKey parentKey Hid Hpk Hidne Hpkne Hvalid Hids
              _ h VNull lvl [] pidx w h1 w (same_data_refl _ _) Hw Hnd Hsub Hrun1)
    as (_ & A1 & B1).
  destruct (sort_numbers h arrIn idKey parentKey Hid Hpk Hidne Hpkne Hvalid Hids
              _ h1 VNull lvl [] pidx w h2 w Hsd1 Hw Hnd Hsub Hrun2)
    as (F2 & A2 & B2).
  exists h1, h2, w. split; [done|]. split; [done|]. split.
  { destruct Hsd1 as [-> _]. by destruct Hsd2 as [-> _]. }
  intros x key. destruct (decide (key = "$is_leaf")) as [->|Hne].
  - rewrite Hleaf2. case_decide as Hd; [|by rewrite decide_False by (by intros [_ ?])].
    rewrite Hleaf1. by rewrite decide_True.
  - destruct (decide (x ∈ w)) as [Hx|Hx]; [|by apply F2].
    destruct (numbering_agrees h h1 h2 arrIn idKey parentKey lvl pidx _ w Hw A1 A2 B1 B2
                x Hx) as (Hl & Hi & Ht).
    destruct (decide (key ∈ sort_fields)) as [Hk|Hk].
    + unfold sort_fields in Hk.
      repeat (apply elem_of_cons in Hk as [->|Hk]; [done|]).
      by apply elem_of_nil in Hk.
    + destruct Hsd1 as [_ Hg1]. destruct Hsd2 as [_ Hg2]. by rewrite Hg1, Hg2.
Qed.

Lemma match_weight_is_tree (h : heap) parentKey s x :
  loose_eq_empty (get h x parentKey) = false →
  match_weight h parentKey s x = match_tree h parentKey s x.
Proof.
  intros He. unfold match_weight, match_tree. rewrite He.
  by rewrite andb_false_r, orb_false_r.
Qed.

Lemma walk_ext arrIn (child child' : value → loc → bool) idv n :
  (∀ s x, x ∈ arrIn → child s x = child' s x) →
  ∀ s, walk arrIn child idv n s = walk arrIn child' idv n s.
Proof.
  intros Hc. induction n as [|n IH]; intros s; [done|]. simpl.
  assert (kids arrIn child s = kids arrIn child' s) as ->.
  { apply filter_ext_bool. intros x Hx. by apply Hc. }
  generalize (kids arrIn child' s). intros els.
  induction els as [|el els IHels]; [done|]. simpl.
  by rewrite IH, IHels.
Qed.

(** X10: on such a hierarchy with numeric weights, when no record holds
    under the parent key a value loosely equal to the empty string,
    [array2SortAndWeight] returns the records in the order in which
    [array2SortByTree] returns them. *)
Theorem array2SortAndWeight_same_order (h : heap) arrIn idKey parentKey weightKey
    lvl rw pidx k :
  idKey ∉ weight_fields → parentKey ∉ weight_fields → weightKey ∉ weight_fields →
  idKey ≠ "" → parentKey ≠ "" →
  valid h arrIn →
  numeric_weights h arrIn weightKey →
  ids_unique arrIn (λ x, get h x idKey) →
  acyclic arrIn (match_tree h parentKey) (λ x, get h x idKey) →
  root_exclusive arrIn (match_tree h parentKey) (λ x, get h x idKey) VNull →
  (∀ x, x ∈ arrIn → loose_eq_empty (get h x parentKey) = false) →
  ∃ h1 h2 out,
    array2SortByTree (S (length arrIn) + k) h arrIn idKey parentKey VNull lvl [] pidx
      = Ok (h1, out)
    ∧ array2SortAndWeight (S (length arrIn) + k) h arrIn idKey parentKey weightKey
        VNull lvl rw [] pidx = Ok (h2, out).
Proof.
  intros Hid Hpk Hwk Hidne Hpkne Hvalid Hnum Hids Hacyc Hrx Hne.
  destruct (tree_listing h arrIn idKey parentKey k Hids Hacyc Hrx)
    as (w & Hw & Hnd & Hsub & _).
  destruct (sort_run h arrIn idKey parentKey (sort_fields_weight _ Hid)
              (sort_fields_weight _ Hpk) Hidne Hpkne Hvalid Hids
              _ h VNull lvl [] pidx w (same_data_refl _ _) Hw Hnd Hsub)
    as (h1 & Hrun1 & _).
  assert (HwW : walk arrIn (match_weight h parentKey) (λ x, get h x idKey)
                  (S (length arrIn) + k) VNull = Some w).
  { rewrite <- Hw. apply walk_ext. intros s x Hx.
    apply match_weight_is_tree. by apply Hne. }
  destruct (weight_run h arrIn idKey parentKey weightKey Hpk Hwk Hvalid Hnum Hid Hids
              _ h VNull lvl rw [] pidx w (same_data_refl _ _) HwW Hnd Hsub)
    as (h2 & Hrun2 & _).
  by exists h1, h2, w.
Qed.

(** X11: on such a hierarchy with at least one record matched by the root
    marker, and whose fields are scalars that a JSON copy returns as they
    are, the nodes [tree2Array] lists from the tree [array2Tree] built are
    copies of the records in the order in which [array2SortByTree] returns
    them. *)
Theorem tree_flattens_in_sort_order (h : heap) arrIn idKey parentKey lvl pidx myId
    pv lvl2 k :
  idKey ∉ tree_fields → parentKey ∉ tree_fields →
  idKey ∉ sort_fields → parentKey ∉ sort_fields →
  idKey ≠ "" → parentKey ≠ "" →
  valid h arrIn →
  ids_unique arrIn (λ x, get h x idKey) →
  acyclic arrIn (match_tree h parentKey) (λ x, get h x idKey) →
  root_exclusive arrIn (match_tree h parentKey) (λ x, get h x idKey) VNull →
  kids arrIn (match_tree h parentKey) VNull ≠ [] →
  scalars arrIn h →
  (∀ x, x ∈ arrIn → json_stable h x) →
  ∃ h1 tree h2 myId' out hs sorted,
    array2Tree (S (length arrIn) + k) h arrIn idKey parentKey VNull lvl
      = Ok (h1, tree)
    ∧ tree2Array (S (S (length arrIn)) + k) h1 myId tree "$children" pv lvl2
      = Ok (h2, myId', out)
    ∧ array2SortByTree (S (length arrIn) + k) h arrIn idKey parentKey VNull lvl []
        pidx = Ok (hs, sorted)
    ∧ Forall2 (same_record h h2) out sorted.
Proof.
  intros Hid Hpk Hids' Hpks Hidne Hpkne Hvalid Hids Hacyc Hrx Hroots Hsc Hst.
  destruct (tree_listing h arrIn idKey parentKey 0 Hids Hacyc Hrx)
    as (w & Hw & _ & _ & _).
  destruct (tree_listing h arrIn idKey parentKey k Hids Hacyc Hrx)
    as (wk & Hwk & Hnd & Hsub & _).
  destruct (sort_run h arrIn idKey parentKey Hids' Hpks Hidne Hpkne Hvalid Hids
              _ h VNull lvl [] pidx wk (same_data_refl _ _) Hwk Hnd Hsub)
    as (hs & Hrun & _).
  destruct Hacyc as [rank Hrank].
  destruct (tree_returns h arrIn idKey parentKey Hid Hpk Hvalid rank Hrank
              (S (length arrIn) + k) h VNull lvl (same_data_refl _ _))
    as (h1 & ret & Hrun1); [|lia|].
  { intros el Hel. apply (kids_in _ _ (λ x, get h x idKey)) in Hel.
    pose proof (above_lt arrIn _ _ rank Hrank el Hel). lia. }
  destruct (tree_run h arrIn idKey parentKey Hid Hpk Hvalid _ _ _ _ _ _
              (same_data_refl _ _) Hrun1) as (Hsd & _ & Hret & Hbuilt & _).
  pose proof (tree_scalars arrIn idKey parentKey _ _ _ _ _ _ Hsc Hrun1) as Hsc1.
  rewrite decide_False in Hret by done. subst ret.
  assert (Hlen : length arrIn ≤ length h).
  { trans (length (seq 0 (length h))); [|by rewrite length_seq].
    apply submseteq_length, NoDup_submseteq; [apply Hids|].
    intros x Hx. apply elem_of_seq. eapply Forall_forall in Hvalid; [|done]. lia. }
  assert (Hpre : preorder (forest_of arrIn (match_tree h parentKey)
                             (λ x, get h x idKey) (S (length arrIn) + k) VNull)
                 = preorder (forest_of arrIn (match_tree h parentKey)
                             (λ x, get h x idKey) (S (length arrIn) + 0) VNull)).
  { rewrite (preorder_forest_of h arrIn idKey parentKey _ _ _ Hwk).
    rewrite (preorder_forest_of h arrIn idKey parentKey _ _ _ Hw).
    clear -Hw Hwk. revert Hw Hwk. generalize (S (length arrIn)). intros n Hw Hwk.
    replace (n + 0) with n in Hw by lia.
    assert (Hmono : ∀ n s w, walk arrIn (match_tree h parentKey)
                               (λ x, get h x idKey) n s = Some w →
              ∀ m, walk arrIn (match_tree h parentKey) (λ x, get h x idKey)
                     (n + m) s = Some w).
    { clear. induction n as [|n IH]; intros s w; [done|]. simpl.
      generalize (kids arrIn (match_tree h parentKey) s). intros els. revert w.
      induction els as [|el els IHels]; intros w; [done|].
      rewrite walk_each_cons. intros (w1 & wr & Hw1 & Hwr & ->) m.
      apply walk_each_cons. exists w1, wr. split; [by apply IH|].
      split; [by apply IHels|done]. }
    specialize (Hmono _ _ _ Hw k). congruence. }
  pose proof (height_forest_of h arrIn idKey parentKey (S (length arrIn) + 0) VNull) as Hht.
  assert (Hrepr0 : repr h 0 h1
            (forest_of arrIn (match_tree h parentKey) (λ x, get h x idKey)
               (S (length arrIn) + 0) VNull)
            (kids arrIn (match_tree h parentKey) VNull)).
  { eapply (built_repr h arrIn idKey parentKey h1 _ VNull w); done. }
  destruct (flatten_forest h _ (S (length arrIn) + k) 0 h1 myId _ pv lvl2 [] Hrepr0)
    as (h2 & myId' & out & Hflat & _ & Hout).
  { lia. }
  { destruct Hsd as [-> _]. lia. }
  exists h1, (VArr (VRef <$> kids arrIn (match_tree h parentKey) VNull)), h2, myId',
    out, hs, wk.
  split; [done|]. split; [|split; [done|]].
  - change (S (S (length arrIn)) + k) with (S (S (length arrIn) + k)).
    rewrite tree2Array_unfold. exact Hflat.
  - rewrite <- Hpre in Hout.
    by rewrite (preorder_forest_of h arrIn idKey parentKey _ _ _ Hwk) in Hout.
Qed.

End Orders.

(** ** The counter across calls *)

Section Counter.
Context {num : Type} {N : Number num}.

Abbreviation value := (value num).
Abbreviation heap := (list (gmap string value)).

Lemma ids_of_call fuel (h : heap) myId treeIn key pv lvl h' myId' out (h'' : heap) :
  key ≠ "$id" → key ≠ "$parent_id" →
  tree2Array fuel h myId treeIn key pv lvl = Ok (h', myId', out) →
  h' `prefix_of` h'' →
  myId' = counter_after myId (length out)
  ∧ ∀ i node, out !! i = Some node →
      get h'' node "$id" = VNum (counter_after myId (S i)).
Proof.
  intros Hkid Hkpar Hrun Hp.
  destruct (tree2Array_numbered _ _ _ _ _ _ _ _ _ _ Hkid Hkpar Hrun)
    as (_ & Hc & Hb & Hn).
  split; [done|]. intros i node Hi.
  destruct (Hn i node Hi) as (<- & _). apply get_prefix; [done|].
  eapply Forall_forall in Hb; [|by eapply list_elem_of_lookup_2]. simpl in Hb. lia.
Qed.

(** X12: the counter is kept between calls: when a call of [tree2Array] is
    followed by another on the same instance, the nodes of the two results,
    taken together in order, carry consecutive identifiers from the value
    the counter had before the first call. *)
Theorem tree2Array_ids_continue fuel1 fuel2 (h : heap) myId key
    t1 pv1 lvl1 h1 myId1 out1 t2 pv2 lvl2 h2 myId2 out2 :
  key ≠ "$id" → key ≠ "$parent_id" →
  tree2Array fuel1 h myId t1 key pv1 lvl1 = Ok (h1, myId1, out1) →
  tree2Array fuel2 h1 myId1 t2 key pv2 lvl2 = Ok (h2, myId2, out2) →
  myId2 = counter_after myId (length (out1 ++ out2))
  ∧ ∀ i node, (out1 ++ out2) !! i = Some node →
      get h2 node "$id" = VNum (counter_after myId (S i)).
Proof.
  intros Hkid Hkpar Hrun1 Hrun2.
  destruct (tree2Array_extends _ _ _ _ _ _ _ _ _ _ Hrun2) as [Hp _].
  destruct (ids_of_call _ _ _ _ _ _ _ _ _ _ h2 Hkid Hkpar Hrun1 Hp) as [-> Hid1].
  destruct (ids_of_call _ _ _ _ _ _ _ _ _ _ h2 Hkid Hkpar Hrun2 (reflexivity _))
    as [-> Hid2].
  split.
  { rewrite counter_after_add, length_app. f_equal. lia. }
  intros i node Hi. apply lookup_app_Some in Hi as [Hi|[Hge Hi]]; [by apply Hid1|].
  rewrite (Hid2 _ _ Hi), counter_after_add. do 2 f_equal. lia.
Qed.

(** X13: after [resetIdCounter] the identifiers start again: the nodes of a
    call made after a reset carry, position by position, the identifiers of
    the nodes of an earlier call that was itself made after a reset. *)
Theorem resetIdCounter_repeats_ids fuel1 fuel2 (h : heap) c key
    t1 pv1 lvl1 h1 myId1 out1 t2 pv2 lvl2 h2 myId2 out2 :
  key ≠ "$id" → key ≠ "$parent_id" →
  tree2Array fuel1 h (resetIdCounter c) t1 key pv1 lvl1 = Ok (h1, myId1, out1) →
  tree2Array fuel2 h1 (resetIdCounter myId1) t2 key pv2 lvl2 = Ok (h2, myId2, out2) →
  ∀ i a b, out1 !! i = Some a → out2 !! i = Some b →
    get h2 a "$id" = get h2 b "$id".
Proof.
  intros Hkid Hkpar Hrun1 Hrun2 i a b Ha Hb.
  destruct (tree2Array_extends _ _ _ _ _ _ _ _ _ _ Hrun2) as [Hp _].
  destruct (ids_of_call _ _ _ _ _ _ _ _ _ _ h2 Hkid Hkpar Hrun1 Hp) as [_ Hid1].
  destruct (ids_of_call _ _ _ _ _ _ _ _ _ _ h2 Hkid Hkpar Hrun2 (reflexivity _))
    as [_ Hid2].
  by rewrite (Hid1 _ _ Ha), (Hid2 _ _ Hb).
Qed.

End Counter.



(** ** The numbering of array2SortAndWeight *)

Section WeightNumbers.
Context {num : Type} {N : Number num} {L : NumberLaws num}.

Abbreviation value := (value num).
Abbreviation heap := (list (gmap string value)).

Variables (h0 : heap) (arrIn : list loc) (idKey parentKey weightKey : string).

Abbreviation idv := (λ x : loc, get h0 x idKey).
Abbreviation kidsW := (kids arrIn (match_weight h0 parentKey)).
Abbreviation walkW := (walk arrIn (match_weight h0 parentKey) idv).

Hypothesis Hpk : parentKey ∉ weight_fields.
Hypothesis Hwk : weightKey ∉ weight_fields.
Hypothesis Hvalid : valid h0 arrIn.
Hypothesis Hnum : numeric_weights h0 arrIn weightKey.
Hypothesis Hid : idKey ∉ weight_fields.
Hypothesis Hids : ids_unique arrIn idv.

Lemma annotate_weight_numbers (h : heap) e sumWeight rw lvl idx pidx h1 r :
  e < length h →
  annotate_weight h e weightKey sumWeight rw lvl idx pidx = Ok (h1, r) →
  get h1 e "$level" = VNum lvl
  ∧ get h1 e "$index" = VNum (n_of_nat (idx + 1))
  ∧ get h1 e "$tree_index" = VStr (tree_index pidx (idx + 1)).
Proof.
  intros He. unfold annotate_weight.
  destruct (weight_of _) as [w| | |]; cbn [rbind]; [|done..].
  intros [= <- _]. apply get_annotate. by rewrite !length_set.
Qed.

Lemma weight_numbers n : ∀ (h : heap) s lvl rw acc pidx w h' out,
  same_data weight_fields h0 h →
  walkW n s = Some w →
  NoDup (acc ++ w) → (∀ x, x ∈ acc ++ w → x ∈ arrIn) →
  array2SortAndWeight n h arrIn idKey parentKey weightKey s lvl rw acc pidx
    = Ok (h', out) →
  (∀ y k, y ∉ w → k ≠ "$is_leaf" → get h' y k = get h y k)
  ∧ numbered_group h' lvl pidx (kidsW s)
  ∧ ∀ p, p ∈ w → numbered_children h' p (kidsW (idv p)).
Proof.
  induction n as [|n IH]; intros h s lvl rw acc pidx w h' out Hsd Hw Hnd Hsub; [done|].
  rewrite array2SortAndWeight_unfold.
  assert ((length acc <=? length arrIn) = true) as ->.
  { apply Nat.leb_le. transitivity (length (acc ++ w)).
    - rewrite length_app. lia.
    - apply submseteq_length. by apply NoDup_submseteq. }
  rewrite (kids_in_heap_w h0 arrIn parentKey Hpk) by done. simpl in Hw.
  destruct (kidsW s) as [|el els] eqn:Hk.
  - injection Hw as <-. intros [= <- <-]. split_and!.
    + intros y k _ Hne. by apply get_mark_leaf_other.
    + intros i x Hi. by rewrite lookup_nil in Hi.
    + intros p Hp. by apply elem_of_nil in Hp.
  - rewrite (sum_weights_total h0 arrIn weightKey Hwk Hnum); [|done|].
    2: { intros x Hx. rewrite <- Hk in Hx.
         exact (kids_in _ _ idv _ x Hx). }
    cbn [rbind]. generalize (total_weight h0 weightKey (el :: els)). intros sw.
    assert (Hloop : ∀ rest idx (h : heap) acc ws h' out,
      same_data weight_fields h0 h →
      walk_each idv (walkW n) rest = Some ws →
      NoDup (acc ++ ws) → (∀ x, x ∈ acc ++ ws → x ∈ arrIn) →
      weight_loop
        (λ h s rw acc pidx,
           array2SortAndWeight n h arrIn idKey parentKey weightKey s
             (n_add lvl n_one) rw acc pidx)
        idKey weightKey sw rw lvl pidx rest idx h acc = Ok (h', out) →
      (∀ y k, y ∉ ws → k ≠ "$is_leaf" → get h' y k = get h y k)
      ∧ (∀ i x, rest !! i = Some x →
           get h' x "$level" = VNum lvl
           ∧ get h' x "$index" = VNum (n_of_nat (idx + i + 1))
           ∧ get h' x "$tree_index" = VStr (tree_index pidx (idx + i + 1)))
      ∧ ∀ p, p ∈ ws → numbered_children h' p (kidsW (idv p))).
    { clear h acc w h' out Hsd Hw Hnd Hsub Hk.
      induction rest as [|e rest IHrest]; intros idx h acc ws h' out Hsd Hws Hnd Hsub.
      - injection Hws as <-. intros [= <- <-]. split_and!; [done| |].
        + intros i x Hi. by rewrite lookup_nil in Hi.
        + intros p Hp. by apply elem_of_nil in Hp.
      - apply walk_each_cons in Hws as (w1 & wr & Hw1 & Hwr & ->).
        cbn [weight_loop].
        assert (Hein : e ∈ arrIn).
        { apply Hsub. apply elem_of_app. right. by left. }
        assert (Hel : e < length h).
        { destruct Hsd as [-> _]. by eapply Forall_forall in Hvalid. }
        destruct (annotate_weight_ok h0 arrIn parentKey weightKey Hpk Hwk Hvalid Hnum
                    h e sw rw lvl idx pidx Hsd Hein)
          as (h1 & Hann & Hsd01 & Hoth1 & _).
        destruct (annotate_weight_numbers h e sw rw lvl idx pidx _ _ Hel Hann)
          as (Hl1 & Hi1 & Ht1).
        rewrite Hann. cbn [rbind].
        assert (Hsd1 : same_data weight_fields h0 h1) by (by eapply same_data_trans).
        assert (get h1 e idKey = idv e) as -> by (by apply Hsd1).
        assert (Heq1 : (acc ++ [e]) ++ w1 ++ wr = acc ++ e :: w1 ++ wr).
        { by rewrite <- app_assoc. }
        assert (Hnd1 : NoDup ((acc ++ [e]) ++ w1)).
        { rewrite <- Heq1, (app_assoc (acc ++ [e])) in Hnd.
          by apply NoDup_app in Hnd as [Hnd _]. }
        assert (Hsub1 : ∀ x, x ∈ (acc ++ [e]) ++ w1 → x ∈ arrIn).
        { intros x Hx. apply Hsub. rewrite <- Heq1, (app_assoc (acc ++ [e])).
          apply elem_of_app. by left. }
        destruct (weight_run h0 arrIn idKey parentKey weightKey Hpk Hwk Hvalid Hnum
                    Hid Hids n h1 (idv e) (n_add lvl n_one)
                    (n_mul rw (n_div (weight h0 weightKey e) sw)) (acc ++ [e])
                    (Some (tree_index pidx (idx + 1))) w1 Hsd1 Hw1 Hnd1 Hsub1)
          as (h2 & Hrun2 & Hsd2 & _).
        rewrite Hrun2. cbn [rbind]. intros Hrun3.
        destruct (IH _ _ _ _ _ _ _ _ _ Hsd1 Hw1 Hnd1 Hsub1 Hrun2) as (F2 & A2 & B2).
        destruct (IHrest (S idx) h2 ((acc ++ [e]) ++ w1) wr h' out Hsd2 Hwr)
          as (F3 & A3 & B3); [by rewrite <- app_assoc, Heq1| |done|].
        { intros x Hx. apply Hsub. by rewrite <- Heq1, (app_assoc (acc ++ [e])). }
        apply NoDup_app in Hnd as (_ & _ & Hnd).
        apply NoDup_cons in Hnd as [Hew Hnd].
        apply NoDup_app in Hnd as (_ & Hdisj & _).
        assert (He1 : e ∉ w1) by (intros ?; apply Hew, elem_of_app; by left).
        assert (Her : e ∉ wr) by (intros ?; apply Hew, elem_of_app; by right).
        assert (Hkeep : ∀ k, k ≠ "$is_leaf" → get h' e k = get h1 e k).
        { intros k Hk. by rewrite F3, F2. }
        split_and!.
        + intros y k Hy Hne.
          apply not_elem_of_cons in Hy as [Hye Hy].
          apply not_elem_of_app in Hy as [Hy1 Hyr].
          rewrite F3, F2 by done. by apply Hoth1.
        + intros [|i] x Hi.
          * injection Hi as <-. rewrite !Hkeep by done.
            by rewrite Nat.add_0_r.
          * simpl in Hi. destruct (A3 i x Hi) as (? & ? & ?).
            by replace (idx + S i + 1) with (S idx + i + 1) by lia.
        + intros p Hp. apply elem_of_cons in Hp as [->|Hp].
          * exists lvl, (tree_index pidx (idx + 1)).
            rewrite !Hkeep by done. split_and!; [done..|].
            eapply numbered_group_frame; [|exact A2].
            intros x k Hx Hne. apply F3; [|done]. apply Hdisj.
            eapply walk_kids; [exact Hw1|exact Hx].
          * apply elem_of_app in Hp as [Hp|Hp]; [|by apply B3].
            eapply numbered_children_frame; [| |by apply B2].
            -- intros k Hne. apply F3; [by apply Hdisj|done].
            -- intros x k Hx Hne. apply F3; [|done]. apply Hdisj.
               eapply walk_closed; [exact Hw1|exact Hp|exact Hx]. }
    intros Hrun.
    destruct (Hloop (el :: els) 0 h acc w h' out Hsd Hw Hnd Hsub Hrun)
      as (F & A & B).
    split_and!; [done| |done].
    intros i x Hi. exact (A i x Hi).
Qed.

End WeightNumbers.

(** ** The levels of array2Tree *)

Section TreeLevels.
Context {num : Type} {N : Number num} {L : NumberLaws num}.

Abbreviation value := (value num).
Abbreviation heap := (list (gmap string value)).

Variables (h0 : heap) (arrIn : list loc) (idKey parentKey : string).

Abbreviation idv := (λ x : loc, get h0 x idKey).
Abbreviation kidsT := (kids arrIn (match_tree h0 parentKey)).
Abbreviation walkT := (walk arrIn (match_tree h0 parentKey) idv).

Hypothesis Hid : idKey ∉ tree_fields.
Hypothesis Hpk : parentKey ∉ tree_fields.
Hypothesis Hvalid : valid h0 arrIn.

Lemma tree_levels n : ∀ (h : heap) s lvl w h' ret,
  same_data tree_fields h0 h →
  walkT n s = Some w → NoDup w →
  array2Tree n h arrIn idKey parentKey s lvl = Ok (h', ret) →
  (∀ y, y ∉ w → get h' y "$level" = get h y "$level")
  ∧ (∀ x, x ∈ kidsT s → get h' x "$level" = VNum lvl)
  ∧ ∀ p, p ∈ w → leveled_children h' p (kidsT (idv p)).
Proof.
  induction n as [|n IH]; intros h s lvl w h' ret Hsd Hw Hnd; [done|].
  rewrite array2Tree_unfold, (kids_in_heap_t h0 arrIn parentKey Hpk) by done.
  simpl in Hw.
  destruct (kidsT s) as [|el els] eqn:Hk.
  - injection Hw as <-. intros [= <- <-]. split_and!.
    + intros y _. by apply get_mark_leaf_other.
    + intros x Hx. by apply elem_of_nil in Hx.
    + intros p Hp. by apply elem_of_nil in Hp.
  - assert (Hin : ∀ x, x ∈ el :: els → x ∈ arrIn).
    { intros x Hx. rewrite <- Hk in Hx. exact (kids_in _ _ idv _ x Hx). }
    revert Hin Hw. generalize (el :: els). clear Hk el els. intros group Hin Hw.
    destruct (tree_loop _ idKey lvl group h) as [h1| | |] eqn:Hloop; [|done..].
    cbn [rbind]. intros [= <- <-].
    revert h w Hsd Hw Hnd Hloop.
    induction group as [|e rest IHrest]; intros h ws Hsd Hws Hnd.
    { injection Hws as <-. cbn [tree_loop]. intros [= <-]. split_and!; [done| |].
      - intros x Hx. by apply elem_of_nil in Hx.
      - intros p Hp. by apply elem_of_nil in Hp. }
    apply walk_each_cons in Hws as (w1 & wr & Hw1 & Hwr & ->).
    cbn [tree_loop].
    set (h2 := set h e "$level" (VNum lvl)).
    assert (Hel : e < length h).
    { destruct Hsd as [-> _]. eapply Forall_forall in Hvalid; [exact Hvalid|].
      apply Hin. by left. }
    assert (Hsd2 : same_data tree_fields h0 h2).
    { eapply same_data_trans; [done|]. apply same_data_set.
      unfold tree_fields. by repeat constructor. }
    assert (get h2 e idKey = idv e) as -> by (by apply Hsd2).
    destruct (array2Tree n h2 arrIn idKey parentKey (idv e) (n_add lvl n_one))
      as [[h3 sub]| | |] eqn:Hrun; [|done..].
    cbn [rbind]. intros Hrest.
    apply NoDup_cons in Hnd as [Hew Hnd].
    pose proof Hnd as Hnd'. apply NoDup_app in Hnd' as (Hnd1 & Hdisj & Hndr).
    assert (He1 : e ∉ w1) by (intros ?; apply Hew, elem_of_app; by left).
    assert (Her : e ∉ wr) by (intros ?; apply Hew, elem_of_app; by right).
    destruct (IH _ _ _ _ _ _ Hsd2 Hw1 Hnd1 Hrun) as (F3 & A3 & B3).
    assert (Hsd3 : same_data tree_fields h0 h3).
    { apply array2Tree_frame in Hrun as [Hsd3 _]. by eapply same_data_trans. }
    set (h4 := set h3 e "$children" (if truthy sub then sub else VArr [])) in Hrest.
    assert (Hsd4 : same_data tree_fields h0 h4).
    { eapply same_data_trans; [done|]. apply same_data_set.
      unfold tree_fields. by repeat constructor. }
    assert (Hin' : ∀ x, x ∈ rest → x ∈ arrIn).
    { intros x Hx. apply Hin. by right. }
    destruct (IHrest Hin' h4 wr Hsd4 Hwr Hndr Hrest) as (F5 & A5 & B5).
    assert (Hlev4 : ∀ y, get h4 y "$level" = get h3 y "$level").
    { intros y. unfold h4. by rewrite get_set_other by (by left). }
    assert (Hkeep : get h1 e "$level" = VNum lvl).
    { rewrite F5, Hlev4, F3 by done. unfold h2. rewrite get_set by done.
      by rewrite decide_True. }
    split_and!.
    + intros y Hy.
      apply not_elem_of_cons in Hy as [Hye Hy].
      apply not_elem_of_app in Hy as [Hy1 Hyr].
      rewrite F5, Hlev4, F3 by done. unfold h2. rewrite get_set_other; auto.
    + intros x Hx. apply elem_of_cons in Hx as [->|Hx]; [done|by apply A5].
    + intros p Hp. apply elem_of_cons in Hp as [->|Hp].
      * exists lvl. split; [done|]. intros x Hx.
        rewrite F5, Hlev4; [by apply A3|]. apply Hdisj.
        eapply walk_kids; [exact Hw1|exact Hx].
      * apply elem_of_app in Hp as [Hp|Hp]; [|by apply B5].
        destruct (B3 p Hp) as (lp & Hlp & Hch). exists lp. split.
        -- rewrite F5, Hlev4; [done|by apply Hdisj].
        -- intros x Hx. rewrite F5, Hlev4; [by apply Hch|]. apply Hdisj.
           eapply walk_closed; [exact Hw1|exact Hp|exact Hx].
Qed.

End TreeLevels.

Section Numberings.
Context {num : Type} {N : Number num} {L : NumberLaws num}.

Abbreviation value := (value num).
Abbreviation heap := (list (gmap string value)).

(** X16: on a hierarchy -- identifiers unique, no cycle, no record matched
    both by the root marker and by an identifier -- [array2Tree] returns and
    leaves the starting level on the records matched by the root marker and,
    on the records matched by the identifier of a record it reached, the
    level of that record plus one. *)
Theorem array2Tree_levels (h : heap) arrIn idKey parentKey lvl k :
  idKey ∉ tree_fields → parentKey ∉ tree_fields →
  valid h arrIn →
  ids_unique arrIn (λ x, get h x idKey) →
  acyclic arrIn (match_tree h parentKey) (λ x, get h x idKey) →
  root_exclusive arrIn (match_tree h parentKey) (λ x, get h x idKey) VNull →
  ∃ h' tree,
    array2Tree (S (length arrIn) + k) h arrIn idKey parentKey VNull lvl
      = Ok (h', tree)
    ∧ (∀ x, x ∈ kids arrIn (match_tree h parentKey) VNull →
         get h' x "$level" = VNum lvl)
    ∧ ∀ p, reach arrIn (match_tree h parentKey) (λ x, get h x idKey) VNull p →
        leveled_children h' p
          (kids arrIn (match_tree h parentKey) (get h p idKey)).
Proof.
  intros Hid Hpk Hvalid Hids Hacyc Hrx.
  destruct (tree_listing h arrIn idKey parentKey k Hids Hacyc Hrx)
    as (w & Hw & Hnd & _).
  destruct Hacyc as [rank Hrank].
  destruct (tree_returns h arrIn idKey parentKey Hid Hpk Hvalid rank Hrank
              (S (length arrIn) + k) h VNull lvl (same_data_refl _ _))
    as (h' & ret & Hrun); [|lia|].
  { intros el Hel. apply (kids_in _ _ (λ x, get h x idKey)) in Hel.
    pose proof (above_lt arrIn _ _ rank Hrank el Hel). lia. }
  exists h', ret. split; [done|].
  destruct (tree_levels h arrIn idKey parentKey Hid Hpk Hvalid _ h VNull lvl w h' ret
              (same_data_refl _ _) Hw Hnd Hrun) as (_ & A & B).
  split; [done|]. intros p Hp. apply B. by eapply walk_reached.
Qed.

(** X17: on a hierarchy read with the filter of [array2SortAndWeight], and
    with numeric weights, [array2SortAndWeight] leaves the same outline
    numbering as [array2SortByTree]: level, position among the siblings
    and the position appended to the parent's [$tree_index]. *)
Theorem array2SortAndWeight_numbering (h : heap) arrIn idKey parentKey weightKey
    lvl rw pidx k :
  idKey ∉ weight_fields → parentKey ∉ weight_fields → weightKey ∉ weight_fields →
  valid h arrIn →
  numeric_weights h arrIn weightKey →
  ids_unique arrIn (λ x, get h x idKey) →
  acyclic arrIn (match_weight h parentKey) (λ x, get h x idKey) →
  ∃ h' out,
    array2SortAndWeight (S (length arrIn) + k) h arrIn idKey parentKey weightKey
      VNull lvl rw [] pidx = Ok (h', out)
    ∧ numbered_group h' lvl pidx (kids arrIn (match_weight h parentKey) VNull)
    ∧ ∀ p, p ∈ out →
        numbered_children h' p
          (kids arrIn (match_weight h parentKey) (get h p idKey)).
Proof.
  intros Hid Hpk Hwk Hvalid Hnum Hids Hacyc.
  destruct (weight_listing h arrIn idKey parentKey k Hids Hacyc)
    as (w & Hw & Hnd & Hsub).
  destruct (weight_run h arrIn idKey parentKey weightKey Hpk Hwk Hvalid Hnum Hid Hids
              _ h VNull lvl rw [] pidx w (same_data_refl _ _) Hw Hnd Hsub)
    as (h' & Hrun & _).
  exists h', w. split; [done|].
  by destruct (weight_numbers h arrIn idKey parentKey weightKey Hpk Hwk Hvalid Hnum
                 Hid Hids _ h VNull lvl rw [] pidx w h' w (same_data_refl _ _) Hw Hnd
                 Hsub Hrun) as (_ & ? & ?).
Qed.

End Numberings.

(** ** The further properties on concrete inputs *)

Lemma ok_node {num : Type} `{Number num} {A : Type}
    (r : result (list (gmap string (value num)) * num * A)) out :
  emitted r = Some out → r = Ok (flat_heap r, flat_counter r, out).
Proof. destruct r as [[[h m] a]| | |]; simpl; congruence. Qed.

Lemma never_ok {A B : Type} (r : result (B * A)) :
  (∀ x, r ≠ Ok x) → emitted r = None.
Proof. destruct r as [[b a]| | |]; simpl; [|done..]. intros Hr. by destruct (Hr (b, a)). Qed.

(** X1 on the departments. *)
Lemma array2Tree_annotates_in_place_witness :
  let run := array2Tree 4 departments [0; 1; 2] "id" "parent_id" VNull 1%float in
  annotates tree_fields [0; 1; 2] departments (heap_after run)
  ∧ (VArr [VRef 0] : value float)
    = match filter (λ x, match_tree departments "parent_id" VNull x) [0; 1; 2] with
      | [] => VUndef
      | roots => VArr (VRef <$> roots)
      end.
Proof.
  intros run.
  apply (array2Tree_annotates_in_place 4 departments [0; 1; 2] "id" "parent_id"
           VNull 1%float (heap_after run) (VArr [VRef 0])).
  apply ok_after. vm_compute. reflexivity.
Defined.

(** X2 on the departments. *)
Lemma array2SortByTree_annotates_in_place_witness :
  let run := array2SortByTree 4 departments [0; 1; 2] "id" "parent_id" VNull 1%float
               [] None in
  annotates sort_fields ([0; 1; 2] ++ []) departments (heap_after run)
  ∧ ∃ new, [0; 1; 2] = [] ++ new ∧ ∀ x, x ∈ new → x ∈ [0; 1; 2].
Proof.
  intros run.
  apply (array2SortByTree_annotates_in_place 4 departments [0; 1; 2] "id" "parent_id"
           VNull 1%float [] None (heap_after run) [0; 1; 2]).
  apply ok_after. vm_compute. reflexivity.
Defined.


(** X4 on the cycle, entered at identifier [1]. *)
Lemma array2Tree_unbounded_on_cycle_witness :
  array2Tree 1000 cycle [0; 1] "id" "parent_id" (VNum 1%float) 1%float = OutOfFuel.
Proof.
  apply (array2Tree_unbounded_on_cycle cycle [0; 1] "id" "parent_id"
           (λ v, v = VNum 1%float ∨ v = VNum 2%float)).
  - not_member.
  - not_member.
  - intros t [-> | ->].
    + exists 1. split; [member|]. right. vm_compute. reflexivity.
    + exists 0. split; [member|]. left. vm_compute. reflexivity.
  - by left.
Defined.

(** X5 on a root with two children. *)
Lemma tree2Array_numbers_nodes_witness :
  let run := tree2Array 3 family 0%float (VArr [VRef 0]) "children" VNull 1%float in
  flat_counter run = counter_after 0%float (length [3; 6; 7])
  ∧ numbered "children" VNull 0%float (flat_heap run) [3; 6; 7].
Proof.
  intros run.
  apply (tree2Array_numbers_nodes 3 family 0%float (VArr [VRef 0]) "children" VNull
           1%float (flat_heap run) (flat_counter run) [3; 6; 7]).
  - discriminate.
  - discriminate.
  - apply ok_node. vm_compute. reflexivity.
Defined.

(** X6 on a node whose children field holds a string. *)
Lemma tree2Array_rejects_non_array_children_witness :
  emitted (tree2Array 5 misfiled 0%float (VArr [VRef 0]) "children" VNull 1%float)
    = None.
Proof.
  apply never_ok.
  apply (tree2Array_rejects_non_array_children 5 misfiled 0%float [VRef 0] "children"
           VNull 1%float 0).
  - by left.
  - vm_compute. lia.
  - vm_compute. reflexivity.
  - intros vs. vm_compute. discriminate.
Defined.

(** X7 on the departments. *)
Lemma array2SortByTree_preorder_witness :
  ∃ h' out,
    array2SortByTree 4 departments [0; 1; 2] "id" "parent_id" VNull 1%float [] None
      = Ok (h', out)
    ∧ NoDup out
    ∧ (∀ x, x ∈ out ↔
         reach [0; 1; 2] (match_tree departments "parent_id")
           (λ x, get departments x "id") VNull x)
    ∧ ∀ p, p ∈ out → ∃ before below after,
        out = before ++ p :: below ++ after
        ∧ ∀ x, x ∈ below ↔
            desc [0; 1; 2] (match_tree departments "parent_id")
              (λ x, get departments x "id") p x.
Proof.
  apply (array2SortByTree_preorder departments [0; 1; 2] "id" "parent_id"
           1%float None 0).
  - not_member.
  - not_member.
  - discriminate.
  - discriminate.
  - exact departments_valid.
  - exact departments_ids.
  - apply departments_acyclic. by left.
  - exact departments_root_exclusive.
Defined.

(** X8 on the departments. *)
Lemma array2SortByTree_numbering_witness :
  ∃ h' out,
    array2SortByTree 4 departments [0; 1; 2] "id" "parent_id" VNull 1%float [] None
      = Ok (h', out)
    ∧ numbered_group h' 1%float None
        (kids [0; 1; 2] (match_tree departments "parent_id") VNull)
    ∧ ∀ p, p ∈ out →
        numbered_children h' p
          (kids [0; 1; 2] (match_tree departments "parent_id")
             (get departments p "id")).
Proof.
  apply (array2SortByTree_numbering departments [0; 1; 2] "id" "parent_id"
           1%float None 0).
  - not_member.
  - not_member.
  - discriminate.
  - discriminate.
  - exact departments_valid.
  - exact departments_ids.
  - apply departments_acyclic. by left.
  - exact departments_root_exclusive.
Defined.

(** X9 on the departments. *)
Lemma array2SortByTree_idempotent_witness :
  ∃ h1 h2 out,
    array2SortByTree 4 departments [0; 1; 2] "id" "parent_id" VNull 1%float [] None
      = Ok (h1, out)
    ∧ array2SortByTree 4 h1 [0; 1; 2] "id" "parent_id" VNull 1%float [] None
      = Ok (h2, out)
    ∧ length h2 = length h1
    ∧ ∀ x key, get h2 x key = get h1 x key.
Proof.
  apply (array2SortByTree_idempotent departments [0; 1; 2] "id" "parent_id"
           1%float None 0).
  - not_member.
  - not_member.
  - discriminate.
  - discriminate.
  - exact departments_valid.
  - exact departments_ids.
  - apply departments_acyclic. by left.
  - exact departments_root_exclusive.
Defined.

(** X10 on the departments. *)
Lemma array2SortAndWeight_same_order_witness :
  ∃ h1 h2 out,
    array2SortByTree 4 departments [0; 1; 2] "id" "parent_id" VNull 1%float [] None
      = Ok (h1, out)
    ∧ array2SortAndWeight 4 departments [0; 1; 2] "id" "parent_id" "weight" VNull
        1%float 1%float [] None = Ok (h2, out).
Proof.
  apply (array2SortAndWeight_same_order departments [0; 1; 2] "id" "parent_id"
           "weight" 1%float 1%float None 0).
  - not_member.
  - not_member.
  - not_member.
  - discriminate.
  - discriminate.
  - exact departments_valid.
  - exact departments_numeric.
  - exact departments_ids.
  - apply departments_acyclic. by left.
  - exact departments_root_exclusive.
  - intros x Hx. cases Hx; vm_compute; reflexivity.
Defined.

(** X11 on the departments. *)
Lemma tree_flattens_in_sort_order_witness :
  ∃ h1 tree h2 myId' out hs sorted,
    array2Tree 4 departments [0; 1; 2] "id" "parent_id" VNull 1%float
      = Ok (h1, tree)
    ∧ tree2Array 5 h1 0%float tree "$children" VNull 1%float = Ok (h2, myId', out)
    ∧ array2SortByTree 4 departments [0; 1; 2] "id" "parent_id" VNull 1%float []
        None = Ok (hs, sorted)
    ∧ Forall2 (same_record departments h2) out sorted.
Proof.
  apply (tree_flattens_in_sort_order departments [0; 1; 2] "id" "parent_id"
           1%float None 0%float VNull 1%float 0).
  - not_member.
  - not_member.
  - not_member.
  - not_member.
  - discriminate.
  - discriminate.
  - exact departments_valid.
  - exact departments_ids.
  - apply departments_acyclic. by left.
  - exact departments_root_exclusive.
  - vm_compute. discriminate.
  - exact departments_scalars.
  - exact departments_json_stable.
Defined.

(** X12 on two calls on the same tree. *)
Lemma tree2Array_ids_continue_witness :
  let run1 := tree2Array 3 family 0%float (VArr [VRef 0]) "children" VNull 1%float in
  let run2 := tree2Array 3 (flat_heap run1) (flat_counter run1) (VArr [VRef 0])
                "children" VNull 1%float in
  flat_counter run2 = counter_after 0%float (length ([3; 6; 7] ++ [8; 11; 12]))
  ∧ ∀ i node, ([3; 6; 7] ++ [8; 11; 12]) !! i = Some node →
      get (flat_heap run2) node "$id" = VNum (counter_after 0%float (S i)).
Proof.
  intros run1 run2.
  apply (tree2Array_ids_continue 3 3 family 0%float "children"
           (VArr [VRef 0]) VNull 1%float (flat_heap run1) (flat_counter run1) [3; 6; 7]
           (VArr [VRef 0]) VNull 1%float (flat_heap run2) (flat_counter run2)
           [8; 11; 12]).
  - discriminate.
  - discriminate.
  - apply ok_node. vm_compute. reflexivity.
  - apply ok_node. vm_compute. reflexivity.
Defined.

(** X13 on two calls on the same tree, each after a reset: the second node
    of the second call carries the identifier of the second node of the
    first. *)
Lemma resetIdCounter_repeats_ids_witness :
  let run1 := tree2Array 3 family (resetIdCounter 5%float) (VArr [VRef 0]) "children"
                VNull 1%float in
  let run2 := tree2Array 3 (flat_heap run1) (resetIdCounter (flat_counter run1))
                (VArr [VRef 0]) "children" VNull 1%float in
  get (flat_heap run2) 6 "$id" = get (flat_heap run2) 11 "$id".
Proof.
  intros run1 run2.
  apply (resetIdCounter_repeats_ids 3 3 family 5%float "children"
           (VArr [VRef 0]) VNull 1%float (flat_heap run1) (flat_counter run1) [3; 6; 7]
           (VArr [VRef 0]) VNull 1%float (flat_heap run2) (flat_counter run2)
           [8; 11; 12]) with (i := 1).
  - discriminate.
  - discriminate.
  - apply ok_node. vm_compute. reflexivity.
  - apply ok_node. vm_compute. reflexivity.
  - reflexivity.
  - reflexivity.
Defined.


(** X15 on a record with neither an identifier nor a parent. *)
Lemma array2Tree_unbounded_on_missing_id_witness :
  array2Tree 1000 nameless [0] "id" "parent_id" VNull 1%float = OutOfFuel.
Proof.
  apply (array2Tree_unbounded_on_missing_id nameless [0] "id" "parent_id" 0 VNull).
  - not_member.
  - not_member.
  - by left.
  - vm_compute. reflexivity.
  - vm_compute. reflexivity.
  - reflexivity.
Defined.

(** X16 on the departments. *)
Lemma array2Tree_levels_witness :
  ∃ h' tree,
    array2Tree 4 departments [0; 1; 2] "id" "parent_id" VNull 1%float = Ok (h', tree)
    ∧ (∀ x, x ∈ kids [0; 1; 2] (match_tree departments "parent_id") VNull →
         get h' x "$level" = VNum 1%float)
    ∧ ∀ p, reach [0; 1; 2] (match_tree departments "parent_id")
             (λ x, get departments x "id") VNull p →
        leveled_children h' p
          (kids [0; 1; 2] (match_tree departments "parent_id")
             (get departments p "id")).
Proof.
  apply (array2Tree_levels departments [0; 1; 2] "id" "parent_id" 1%float 0).
  - not_member.
  - not_member.
  - exact departments_valid.
  - exact departments_ids.
  - apply departments_acyclic. by left.
  - exact departments_root_exclusive.
Defined.

(** X17 on the departments. *)
Lemma array2SortAndWeight_numbering_witness :
  ∃ h' out,
    array2SortAndWeight 4 departments [0; 1; 2] "id" "parent_id" "weight" VNull
      1%float 1%float [] None = Ok (h', out)
    ∧ numbered_group h' 1%float None
        (kids [0; 1; 2] (match_weight departments "parent_id") VNull)
    ∧ ∀ p, p ∈ out →
        numbered_children h' p
          (kids [0; 1; 2] (match_weight departments "parent_id")
             (get departments p "id")).
Proof.
  apply (array2SortAndWeight_numbering departments [0; 1; 2] "id" "parent_id"
           "weight" 1%float 1%float None 0).
  - not_member.
  - not_member.
  - not_member.
  - exact departments_valid.
  - exact departments_numeric.
  - exact departments_ids.
  - apply departments_acyclic. by right.
Defined.
